(** * Jeu Invader (src/jeu2/js.js): sprites, groups, level session, state machine

    A shallow embedding of the simulation kernel of the browser game and
    the properties its specification states about it.

    Conventions of the embedding.
    - JavaScript numbers are modelled as exact rationals ([Q]).  The
      coordinates of the player and of the bullets, the heights of the
      aliens, levels, counts and timer periods are integers or
      half-integers, and the machine (binary64) computes them exactly as
      well.  It rounds four things: the speed multiplier, the horizontal
      position of an alien and the sums formed from it, the difference of
      two clock readings, and the product of the random draw with the
      length of the alien array.  What is stated about these is stated so
      that it holds of the rounded values too: the multiplier is given in
      binary64 ([speedMultiplier64]), a position that depends on an
      alien's [x] is given to within a millionth of a pixel, and a
      threshold on elapsed time is given with a margin of a microsecond on
      the side where rounding could decide.
    - One clock reading [now] stands for the calls of [performance.now()]
      made during one frame; [lastFrameTime] is written and never read.
    - A sprite is a JavaScript object; [sid] stands for its reference
      (object identity).  Each object created by the game is added to
      exactly one group, once, so a group is a list of sprite records.
    - [pressedKeys] is the JavaScript object used as a map from key codes
      to booleans; an absent key reads [undefined], which is falsy.
    - Rendering ([draw*], [ctx]) and asset loading have no effect on the
      state modelled here and are left out. *)

From Stdlib Require Import QArith Qround ZArith Lia Lqa Bool List.
From Stdlib Require Import Floats.SpecFloat.
From stdpp Require Import base list gmap strings.

Local Open Scope Q_scope.

(** ** Global constants (js.js, lines 5-7 and 353) *)

Definition WIDTH : Q := 800.
Definition HEIGHT : Q := 600.
Definition SHOOT_DELAY : Q := 500.

(** Strict comparison [a < b] on numbers, as a boolean. *)
Definition Qltb (a b : Q) : bool := negb (Qle_bool b a).

(** ** Keyboard state (lines 32-42) *)

Abbreviation Keys := (gmap string bool).

(** Truthiness of [pressedKeys[code]]. *)
Definition held (code : string) (pressedKeys : Keys) : bool :=
  default false (pressedKeys !! code).

Definition keydown (code : string) (pressedKeys : Keys) : Keys :=
  <[code := true]> pressedKeys.

Definition keyup (code : string) (pressedKeys : Keys) : Keys :=
  <[code := false]> pressedKeys.

(** ** Sprite base class (lines 83-141) *)

Record Rect := mkRect { x : Q; y : Q; width : Q; height : Q }.

Inductive SpriteClass := Player | Bullet | Alien | EnemyBullet.

(** What [this.image] refers to: a loaded asset or an off-screen canvas. *)
Inductive Image := asset_player | asset_alien1 | asset_alien2
                 | canvas_white | canvas_red.

Inductive PosType := midbottom | midtop | topleft.

(** The properties of a sprite object.  [speed] is absent on aliens and
    [image_index], [last_animation_time] on the other classes; an absent
    property is never read and is given the value 0 here. *)
Record Sprite := mkSprite {
  sid : nat;
  cls : SpriteClass;
  image : Image;
  rect : Rect;
  isAlive : bool;
  speed : Q;
  image_index : nat;
  last_animation_time : Q
}.

Definition with_rect (r : Rect) (s : Sprite) : Sprite :=
  mkSprite (sid s) (cls s) (image s) r (isAlive s) (speed s)
           (image_index s) (last_animation_time s).

Definition with_x (v : Q) (s : Sprite) : Sprite :=
  with_rect (mkRect v (y (rect s)) (width (rect s)) (height (rect s))) s.

Definition with_y (v : Q) (s : Sprite) : Sprite :=
  with_rect (mkRect (x (rect s)) v (width (rect s)) (height (rect s))) s.

(** [constructor()] of [Sprite], followed by the subclass's assignments
    of [image] and of its own properties. *)
Definition new_Sprite (id : nat) (c : SpriteClass) (img : Image)
    (spd : Q) (t : Q) : Sprite :=
  mkSprite id c img (mkRect 0 0 0 0) true spd 0 t.

(** [setRect(posType, x, y, width, height)].  Every call in the program
    passes both dimensions and is made on a sprite whose image is set, so
    the branch that only warns (lines 98-100) is never taken. *)
Definition setRect (posType : PosType) (px py w h : Q) (s : Sprite) : Sprite :=
  match posType with
  | midbottom => with_rect (mkRect (px - w / 2) (py - h) w h) s
  | midtop => with_rect (mkRect (px - w / 2) py w h) s
  | topleft => with_rect (mkRect px py w h) s
  end.

(** [kill()], lines 124-126. *)
Definition kill (s : Sprite) : Sprite :=
  mkSprite (sid s) (cls s) (image s) (rect s) false (speed s)
           (image_index s) (last_animation_time s).

(** ** Game classes (lines 242-341) *)

Definition new_Player (id : nat) : Sprite :=
  setRect midbottom (WIDTH / 2) (HEIGHT - 10) 50 60
          (new_Sprite id Player asset_player 3 0).

Definition Player_update (pressedKeys : Keys) (s : Sprite) : Sprite :=
  let s1 :=
    if held "ArrowLeft" pressedKeys && Qltb 0 (x (rect s))
    then with_x (x (rect s) - speed s) s else s in
  if held "ArrowRight" pressedKeys
     && Qltb (x (rect s1) + width (rect s1)) WIDTH
  then with_x (x (rect s1) + speed s1) s1 else s1.

Definition new_Bullet (id : nat) (px py : Q) : Sprite :=
  setRect midbottom px py 5 15 (new_Sprite id Bullet canvas_white 7 0).

Definition Bullet_update (s : Sprite) : Sprite :=
  let s1 := with_y (y (rect s) - speed s) s in
  if Qltb (y (rect s1) + height (rect s1)) 0 then kill s1 else s1.

Definition alien_images (i : nat) : Image :=
  match i with O => asset_alien1 | _ => asset_alien2 end.

Definition new_Alien (id : nat) (now px py : Q) : Sprite :=
  setRect topleft px py 30 20 (new_Sprite id Alien (alien_images 0) 0 now).

Definition Alien_update (moving_right : bool) (speed_multiplier : Q)
    (now : Q) (s : Sprite) : Sprite :=
  let s1 :=
    if moving_right
    then with_x (x (rect s) + 0.5 * speed_multiplier) s
    else with_x (x (rect s) - 0.5 * speed_multiplier) s in
  if Qle_bool 500 (now - last_animation_time s1)
  then let i := ((image_index s1 + 1) mod 2)%nat in
       mkSprite (sid s1) (cls s1) (alien_images i) (rect s1) (isAlive s1)
                (speed s1) i now
  else s1.

Definition new_EnemyBullet (id : nat) (px py : Q) : Sprite :=
  setRect midtop px py 5 15 (new_Sprite id EnemyBullet canvas_red 3 0).

Definition EnemyBullet_update (s : Sprite) : Sprite :=
  let s1 := with_y (y (rect s) + speed s) s in
  if Qltb HEIGHT (y (rect s1)) then kill s1 else s1.

(** Dynamic dispatch of [sprite.update(...args)].  [args] is [None] for
    the call without arguments and [Some (movingRight, speedMultiplier)]
    for the aliens' call; the program never updates an alien without its
    two arguments. *)
Definition Sprite_update (pressedKeys : Keys) (now : Q)
    (args : option (bool * Q)) (s : Sprite) : Sprite :=
  match cls s with
  | Player => Player_update pressedKeys s
  | Bullet => Bullet_update s
  | EnemyBullet => EnemyBullet_update s
  | Alien =>
      match args with
      | Some (moving_right, speed_multiplier) =>
          Alien_update moving_right speed_multiplier now s
      | None => s
      end
  end.

(** ** Sprite groups (lines 143-238) *)

Abbreviation SpriteGroup := (list Sprite).

Definition SpriteGroup_add (sprite : Sprite) (g : SpriteGroup) : SpriteGroup :=
  g ++ [sprite].

(** [update(...args)]: the filter callback updates a sprite that is alive
    when it is visited and keeps it; it drops one that is not. *)
Fixpoint SpriteGroup_update (upd : Sprite -> Sprite) (g : SpriteGroup)
    : SpriteGroup :=
  match g with
  | [] => []
  | sprite :: rest =>
      if isAlive sprite
      then upd sprite :: SpriteGroup_update upd rest
      else SpriteGroup_update upd rest
  end.

Definition SpriteGroup_length (g : SpriteGroup) : Z := Z.of_nat (length g).

Definition checkCollision (rect1 rect2 : Rect) : bool :=
  Qltb (x rect1) (x rect2 + width rect2)
  && Qltb (x rect2) (x rect1 + width rect1)
  && Qltb (y rect1) (y rect2 + height rect2)
  && Qltb (y rect2) (y rect1 + height rect1).

(** State of one [groupCollide] call: the two sprite arrays and the
    [collisions] map, keyed by the reference of the first sprite. *)
Record CollideState := mkCollide {
  group1 : SpriteGroup;
  group2 : SpriteGroup;
  collisions : gmap nat (list nat)
}.

(** Body of the inner callback for the sprites at indexes [i] and [j]. *)
Definition collidePair (dokill1 dokill2 : bool) (st : CollideState)
    (ij : nat * nat) : CollideState :=
  match group1 st !! ij.1, group2 st !! ij.2 with
  | Some s1, Some s2 =>
      if isAlive s1 && isAlive s2 && checkCollision (rect s1) (rect s2)
      then mkCollide
             (if dokill1 then <[ij.1 := kill s1]> (group1 st) else group1 st)
             (if dokill2 then <[ij.2 := kill s2]> (group2 st) else group2 st)
             (<[sid s1 := default [] (collisions st !! sid s1) ++ [sid s2]]>
                (collisions st))
      else st
  | _, _ => st
  end.

(** Order in which the two nested [forEach] visit the index pairs. *)
Definition collideOrder (n1 n2 : nat) : list (nat * nat) :=
  flat_map (fun i => map (fun j => (i, j)) (seq 0 n2)) (seq 0 n1).

Definition collideRun (dokill1 dokill2 : bool) (st : CollideState)
    (visits : list (nat * nat)) : CollideState :=
  foldl (collidePair dokill1 dokill2) st visits.

Definition groupCollide (g1 g2 : SpriteGroup) (dokill1 dokill2 : bool)
    : CollideState :=
  collideRun dokill1 dokill2 (mkCollide g1 g2 ∅)
             (collideOrder (length g1) (length g2)).

(** [spriteCollide(sprite, group, dokill)]: the collided sprites and the
    group after the call. *)
Fixpoint spriteCollide_each (sprite : Sprite) (g : SpriteGroup) (dokill : bool)
    : list Sprite * SpriteGroup :=
  match g with
  | [] => ([], [])
  | s :: rest =>
      let '(collided, rest') := spriteCollide_each sprite rest dokill in
      if isAlive s && checkCollision (rect sprite) (rect s)
      then let s' := if dokill then kill s else s in
           (s' :: collided, s' :: rest')
      else (collided, s :: rest')
  end.

Definition spriteCollide (sprite : Sprite) (g : SpriteGroup) (dokill : bool)
    : list Sprite * SpriteGroup :=
  if negb (isAlive sprite) then ([], g)
  else spriteCollide_each sprite g dokill.

(** [SpriteGroupSingle]: [add] replaces the occupant, [sprite] reads it. *)
Definition SpriteGroupSingle_add (sprite : Sprite) (g : SpriteGroup)
    : SpriteGroup := [sprite].

Definition SpriteGroupSingle_sprite (g : SpriteGroup) : option Sprite :=
  head g.

(** ** Game state (lines 14, 345-354) *)

Inductive GameState :=
  MENU | INSTRUCTIONS | PLAYING | LEVEL_COMPLETE | GAME_OVER | VICTORY.

(** The module-level variables.  [alienShootTimer] is the interval timer
    registered under [alienShootIntervalId], given by its period; it is
    [None] before the first level and once [clearInterval] has run.
    [nextId] is the next unused object reference. *)
Record Game := mkGame {
  gameState : GameState;
  pressedKeys : Keys;
  currentLevel : Z;
  playerGroup : SpriteGroup;
  bulletGroup : SpriteGroup;
  enemyBulletGroup : SpriteGroup;
  alienGroup : SpriteGroup;
  initialAlienCount : Z;
  alienShootTimer : option Z;
  movingRight : bool;
  lastShotTime : Q;
  nextId : nat
}.

Definition set_gameState (v : GameState) (g : Game) : Game :=
  mkGame v (pressedKeys g) (currentLevel g) (playerGroup g) (bulletGroup g)
         (enemyBulletGroup g) (alienGroup g) (initialAlienCount g)
         (alienShootTimer g) (movingRight g) (lastShotTime g) (nextId g).

Definition set_pressedKeys (v : Keys) (g : Game) : Game :=
  mkGame (gameState g) v (currentLevel g) (playerGroup g) (bulletGroup g)
         (enemyBulletGroup g) (alienGroup g) (initialAlienCount g)
         (alienShootTimer g) (movingRight g) (lastShotTime g) (nextId g).

Definition set_currentLevel (v : Z) (g : Game) : Game :=
  mkGame (gameState g) (pressedKeys g) v (playerGroup g) (bulletGroup g)
         (enemyBulletGroup g) (alienGroup g) (initialAlienCount g)
         (alienShootTimer g) (movingRight g) (lastShotTime g) (nextId g).

Definition set_playerGroup (v : SpriteGroup) (g : Game) : Game :=
  mkGame (gameState g) (pressedKeys g) (currentLevel g) v (bulletGroup g)
         (enemyBulletGroup g) (alienGroup g) (initialAlienCount g)
         (alienShootTimer g) (movingRight g) (lastShotTime g) (nextId g).

Definition set_bulletGroup (v : SpriteGroup) (g : Game) : Game :=
  mkGame (gameState g) (pressedKeys g) (currentLevel g) (playerGroup g) v
         (enemyBulletGroup g) (alienGroup g) (initialAlienCount g)
         (alienShootTimer g) (movingRight g) (lastShotTime g) (nextId g).

Definition set_enemyBulletGroup (v : SpriteGroup) (g : Game) : Game :=
  mkGame (gameState g) (pressedKeys g) (currentLevel g) (playerGroup g)
         (bulletGroup g) v (alienGroup g) (initialAlienCount g)
         (alienShootTimer g) (movingRight g) (lastShotTime g) (nextId g).

Definition set_alienGroup (v : SpriteGroup) (g : Game) : Game :=
  mkGame (gameState g) (pressedKeys g) (currentLevel g) (playerGroup g)
         (bulletGroup g) (enemyBulletGroup g) v (initialAlienCount g)
         (alienShootTimer g) (movingRight g) (lastShotTime g) (nextId g).

Definition set_initialAlienCount (v : Z) (g : Game) : Game :=
  mkGame (gameState g) (pressedKeys g) (currentLevel g) (playerGroup g)
         (bulletGroup g) (enemyBulletGroup g) (alienGroup g) v
         (alienShootTimer g) (movingRight g) (lastShotTime g) (nextId g).

Definition set_alienShootTimer (v : option Z) (g : Game) : Game :=
  mkGame (gameState g) (pressedKeys g) (currentLevel g) (playerGroup g)
         (bulletGroup g) (enemyBulletGroup g) (alienGroup g)
         (initialAlienCount g) v (movingRight g) (lastShotTime g) (nextId g).

Definition set_movingRight (v : bool) (g : Game) : Game :=
  mkGame (gameState g) (pressedKeys g) (currentLevel g) (playerGroup g)
         (bulletGroup g) (enemyBulletGroup g) (alienGroup g)
         (initialAlienCount g) (alienShootTimer g) v (lastShotTime g)
         (nextId g).

Definition set_lastShotTime (v : Q) (g : Game) : Game :=
  mkGame (gameState g) (pressedKeys g) (currentLevel g) (playerGroup g)
         (bulletGroup g) (enemyBulletGroup g) (alienGroup g)
         (initialAlienCount g) (alienShootTimer g) (movingRight g) v
         (nextId g).

Definition set_nextId (v : nat) (g : Game) : Game :=
  mkGame (gameState g) (pressedKeys g) (currentLevel g) (playerGroup g)
         (bulletGroup g) (enemyBulletGroup g) (alienGroup g)
         (initialAlienCount g) (alienShootTimer g) (movingRight g)
         (lastShotTime g) v.

(** [pressedKeys[code] = false]: the key press is consumed. *)
Definition consume (code : string) (g : Game) : Game :=
  set_pressedKeys (keyup code (pressedKeys g)) g.

(** [if (alienShootIntervalId) clearInterval(alienShootIntervalId)]. *)
Definition clearAlienShootTimer (g : Game) : Game :=
  set_alienShootTimer None g.

(** The state the script starts in. *)
Definition initialGame : Game :=
  mkGame MENU ∅ 1 [] [] [] [] 0 None false 200 0.

(** ** Level creation: [startGameLoop], lines 454-489 *)

Definition cols : nat := 10.

(** The aliens of one row, left to right. *)
Definition alienRow (id0 : nat) (now : Q) (row : nat) : list Sprite :=
  map (fun col => new_Alien (id0 + col) now
                    (inject_Z (Z.of_nat col) * 60 + 50)
                    (inject_Z (Z.of_nat row) * 50 + 30))
      (seq 0 cols).

(** The two nested [for] loops: rows from the top, [cols] aliens each. *)
Definition alienGrid (id0 : nat) (now : Q) (rows : Z) : list Sprite :=
  flat_map (fun row => alienRow (id0 + row * cols) now row)
           (seq 0 (Z.to_nat rows)).

(** Period given to [setInterval], line 477. *)
Definition alienShootInterval (level : Z) : Z :=
  Z.max (600 - (level - 1) * 100) 300.

Definition startGameLoop (now : Q) (g : Game) : Game :=
  let rows := (3 + (currentLevel g - 1))%Z in
  let player := new_Player (nextId g) in
  let aliens := alienGrid (S (nextId g)) now rows in
  mkGame (gameState g) (pressedKeys g) (currentLevel g)
         (SpriteGroupSingle_add player [])
         []
         []
         aliens
         (SpriteGroup_length aliens)
         (Some (alienShootInterval (currentLevel g)))
         true
         now
         (S (nextId g) + length aliens).

(** The callback of the interval timer, lines 478-485.  [rnd] is the
    value returned by [Math.random()], in [[0, 1)]. *)
Definition alienShoot (rnd : Q) (g : Game) : Game :=
  if (0 <? SpriteGroup_length (alienGroup g))%Z then
    let i := Z.to_nat (Qfloor (rnd * inject_Z (SpriteGroup_length (alienGroup g)))) in
    match alienGroup g !! i with
    | Some shooter =>
        let enemyBullet :=
          new_EnemyBullet (nextId g)
            (x (rect shooter) + width (rect shooter) / 2)
            (y (rect shooter) + height (rect shooter)) in
        set_nextId (S (nextId g))
          (set_enemyBulletGroup
             (SpriteGroup_add enemyBullet (enemyBulletGroup g)) g)
    | None => g
    end
  else g.

(** ** State updates outside of play (lines 357-445) *)

Definition updateMenu (now : Q) (g : Game) : Game :=
  let g1 :=
    if held "Enter" (pressedKeys g)
    then startGameLoop now (set_gameState PLAYING (consume "Enter" g))
    else g in
  if held "KeyI" (pressedKeys g1)
  then set_gameState INSTRUCTIONS (consume "KeyI" g1)
  else g1.

Definition updateInstructions (g : Game) : Game :=
  if held "Enter" (pressedKeys g) || held "Escape" (pressedKeys g)
  then set_gameState MENU (consume "Escape" (consume "Enter" g))
  else g.

Definition updateLevelComplete (now : Q) (g : Game) : Game :=
  if held "Enter" (pressedKeys g) || held "Escape" (pressedKeys g)
  then
    let g1 := consume "Escape" (consume "Enter" g) in
    let g2 := set_currentLevel (currentLevel g1 + 1)%Z g1 in
    if (3 <? currentLevel g2)%Z
    then set_gameState VICTORY g2
    else startGameLoop now (set_gameState PLAYING g2)
  else g.

(** [updateVictory] and [updateGameOver] have the same body.  On the quit
    key the interval timer is cleared; [cancelAnimationFrame] is given the
    handle of the frame that is running, and [gameLoop] requests the next
    frame afterwards. *)
Definition updateVictory (g : Game) : Game :=
  if held "KeyR" (pressedKeys g)
  then set_gameState MENU (set_currentLevel 1%Z (consume "KeyR" g))
  else if held "KeyQ" (pressedKeys g)
  then clearAlienShootTimer g
  else g.

Definition updateGameOver (g : Game) : Game :=
  if held "KeyR" (pressedKeys g)
  then set_gameState MENU (set_currentLevel 1%Z (consume "KeyR" g))
  else if held "KeyQ" (pressedKeys g)
  then clearAlienShootTimer g
  else g.

(** ** The frame update while playing: [updatePlaying], lines 492-576

    [now] is the reading of [performance.now()] during the frame. *)

(** Player shooting, lines 494-504. *)
Definition playerShoot (now : Q) (g : Game) : Game :=
  if held "Space" (pressedKeys g) then
    if Qltb SHOOT_DELAY (now - lastShotTime g) then
      match SpriteGroupSingle_sprite (playerGroup g) with
      | Some playerSprite =>
          let bullet :=
            new_Bullet (nextId g)
              (x (rect playerSprite) + width (rect playerSprite) / 2)
              (y (rect playerSprite)) in
          set_lastShotTime now
            (set_nextId (S (nextId g))
               (set_bulletGroup (SpriteGroup_add bullet (bulletGroup g)) g))
      | None => g
      end
    else g
  else g.

(** The three argument-less group updates, lines 522-524. *)
Definition updateGroups (now : Q) (g : Game) : Game :=
  let upd := Sprite_update (pressedKeys g) now None in
  set_enemyBulletGroup (SpriteGroup_update upd (enemyBulletGroup g))
    (set_bulletGroup (SpriteGroup_update upd (bulletGroup g))
       (set_playerGroup (SpriteGroup_update upd (playerGroup g)) g)).

(** The scan of lines 527-536: it stops at the first alien on an edge. *)
Fixpoint changeDirection (movingRight : bool) (aliens : list Sprite) : bool :=
  match aliens with
  | [] => false
  | alien :: rest =>
      if movingRight && Qle_bool WIDTH (x (rect alien) + width (rect alien))
      then true
      else if negb movingRight && Qle_bool (x (rect alien)) 0
      then true
      else changeDirection movingRight rest
  end.

Definition descentAmount (level : Z) : Q := inject_Z (10 + level * 5).

(** Lines 538-544. *)
Definition reverseFormation (g : Game) : Game :=
  if changeDirection (movingRight g) (alienGroup g) then
    set_alienGroup
      (map (fun alien =>
              with_y (y (rect alien) + descentAmount (currentLevel g)) alien)
           (alienGroup g))
      (set_movingRight (negb (movingRight g)) g)
  else g.

(** Lines 547-550, over the rationals. *)
Definition speedMultiplier (initialAlienCount : Z) (aliens : SpriteGroup) : Q :=
  if (0 <? SpriteGroup_length aliens)%Z
  then 1 + inject_Z (initialAlienCount - SpriteGroup_length aliens)
           / inject_Z initialAlienCount
  else 1.

(** The same lines in binary64 arithmetic, the number format of the
    JavaScript machine, for integer counts [initialAlienCount] and
    [current = alienGroup.length]. *)
Definition binary64_of_Z (z : Z) : spec_float :=
  binary_normalize 53 1024 z 0 false.

Definition speedMultiplier64 (initialAlienCount current : Z) : spec_float :=
  if (0 <? current)%Z
  then SFadd 53 1024 (binary64_of_Z 1)
         (SFdiv 53 1024
            (SFsub 53 1024 (binary64_of_Z initialAlienCount)
                   (binary64_of_Z current))
            (binary64_of_Z initialAlienCount))
  else binary64_of_Z 1.

(** The rational a finite binary64 number stands for. *)
Definition binary64_to_Q (f : spec_float) : Q :=
  match f with
  | S754_finite s m e =>
      (if s then -1 else 1) * inject_Z (Zpos m)
      * (if (0 <=? e)%Z then inject_Z (2 ^ e) else 1 # Z.to_pos (2 ^ (- e)))
  | _ => 0
  end.

(** Line 551. *)
Definition moveAliens (now : Q) (g : Game) : Game :=
  let m := speedMultiplier (initialAlienCount g) (alienGroup g) in
  set_alienGroup
    (SpriteGroup_update
       (Sprite_update (pressedKeys g) now (Some (movingRight g, m)))
       (alienGroup g))
    g.

(** Line 554: player bullets against aliens, both killed. *)
Definition shootAliens (g : Game) : Game :=
  let st := groupCollide (bulletGroup g) (alienGroup g) true true in
  set_alienGroup (group2 st) (set_bulletGroup (group1 st) g).

(** Lines 522-554: everything that moves, up to the first collision pass. *)
Definition advance (now : Q) (g : Game) : Game :=
  shootAliens (moveAliens now (reverseFormation (updateGroups now g))).

(** Lines 556-575: the three checks that end the level. *)
Definition settle (g : Game) : Game :=
  match SpriteGroupSingle_sprite (playerGroup g) with
  | Some player =>
      let '(hit, enemyBullets) :=
        spriteCollide player (enemyBulletGroup g) true in
      let g1 := set_enemyBulletGroup enemyBullets g in
      if (0 <? Z.of_nat (length hit))%Z
      then set_gameState GAME_OVER (clearAlienShootTimer g1)
      else
        let '(touched, aliens) := spriteCollide player (alienGroup g1) false in
        let g2 := set_alienGroup aliens g1 in
        if (0 <? Z.of_nat (length touched))%Z
        then set_gameState GAME_OVER (clearAlienShootTimer g2)
        else if (SpriteGroup_length (alienGroup g2) =? 0)%Z
        then set_gameState LEVEL_COMPLETE (clearAlienShootTimer g2)
        else g2
  | None =>
      if (SpriteGroup_length (alienGroup g) =? 0)%Z
      then set_gameState LEVEL_COMPLETE (clearAlienShootTimer g)
      else g
  end.

Definition updatePlaying (now : Q) (g : Game) : Game :=
  let g1 := playerShoot now g in
  if held "KeyR" (pressedKeys g1)
  then clearAlienShootTimer
         (set_gameState MENU (set_currentLevel 1%Z (consume "KeyR" g1)))
  else if held "KeyQ" (pressedKeys g1)
  then clearAlienShootTimer g1
  else settle (advance now g1).

(** ** The frame driver: [gameLoop], lines 589-626 *)

Definition gameLoop (now : Q) (g : Game) : Game :=
  match gameState g with
  | MENU => updateMenu now g
  | INSTRUCTIONS => updateInstructions g
  | PLAYING => updatePlaying now g
  | LEVEL_COMPLETE => updateLevelComplete now g
  | GAME_OVER => updateGameOver g
  | VICTORY => updateVictory g
  end.

(** ** Events of the single-threaded run

    A key goes down or up, a frame is drawn, or the interval timer fires.
    [step] is [None] when the event cannot occur in the state: the timer
    fires only while it is registered, and [Math.random()] is in [[0,1)]. *)
Inductive Event :=
| KeyDown (code : string)
| KeyUp (code : string)
| Frame (now : Q)
| Tick (rnd : Q).

Definition step (e : Event) (g : Game) : option Game :=
  match e with
  | KeyDown code => Some (set_pressedKeys (keydown code (pressedKeys g)) g)
  | KeyUp code => Some (set_pressedKeys (keyup code (pressedKeys g)) g)
  | Frame now => Some (gameLoop now g)
  | Tick rnd =>
      match alienShootTimer g with
      | Some _ =>
          if Qle_bool 0 rnd && Qltb rnd 1 then Some (alienShoot rnd g)
          else None
      | None => None
      end
  end.

Fixpoint run (es : list Event) (g : Game) : option Game :=
  match es with
  | [] => Some g
  | e :: rest =>
      match step e g with
      | Some g' => run rest g'
      | None => None
      end
  end.

(** Events within one level session: frames are drawn in [PLAYING] only,
    so [startGameLoop] is not called again. *)
Definition sessionStep (e : Event) (g : Game) : option Game :=
  match e with
  | Frame _ =>
      match gameState g with
      | PLAYING => step e g
      | _ => None
      end
  | _ => step e g
  end.

Fixpoint sessionRun (es : list Event) (g : Game) : option Game :=
  match es with
  | [] => Some g
  | e :: rest =>
      match sessionStep e g with
      | Some g' => sessionRun rest g'
      | None => None
      end
  end.

(** All sprites of the current session. *)
Definition allSprites (g : Game) : list Sprite :=
  playerGroup g ++ bulletGroup g ++ enemyBulletGroup g ++ alienGroup g.

(** * Vocabulary of the properties *)

(** Case analysis on every test of the goal. *)
Ltac case_tests :=
  repeat match goal with
         | |- context [if ?b then _ else _] => destruct b
         end.

(** A player bullet fired from the starting position, 75 frames later:
    its top edge is at [y = -10], so its box still reaches the screen. *)
Definition spentBullet : Sprite :=
  Nat.iter 75 Bullet_update (new_Bullet 31 400 530).

(** Positions a player sprite can be in: the one its constructor gives
    it, and any reached from there by [update] under some keyboard. *)
Inductive player_reachable : Sprite -> Prop :=
| reach_new (id : nat) : player_reachable (new_Player id)
| reach_update (keys : Keys) (p : Sprite) :
    player_reachable p -> player_reachable (Player_update keys p).

(** The player is 50 wide, moves by 3, and its left edge is one of
    0, 3, ..., 750: the start 375 and both screen bounds are on the grid. *)
Definition player_on_grid (p : Sprite) : Prop :=
  exists k : Z,
    (0 <= k <= 250)%Z
    /\ x (rect p) == 3 * inject_Z k
    /\ width (rect p) == 50
    /\ speed p == 3.

(** The alive flag of the sprite at index [i] of an array. *)
Definition aliveAt (g : SpriteGroup) (i : nat) : bool :=
  match g !! i with
  | Some s => isAlive s
  | None => false
  end.

(** The state of a [groupCollide] call after its first [k] visits. *)
Definition collideAfter (dokill1 dokill2 : bool) (g1 g2 : SpriteGroup)
    (k : nat) : CollideState :=
  collideRun dokill1 dokill2 (mkCollide g1 g2 ∅)
             (take k (collideOrder (length g1) (length g2))).

(** The flag of sprite [i] goes from true to false at visit number [k]. *)
Definition dies1 (dokill1 dokill2 : bool) (g1 g2 : SpriteGroup)
    (k i : nat) : Prop :=
  aliveAt (group1 (collideAfter dokill1 dokill2 g1 g2 k)) i = true
  /\ aliveAt (group1 (collideAfter dokill1 dokill2 g1 g2 (S k))) i = false.

Definition dies2 (dokill1 dokill2 : bool) (g1 g2 : SpriteGroup)
    (k j : nat) : Prop :=
  aliveAt (group2 (collideAfter dokill1 dokill2 g1 g2 k)) j = true
  /\ aliveAt (group2 (collideAfter dokill1 dokill2 g1 g2 (S k))) j = false.

(** What a collision pass may do to a sprite: nothing, or [kill] it. *)
Definition same_or_killed (s s' : Sprite) : Prop := s' = s \/ s' = kill s.

(** The probe overlaps a living member of the group. *)
Definition hits (probe s : Sprite) : bool :=
  isAlive s && checkCollision (rect probe) (rect s).



(** Some alien of the group is on the edge the formation moves towards. *)
Definition atEdge (movingRight : bool) (aliens : SpriteGroup) : Prop :=
  (movingRight = true
   /\ exists a, In a aliens /\ WIDTH <= x (rect a) + width (rect a))
  \/ (movingRight = false
      /\ exists a, In a aliens /\ x (rect a) <= 0).

Definition freshLevel1 : Game :=
  startGameLoop 0 (set_gameState PLAYING initialGame).

(** How the array of a group changes while a session runs: a sprite is
    kept, under the same reference, of the same class and no more alive
    than it was, or it is removed. *)
Inductive evolves : SpriteGroup -> SpriteGroup -> Prop :=
| evolves_nil : evolves [] []
| evolves_keep s s' l l' :
    sid s' = sid s -> cls s' = cls s ->
    (isAlive s' = true -> isAlive s = true) ->
    evolves l l' -> evolves (s :: l) (s' :: l')
| evolves_drop s l l' : evolves l l' -> evolves (s :: l) l'.

#[local] Hint Constructors evolves : core.

(** The four groups evolve and no sprite is created. *)
Record game_evolves (g g' : Game) : Prop := mkGameEvolves {
  ge_player : evolves (playerGroup g) (playerGroup g');
  ge_bullet : evolves (bulletGroup g) (bulletGroup g');
  ge_enemyBullet : evolves (enemyBulletGroup g) (enemyBulletGroup g');
  ge_alien : evolves (alienGroup g) (alienGroup g');
  ge_nextId : nextId g' = nextId g
}.

(** References in use, and the well-formedness a run maintains: no
    reference occurs twice and all lie below [nextId]. *)
Definition sids (g : Game) : list nat := map sid (allSprites g).

Definition wf_ids (g : Game) : Prop :=
  NoDup (sids g) /\ Forall (fun i => (i < nextId g)%nat) (sids g).

(** Every sprite of [g'] is a sprite of [g], no more alive than it was
    there, or has been created since. *)
Definition descends (g g' : Game) : Prop :=
  (nextId g <= nextId g')%nat
  /\ forall s', In s' (allSprites g') ->
       (exists s, In s (allSprites g) /\ sid s = sid s'
                  /\ (isAlive s' = true -> isAlive s = true))
       \/ (nextId g <= sid s')%nat.

(** One sprite is created, alive, and appended to a bullet group. *)
Inductive spawned (g g' : Game) : Prop :=
| spawned_bullet b :
    sid b = nextId g -> cls b = Bullet -> isAlive b = true ->
    playerGroup g' = playerGroup g ->
    bulletGroup g' = bulletGroup g ++ [b] ->
    enemyBulletGroup g' = enemyBulletGroup g ->
    alienGroup g' = alienGroup g ->
    nextId g' = S (nextId g) -> spawned g g'
| spawned_enemyBullet b :
    sid b = nextId g -> cls b = EnemyBullet -> isAlive b = true ->
    playerGroup g' = playerGroup g ->
    bulletGroup g' = bulletGroup g ->
    enemyBulletGroup g' = enemyBulletGroup g ++ [b] ->
    alienGroup g' = alienGroup g ->
    nextId g' = S (nextId g) -> spawned g g'.

(** What one event of a session does: the groups evolve, after at most
    one sprite has been created. *)
Inductive moves (g g' : Game) : Prop :=
| moves_evolves : game_evolves g g' -> moves g g'
| moves_spawned gm : spawned g gm -> game_evolves gm g' -> moves g g'.

(** Every state of a run holds, in each group, sprites of the group's
    class, and its players are in reachable positions. *)
Definition wf_classes (g : Game) : Prop :=
  Forall player_reachable (playerGroup g)
  /\ Forall (fun s => cls s = Bullet) (bulletGroup g)
  /\ Forall (fun s => cls s = EnemyBullet) (enemyBulletGroup g)
  /\ Forall (fun s => cls s = Alien) (alienGroup g).

(** The first level: the player fires once, and 52 frames later the
    bullet and the alien of row 2, column 5 have killed each other. *)
Definition shotRun : list Event :=
  [KeyDown "Enter"; Frame 0; KeyUp "Enter";
   KeyDown "Space"; Frame 600; KeyUp "Space"]
  ++ repeat (Frame 600) 52.

Definition shotGame : Game :=
  Eval vm_compute in default initialGame (run shotRun initialGame).

(** ** Vocabulary of the further properties *)

(** Number of living sprites of a group. *)
Definition livingCount (g : SpriteGroup) : nat :=
  length (List.filter isAlive g).

(** [setRect] as written, lines 91-121, with its default arguments:
    [imageSize] is the size of [this.image] when the sprite has one,
    [w] and [h] are [None] for [null], and [posType] is the string passed;
    any string other than ['midbottom'] and ['midtop'] places the box by
    its top left corner. *)
Definition setRect_js (imageSize : option (Q * Q)) (posType : string)
    (px py : Q) (w h : option Q) (s : Sprite) : Sprite :=
  let dims :=
    match imageSize with
    | Some (iw, ih) => Some (default iw w, default ih h)
    | None =>
        match w, h with
        | Some w', Some h' => Some (w', h')
        | _, _ => None
        end
    end in
  match dims with
  | None => s
  | Some (w', h') =>
      if String.eqb posType "midbottom"
      then with_rect (mkRect (px - w' / 2) (py - h') w' h') s
      else if String.eqb posType "midtop"
      then with_rect (mkRect (px - w' / 2) py w' h') s
      else with_rect (mkRect px py w' h') s
  end.

(** The name of a position type. *)
Definition posType_name (posType : PosType) : string :=
  match posType with
  | midbottom => "midbottom"
  | midtop => "midtop"
  | topleft => "topleft"
  end.

(** An alien after a series of updates, each with its direction, its
    multiplier and its clock reading. *)
Definition Alien_updates (steps : list (bool * Q * Q)) (a : Sprite) : Sprite :=
  foldl (fun a step => Alien_update step.1.1 step.1.2 step.2 a) a steps.

(** What every state of a run satisfies about the level, the interval
    timer and the sizes of the groups. *)
Record level_invariant (g : Game) : Prop := mkLevelInvariant {
  li_level : (1 <= currentLevel g <= 4)%Z;
  li_victory : gameState g = VICTORY <-> currentLevel g = 4%Z;
  li_count :
    gameState g = PLAYING \/ gameState g = LEVEL_COMPLETE
    \/ gameState g = GAME_OVER ->
    initialAlienCount g = ((currentLevel g + 2) * 10)%Z;
  li_counts :
    initialAlienCount g = 0%Z \/ initialAlienCount g = 30%Z
    \/ initialAlienCount g = 40%Z \/ initialAlienCount g = 50%Z;
  li_timer :
    forall period, alienShootTimer g = Some period ->
      period = alienShootInterval (currentLevel g)
      /\ (currentLevel g <= 3)%Z;
  li_cleared :
    gameState g = LEVEL_COMPLETE \/ gameState g = GAME_OVER
    \/ gameState g = VICTORY ->
    alienShootTimer g = None;
  li_aliens : (SpriteGroup_length (alienGroup g) <= initialAlienCount g)%Z;
  li_player : (length (playerGroup g) <= 1)%nat;
  li_playing : gameState g = PLAYING -> length (playerGroup g) = 1%nat
}.

(** The double nearest to the ratio of two integers that are doubles
    themselves; a decimal such as 500.7 is read as [5007 / 10]. *)
Definition binary64_of_ratio (n d : Z) : spec_float :=
  SFdiv 53 1024 (binary64_of_Z n) (binary64_of_Z d).

(** The index the timer callback computes from the value of
    [Math.random()] and the length of the alien array, over the rationals
    (the machine rounds the product before it takes the integer part). *)
Definition shooterIndex (rnd : Q) (g : Game) : nat :=
  Z.to_nat (Qfloor (rnd * inject_Z (SpriteGroup_length (alienGroup g)))).

(** The clock readings of the frames of a series of events. *)
Definition frameTimes (es : list Event) : list Q :=
  flat_map (fun e => match e with Frame now => [now] | _ => [] end) es.

(** The player bullets that the shooting steps of the frames add during a
    stretch of a level session, and the enemy bullets that the firings of
    the timer add during it. *)
Fixpoint bulletsAdded (es : list Event) (g : Game) : nat :=
  match es with
  | [] => 0
  | e :: rest =>
      match sessionStep e g with
      | Some g' =>
          match e with
          | Frame now =>
              length (bulletGroup (playerShoot now g))
              - length (bulletGroup g)
          | _ => 0
          end
          + bulletsAdded rest g'
      | None => 0
      end
  end.

Fixpoint enemyBulletsAdded (es : list Event) (g : Game) : nat :=
  match es with
  | [] => 0
  | e :: rest =>
      match sessionStep e g with
      | Some g' =>
          match e with
          | Tick rnd =>
              length (enemyBulletGroup (alienShoot rnd g))
              - length (enemyBulletGroup g)
          | _ => 0
          end
          + enemyBulletsAdded rest g'
      | None => 0
      end
  end.

(** The arrows of the state machine that [gameLoop] runs. *)
Definition transition (s s' : GameState) : bool :=
  match s, s' with
  | MENU, (MENU | PLAYING | INSTRUCTIONS) => true
  | INSTRUCTIONS, (INSTRUCTIONS | MENU) => true
  | PLAYING, (PLAYING | MENU | GAME_OVER | LEVEL_COMPLETE) => true
  | LEVEL_COMPLETE, (LEVEL_COMPLETE | PLAYING | VICTORY) => true
  | GAME_OVER, (GAME_OVER | MENU) => true
  | VICTORY, (VICTORY | MENU) => true
  | _, _ => false
  end.

(** A state in which a frame follows the arrow from [s] to [s']: the
    first level as it is created, with the state tag, the keys held, the
    level or the aliens that the arrow needs. *)
Definition arrowState (s s' : GameState) : Game :=
  let press code g := set_pressedKeys (keydown code (pressedKeys g)) g in
  let g := set_gameState s freshLevel1 in
  match s, s' with
  | MENU, PLAYING => press "Enter" g
  | MENU, INSTRUCTIONS => press "KeyI" g
  | INSTRUCTIONS, MENU => press "Escape" g
  | PLAYING, MENU => press "KeyR" g
  | PLAYING, GAME_OVER => set_alienGroup [new_Alien 1 0 380 540] g
  | PLAYING, LEVEL_COMPLETE => set_alienGroup [] g
  | LEVEL_COMPLETE, PLAYING => press "Enter" g
  | LEVEL_COMPLETE, VICTORY => press "Enter" (set_currentLevel 3%Z g)
  | GAME_OVER, MENU => press "KeyR" g
  | VICTORY, MENU => press "KeyR" g
  | _, _ => g
  end.

(** The keys whose press a frame consumes. *)
Definition consumedKeys : list string := ["Enter"; "KeyI"; "Escape"; "KeyR"].

(** [keys'] is [keys] with some presses consumed. *)
Definition consumed (keys keys' : Keys) : Prop :=
  forall code,
    (held code keys' = true -> held code keys = true)
    /\ (~ In code consumedKeys -> held code keys' = held code keys).

(** Reading the fields of a state written with the setters. *)
Ltac game_fields :=
  cbn [gameState pressedKeys currentLevel playerGroup bulletGroup
       enemyBulletGroup alienGroup initialAlienCount alienShootTimer
       movingRight lastShotTime nextId set_gameState set_pressedKeys
       set_currentLevel set_playerGroup set_bulletGroup
       set_enemyBulletGroup set_alienGroup set_initialAlienCount
       set_alienShootTimer set_movingRight set_lastShotTime set_nextId
       consume clearAlienShootTimer] in *.

(** * Properties *)

(** ** Comparisons *)

Lemma Qltb_lt (a b : Q) : Qltb a b = true <-> a < b.
Proof.
  unfold Qltb. rewrite negb_true_iff, <- not_true_iff_false, Qle_bool_iff.
  split; [apply Qnot_le_lt | apply Qlt_not_le].
Qed.

Lemma Qltb_ge (a b : Q) : Qltb a b = false <-> b <= a.
Proof.
  unfold Qltb. rewrite negb_false_iff. apply Qle_bool_iff.
Qed.

(** ** What the sprite methods leave unchanged *)

Section SpriteFields.
Variables (keys : Keys) (now : Q) (args : option (bool * Q)).

Lemma sid_Player_update s : sid (Player_update keys s) = sid s.
Proof.
  unfold Player_update.
  case_tests; reflexivity.
Qed.

Lemma isAlive_Player_update s :
  isAlive (Player_update keys s) = isAlive s.
Proof.
  unfold Player_update.
  case_tests; reflexivity.
Qed.

Lemma sid_Alien_update mr m s : sid (Alien_update mr m now s) = sid s.
Proof.
  unfold Alien_update.
  case_tests; reflexivity.
Qed.

Lemma isAlive_Alien_update mr m s :
  isAlive (Alien_update mr m now s) = isAlive s.
Proof.
  unfold Alien_update.
  case_tests; reflexivity.
Qed.

Lemma y_Alien_update mr m s :
  y (rect (Alien_update mr m now s)) = y (rect s).
Proof.
  unfold Alien_update.
  case_tests; reflexivity.
Qed.

Lemma sid_Sprite_update s : sid (Sprite_update keys now args s) = sid s.
Proof.
  unfold Sprite_update, Bullet_update, EnemyBullet_update.
  destruct (cls s); [apply sid_Player_update | | | ].
  - case_tests; reflexivity.
  - destruct args as [[mr m]|]; [apply sid_Alien_update | reflexivity].
  - case_tests; reflexivity.
Qed.

Lemma cls_Sprite_update s : cls (Sprite_update keys now args s) = cls s.
Proof.
  unfold Sprite_update, Player_update, Bullet_update, Alien_update,
    EnemyBullet_update.
  destruct (cls s) eqn:Hc; [| |destruct args as [[mr m]|]|];
    case_tests; done.
Qed.

(** No [update] method turns a dead sprite into a living one. *)
Lemma Sprite_update_never_revives s :
  isAlive (Sprite_update keys now args s) = true -> isAlive s = true.
Proof.
  unfold Sprite_update, Bullet_update, EnemyBullet_update.
  destruct (cls s).
  - by rewrite isAlive_Player_update.
  - case_tests; simpl; [discriminate | done].
  - destruct args as [[mr m]|]; [by rewrite isAlive_Alien_update | done].
  - case_tests; simpl; [discriminate | done].
Qed.
End SpriteFields.

(** ** Group update *)

Lemma SpriteGroup_update_filter upd (g : SpriteGroup) :
  SpriteGroup_update upd g = map upd (List.filter isAlive g).
Proof.
  induction g as [|s g IH]; simpl; [reflexivity|].
  destruct (isAlive s); simpl; by rewrite IH.
Qed.

Lemma SpriteGroup_update_sids keys now args (g : SpriteGroup) :
  map sid (SpriteGroup_update (Sprite_update keys now args) g)
  = map sid (List.filter isAlive g).
Proof.
  rewrite SpriteGroup_update_filter, map_map.
  apply map_ext. intros s. apply sid_Sprite_update.
Qed.

(** C1, as stated, fails: the bullet is alive when the pass starts, its
    own update kills it during the pass, and it is still a member of the
    group when the pass is over. *)
Lemma SpriteGroup_update_keeps_killed_bullet :
  isAlive spentBullet = true /\
  exists b,
    SpriteGroup_update (Sprite_update ∅ 0 None) [spentBullet] = [b]
    /\ sid b = sid spentBullet
    /\ y (rect b) + height (rect b) < 0
    /\ isAlive b = false.
Proof.
  split; [reflexivity|].
  eexists. split; [vm_compute; reflexivity|].
  split; [reflexivity|]. split; reflexivity.
Qed.

(** C1 (amended): after one update pass a group holds exactly the sprites
    that were alive when the pass started, in their order and each
    updated once - those the pass itself killed included.  A sprite
    killed during a pass is dropped by the next pass over the group. *)
Theorem SpriteGroup_update_membership
    (keys keys' : Keys) (now now' : Q) (args args' : option (bool * Q))
    (g : SpriteGroup) :
  let pass1 := SpriteGroup_update (Sprite_update keys now args) g in
  let pass2 := SpriteGroup_update (Sprite_update keys' now' args') pass1 in
  pass1 = map (Sprite_update keys now args) (List.filter isAlive g)
  /\ map sid pass1 = map sid (List.filter isAlive g)
  /\ map sid pass2 = map sid (List.filter isAlive pass1).
Proof.
  intros pass1 pass2. split; [apply SpriteGroup_update_filter|].
  split; apply SpriteGroup_update_sids.
Qed.

(** ** The player stays on the screen *)

Lemma new_Player_on_grid id : player_on_grid (new_Player id).
Proof.
  exists 125%Z. split; [lia|]. repeat split; reflexivity.
Qed.

Lemma Player_update_on_grid keys p :
  player_on_grid p -> player_on_grid (Player_update keys p).
Proof.
  intros (k & Hk & Hx & Hw & Hs). unfold Player_update.
  destruct (held "ArrowLeft" keys && Qltb 0 (x (rect p))) eqn:Hl; cbv zeta.
  - apply andb_prop in Hl as [_ Hl]. apply Qltb_lt in Hl.
    assert (Hk1 : (1 <= k)%Z).
    { rewrite Hx in Hl. assert (0 < inject_Z k) as Hp by lra.
      change (inject_Z 0 < inject_Z k) in Hp.
      rewrite <- Zlt_Qlt in Hp. lia. }
    match goal with |- context [if ?b then _ else _] => destruct b end.
    + exists k. repeat split; simpl; [lia | lia | lra | done | done].
    + exists (k + -1)%Z. repeat split; simpl; [lia | lia | | done | done].
      rewrite inject_Z_plus. change (inject_Z (-1)) with (-1). lra.
  - destruct (held "ArrowRight" keys
              && Qltb (x (rect p) + width (rect p)) WIDTH) eqn:Hr.
    + apply andb_prop in Hr as [_ Hr]. apply Qltb_lt in Hr.
      unfold WIDTH in Hr. rewrite Hx, Hw in Hr.
      assert (inject_Z k < inject_Z 250) as Hp
        by (change (inject_Z 250) with 250; lra).
      rewrite <- Zlt_Qlt in Hp.
      exists (k + 1)%Z. repeat split; simpl; [lia | lia | | done | done].
      rewrite inject_Z_plus. change (inject_Z 1) with 1. lra.
    + exists k. repeat split; [lia | lia | done | done | done].
Qed.

Lemma player_reachable_on_grid p : player_reachable p -> player_on_grid p.
Proof.
  induction 1; [apply new_Player_on_grid | by apply Player_update_on_grid].
Qed.

(** C2: from every reachable player position and under every keyboard
    state, after [update] the player's box lies within [[0, WIDTH]]. *)
Theorem Player_update_within_screen (keys : Keys) (p : Sprite) :
  player_reachable p ->
  0 <= x (rect (Player_update keys p))
  /\ x (rect (Player_update keys p)) + width (rect (Player_update keys p))
     <= WIDTH.
Proof.
  intros Hp.
  destruct (Player_update_on_grid keys p (player_reachable_on_grid p Hp))
    as (k & Hk & Hx & Hw & _).
  assert (inject_Z 0 <= inject_Z k) as H0 by (rewrite <- Zle_Qle; lia).
  assert (inject_Z k <= inject_Z 250) as H1 by (rewrite <- Zle_Qle; lia).
  change (inject_Z 0) with 0 in H0.
  change (inject_Z 250) with 250 in H1.
  unfold WIDTH. rewrite Hx, Hw. split; lra.
Qed.

(** C2 at the right bound, with both arrow keys held. *)
Lemma Player_update_within_screen_witness :
  let keys : Keys := keydown "ArrowRight" (keydown "ArrowLeft" ∅) in
  let p := Nat.iter 125 (Player_update (keydown "ArrowRight" ∅)) (new_Player 0) in
  x (rect p) == 750
  /\ 0 <= x (rect (Player_update keys p))
  /\ x (rect (Player_update keys p)) + width (rect (Player_update keys p))
     <= WIDTH.
Proof.
  intros keys p. split; [vm_compute; reflexivity|].
  apply (Player_update_within_screen keys p).
  unfold p. generalize 125%nat. intros n.
  induction n as [|n IH]; [apply reach_new | apply reach_update, IH].
Defined.

(** ** Difficulty scaling *)

Lemma SpriteGroup_length_pos (g : SpriteGroup) :
  g <> [] -> (0 <? SpriteGroup_length g)%Z = true.
Proof.
  intros Hg. apply Z.ltb_lt. unfold SpriteGroup_length.
  destruct g; [done | simpl; lia].
Qed.

(** The multiplier of the machine against the rational it rounds, for
    every formation of at most 50 aliens: all pairs of counts are
    evaluated. *)
Lemma speedMultiplier64_error (initial current : Z) :
  (1 <= current <= initial)%Z -> (initial <= 50)%Z ->
  let m := binary64_to_Q (speedMultiplier64 initial current) in
  let exact := 1 + inject_Z (initial - current) / inject_Z initial in
  exact - (1 # 2 ^ 52) < m /\ m < exact + (1 # 2 ^ 52).
Proof.
  intros [Hc Hi] Hmax.
  pose (ok := fun n k : Z =>
          Qltb (1 + inject_Z (n - k) / inject_Z n - (1 # 2 ^ 52))
               (binary64_to_Q (speedMultiplier64 n k))
          && Qltb (binary64_to_Q (speedMultiplier64 n k))
                  (1 + inject_Z (n - k) / inject_Z n + (1 # 2 ^ 52))).
  assert (Hall : forallb
                   (fun n => forallb (ok (Z.of_nat n)) (map Z.of_nat (seq 1 n)))
                   (seq 1 50) = true) by (vm_compute; reflexivity).
  rewrite forallb_forall in Hall.
  specialize (Hall (Z.to_nat initial)).
  rewrite forallb_forall, Z2Nat.id in Hall by lia.
  assert (Hok : ok initial current = true).
  { apply Hall; [apply in_seq; lia|].
    apply in_map_iff. exists (Z.to_nat current).
    split; [lia | apply in_seq; lia]. }
  unfold ok in Hok. apply andb_prop in Hok as [Hlo Hhi].
  apply Qltb_lt in Hlo, Hhi. by split.
Qed.

Lemma speedMultiplier64_full (initial : Z) :
  (1 <= initial <= 50)%Z ->
  binary64_to_Q (speedMultiplier64 initial initial) == 1.
Proof.
  intros Hi.
  assert (Hall : forallb
                   (fun n => Qeq_bool
                               (binary64_to_Q
                                  (speedMultiplier64 (Z.of_nat n) (Z.of_nat n)))
                               1)
                   (seq 1 50) = true) by (vm_compute; reflexivity).
  rewrite forallb_forall in Hall.
  specialize (Hall (Z.to_nat initial)). rewrite Z2Nat.id in Hall by lia.
  apply Qeq_bool_iff, Hall, in_seq. lia.
Qed.

(** C6 (amended): while the alien array is not empty, the multiplier of a
    frame is the binary64 value of [1 + (initial - n) / initial], each
    operation rounded, where [n] is the length of the array, aliens killed
    and not yet swept included.  For the formations of the game (at most
    50 aliens) it is within [2^-52] of the rational, which is the
    multiplier of this model.  For an initial count of 30 it is 1,
    exactly, with 30 members, and with one member it is the double
    [8857079267161976 * 2^-52] (1.9666666666666668), which is above
    59/30. *)
Theorem speedMultiplier64_formula (initial : Z) (aliens : SpriteGroup) :
  aliens <> [] ->
  (SpriteGroup_length aliens <= initial <= 50)%Z ->
  let current := SpriteGroup_length aliens in
  let m := binary64_to_Q (speedMultiplier64 initial current) in
  let exact := 1 + inject_Z (initial - current) / inject_Z initial in
  speedMultiplier64 initial current
  = SFadd 53 1024 (binary64_of_Z 1)
      (SFdiv 53 1024
         (SFsub 53 1024 (binary64_of_Z initial) (binary64_of_Z current))
         (binary64_of_Z initial))
  /\ speedMultiplier initial aliens == exact
  /\ (exact - (1 # 2 ^ 52) < m /\ m < exact + (1 # 2 ^ 52))
  /\ (current = initial -> m == 1)
  /\ (initial = 30%Z -> current = 1%Z ->
      m == 8857079267161976 # 2 ^ 52 /\ 59 # 30 < m).
Proof.
  intros Hne [Hle Hmax] current m exact.
  pose proof (SpriteGroup_length_pos aliens Hne) as Hpos.
  fold current in Hpos, Hle.
  assert (Hc : (1 <= current)%Z) by (apply Z.ltb_lt in Hpos; lia).
  split; [unfold speedMultiplier64; by rewrite Hpos|].
  split; [unfold speedMultiplier; fold current; by rewrite Hpos|].
  split; [by apply speedMultiplier64_error|].
  split.
  - intros He. unfold m. rewrite He. apply speedMultiplier64_full. lia.
  - intros Hi H1. unfold m. rewrite Hi, H1. split; reflexivity.
Qed.

(** C6 (amended) for the last member of a level-1 formation of 30. *)
Lemma speedMultiplier64_formula_witness :
  let aliens := [new_Alien 30 0 590 130] in
  let m := binary64_to_Q (speedMultiplier64 30 (SpriteGroup_length aliens)) in
  m == 8857079267161976 # 2 ^ 52
  /\ (1 + inject_Z (30 - 1) / inject_Z 30 - (1 # 2 ^ 52) < m
      /\ m < 1 + inject_Z (30 - 1) / inject_Z 30 + (1 # 2 ^ 52)).
Proof.
  intros aliens m.
  destruct (speedMultiplier64_formula 30 aliens)
    as (_ & _ & Hb & _ & H1);
    [discriminate | unfold aliens, SpriteGroup_length; simpl; lia |].
  split; [apply H1; reflexivity | exact Hb].
Defined.

(** C6, as stated, fails on the machine: with 30 aliens at the start and
    one left the multiplier is not 59/30 but the double above it; and the
    count is the length of the array, not the number of living aliens:
    after [shotRun] the array holds 30 aliens, 29 of them alive, and the
    multiplier is still 1. *)
Lemma speedMultiplier64_not_59_30 :
  59 # 30 < binary64_to_Q (speedMultiplier64 30 1)
  /\ SpriteGroup_length (alienGroup shotGame) = 30%Z
  /\ livingCount (alienGroup shotGame) = 29%nat
  /\ binary64_to_Q
       (speedMultiplier64 (initialAlienCount shotGame)
          (SpriteGroup_length (alienGroup shotGame)))
     == 1.
Proof. repeat split. Qed.

(** C7: the period of the enemy-fire timer set when level [N >= 1] is
    created is [max (600 - (N - 1) * 100) 300]: 600 for level 1, 400 for
    level 3, and 300 from level 4 on. *)
Theorem startGameLoop_timer_period (now : Q) (g : Game) :
  (1 <= currentLevel g)%Z ->
  let N := currentLevel g in
  let period := alienShootTimer (startGameLoop now g) in
  period = Some (Z.max (600 - (N - 1) * 100) 300)
  /\ (N = 1%Z -> period = Some 600%Z)
  /\ (N = 3%Z -> period = Some 400%Z)
  /\ (4 <= N -> period = Some 300%Z)%Z.
Proof.
  intros HN N period. unfold period, startGameLoop, alienShootInterval.
  simpl. fold N. repeat split; intros; f_equal; lia.
Qed.

(** C7 at levels 1, 3 and 7. *)
Lemma startGameLoop_timer_period_witness :
  alienShootTimer (startGameLoop 0 (set_currentLevel 1%Z initialGame))
    = Some 600%Z
  /\ alienShootTimer (startGameLoop 0 (set_currentLevel 3%Z initialGame))
    = Some 400%Z
  /\ alienShootTimer (startGameLoop 0 (set_currentLevel 7%Z initialGame))
    = Some 300%Z.
Proof.
  split; [|split].
  - apply (startGameLoop_timer_period 0 (set_currentLevel 1%Z initialGame));
      simpl; [lia | reflexivity].
  - apply (startGameLoop_timer_period 0 (set_currentLevel 3%Z initialGame));
      simpl; [lia | reflexivity].
  - apply (startGameLoop_timer_period 0 (set_currentLevel 7%Z initialGame));
      simpl; lia.
Defined.

(** ** Key presses that are consumed *)

Lemma held_keyup_ne (a b : string) (keys : Keys) :
  a <> b -> held a (keyup b keys) = held a keys.
Proof.
  intros Hab. unfold held, keyup. by rewrite lookup_insert_ne.
Qed.

Lemma held_keyup (a : string) (keys : Keys) : held a (keyup a keys) = false.
Proof. unfold held, keyup. by rewrite lookup_insert_eq. Qed.

(** ** Collisions between two groups *)

Lemma same_or_killed_refl s : same_or_killed s s.
Proof. by left. Qed.

Lemma same_or_killed_trans s1 s2 s3 :
  same_or_killed s1 s2 -> same_or_killed s2 s3 -> same_or_killed s1 s3.
Proof.
  intros [->| ->] [->| ->]; [by left | by right | by right | by right].
Qed.

Lemma Forall2_same_or_killed_refl (g : SpriteGroup) :
  Forall2 same_or_killed g g.
Proof. induction g; constructor; [apply same_or_killed_refl | done]. Qed.

Lemma Forall2_same_or_killed_trans (g1 g2 g3 : SpriteGroup) :
  Forall2 same_or_killed g1 g2 -> Forall2 same_or_killed g2 g3 ->
  Forall2 same_or_killed g1 g3.
Proof.
  intros H12. revert g3.
  induction H12 as [|a b l k Hab _ IH]; intros g3 H23;
    inversion H23; subst; constructor;
    [by eapply same_or_killed_trans | by apply IH].
Qed.

Lemma Forall2_same_or_killed_insert (g : SpriteGroup) i s :
  g !! i = Some s -> Forall2 same_or_killed g (<[i := kill s]> g).
Proof.
  revert i. induction g as [|a g IH]; intros [|i] Hi; simplify_eq/=.
  - constructor; [by right | apply Forall2_same_or_killed_refl].
  - constructor; [apply same_or_killed_refl | by apply IH].
Qed.

Lemma aliveAt_same_or_killed (g g' : SpriteGroup) i :
  Forall2 same_or_killed g g' ->
  aliveAt g i = false -> aliveAt g' i = false.
Proof.
  intros H. revert i. unfold aliveAt.
  induction H as [|a b l k Hab _ IH]; intros [|i]; simpl; try done.
  - by destruct Hab as [->| ->].
  - apply IH.
Qed.

Section GroupCollide.
Variables dokill1 dokill2 : bool.

Lemma collidePair_same_or_killed st ij :
  Forall2 same_or_killed (group1 st) (group1 (collidePair dokill1 dokill2 st ij))
  /\ Forall2 same_or_killed (group2 st)
             (group2 (collidePair dokill1 dokill2 st ij)).
Proof.
  unfold collidePair.
  destruct (group1 st !! ij.1) as [s1|] eqn:H1;
    [|split; apply Forall2_same_or_killed_refl].
  destruct (group2 st !! ij.2) as [s2|] eqn:H2;
    [|split; apply Forall2_same_or_killed_refl].
  destruct (isAlive s1 && isAlive s2 && checkCollision (rect s1) (rect s2));
    [|split; apply Forall2_same_or_killed_refl].
  simpl. split.
  - destruct dokill1; [by apply Forall2_same_or_killed_insert
                      | apply Forall2_same_or_killed_refl].
  - destruct dokill2; [by apply Forall2_same_or_killed_insert
                      | apply Forall2_same_or_killed_refl].
Qed.

Lemma collideRun_same_or_killed visits st :
  Forall2 same_or_killed (group1 st)
          (group1 (collideRun dokill1 dokill2 st visits))
  /\ Forall2 same_or_killed (group2 st)
             (group2 (collideRun dokill1 dokill2 st visits)).
Proof.
  revert st. induction visits as [|ij visits IH]; intros st; simpl.
  - split; apply Forall2_same_or_killed_refl.
  - destruct (collidePair_same_or_killed st ij) as [Ha Hb].
    destruct (IH (collidePair dokill1 dokill2 st ij)) as [Hc Hd].
    split; by eapply Forall2_same_or_killed_trans.
Qed.

(** A pair with a dead member is skipped. *)
Lemma collidePair_dead st ij :
  aliveAt (group1 st) ij.1 = false \/ aliveAt (group2 st) ij.2 = false ->
  collidePair dokill1 dokill2 st ij = st.
Proof.
  unfold collidePair, aliveAt.
  destruct (group1 st !! ij.1) as [s1|]; [|done].
  destruct (group2 st !! ij.2) as [s2|]; [|done].
  intros [-> | ->]; [done | by rewrite andb_false_r].
Qed.

Variables g1 g2 : SpriteGroup.

Lemma collideAfter_S k ij :
  collideOrder (length g1) (length g2) !! k = Some ij ->
  collideAfter dokill1 dokill2 g1 g2 (S k)
  = collidePair dokill1 dokill2 (collideAfter dokill1 dokill2 g1 g2 k) ij.
Proof.
  intros Hk. unfold collideAfter, collideRun.
  by rewrite (take_S_r _ _ _ Hk), foldl_app.
Qed.

Lemma collideAfter_le k k' :
  (k <= k')%nat ->
  collideAfter dokill1 dokill2 g1 g2 k'
  = collideRun dokill1 dokill2 (collideAfter dokill1 dokill2 g1 g2 k)
      (take (k' - k) (drop k (collideOrder (length g1) (length g2)))).
Proof.
  intros Hle. unfold collideAfter, collideRun.
  rewrite <- foldl_app, take_take_drop. do 2 f_equal. lia.
Qed.

(** Within one call a dead sprite stays dead. *)
Lemma collideAfter_dead_stays k k' i :
  (k <= k')%nat ->
  (aliveAt (group1 (collideAfter dokill1 dokill2 g1 g2 k)) i = false ->
   aliveAt (group1 (collideAfter dokill1 dokill2 g1 g2 k')) i = false)
  /\ (aliveAt (group2 (collideAfter dokill1 dokill2 g1 g2 k)) i = false ->
      aliveAt (group2 (collideAfter dokill1 dokill2 g1 g2 k')) i = false).
Proof.
  intros Hle. rewrite (collideAfter_le k k' Hle).
  destruct (collideRun_same_or_killed
              (take (k' - k) (drop k (collideOrder (length g1) (length g2))))
              (collideAfter dokill1 dokill2 g1 g2 k)) as [Ha Hb].
  split; by apply aliveAt_same_or_killed.
Qed.

Lemma collideAfter_all :
  collideAfter dokill1 dokill2 g1 g2
    (length (collideOrder (length g1) (length g2)))
  = groupCollide g1 g2 dokill1 dokill2.
Proof.
  unfold collideAfter, groupCollide. by rewrite take_ge.
Qed.

End GroupCollide.

(** C4: during one [groupCollide] call over any two groups, a visit of a
    pair one of whose sprites is already dead - killed earlier in the call
    or before it - records no match and changes nothing; a dead sprite
    stays dead until the call returns; hence the alive flag of each sprite
    of either group goes from true to false at no more than one visit. *)
Theorem groupCollide_no_double_kill
    (g1 g2 : SpriteGroup) (dokill1 dokill2 : bool) :
  let order := collideOrder (length g1) (length g2) in
  let after := collideAfter dokill1 dokill2 g1 g2 in
  after (length order) = groupCollide g1 g2 dokill1 dokill2
  /\ (forall k i j,
        order !! k = Some (i, j) ->
        aliveAt (group1 (after k)) i = false
        \/ aliveAt (group2 (after k)) j = false ->
        after (S k) = after k)
  /\ (forall k k' i,
        (k <= k')%nat ->
        (aliveAt (group1 (after k)) i = false ->
         aliveAt (group1 (after k')) i = false)
        /\ (aliveAt (group2 (after k)) i = false ->
            aliveAt (group2 (after k')) i = false))
  /\ (forall k k' i,
        dies1 dokill1 dokill2 g1 g2 k i ->
        dies1 dokill1 dokill2 g1 g2 k' i -> k = k')
  /\ (forall k k' j,
        dies2 dokill1 dokill2 g1 g2 k j ->
        dies2 dokill1 dokill2 g1 g2 k' j -> k = k').
Proof.
  intros order after.
  split; [apply collideAfter_all|].
  split.
  { intros k i j Hk Hdead. unfold after.
    rewrite (collideAfter_S _ _ _ _ _ _ Hk).
    by apply collidePair_dead. }
  split; [intros k k' i Hle; by apply collideAfter_dead_stays|].
  split.
  - intros k k' i [Ha Hd] [Ha' Hd'].
    destruct (Nat.lt_trichotomy k k') as [Hlt|[->|Hlt]]; [|done|].
    + destruct (collideAfter_dead_stays dokill1 dokill2 g1 g2 (S k) k' i)
        as [H _]; [lia|]. rewrite (H Hd) in Ha'. discriminate.
    + destruct (collideAfter_dead_stays dokill1 dokill2 g1 g2 (S k') k i)
        as [H _]; [lia|]. rewrite (H Hd') in Ha. discriminate.
  - intros k k' j [Ha Hd] [Ha' Hd'].
    destruct (Nat.lt_trichotomy k k') as [Hlt|[->|Hlt]]; [|done|].
    + destruct (collideAfter_dead_stays dokill1 dokill2 g1 g2 (S k) k' j)
        as [_ H]; [lia|]. rewrite (H Hd) in Ha'. discriminate.
    + destruct (collideAfter_dead_stays dokill1 dokill2 g1 g2 (S k') k j)
        as [_ H]; [lia|]. rewrite (H Hd') in Ha. discriminate.
Qed.

(** Two bullets over one alien: the first bullet and the alien are
    matched and killed, the second bullet finds the alien dead. *)
Example groupCollide_two_bullets_one_alien :
  let b1 := new_Bullet 1 100 60 in
  let b2 := new_Bullet 2 102 60 in
  let a := new_Alien 3 0 90 40 in
  let st := groupCollide [b1; b2] [a] true true in
  group1 st = [kill b1; b2]
  /\ group2 st = [kill a]
  /\ collisions st = {[ 1%nat := [3%nat] ]}
  /\ dies2 true true [b1; b2] [a] 0 0.
Proof. repeat split. Qed.

(** C4 at the second bullet's visit of the alien the first bullet
    killed. *)
Lemma groupCollide_no_double_kill_witness :
  let b1 := new_Bullet 1 100 60 in
  let b2 := new_Bullet 2 102 60 in
  let a := new_Alien 3 0 90 40 in
  collideAfter true true [b1; b2] [a] 2 = collideAfter true true [b1; b2] [a] 1
  /\ collideAfter true true [b1; b2] [a] 2
     = groupCollide [b1; b2] [a] true true.
Proof.
  intros b1 b2 a.
  destruct (groupCollide_no_double_kill [b1; b2] [a] true true)
    as (Hall & Hskip & _).
  split; [|exact Hall].
  apply (Hskip 1%nat 1%nat 0%nat); [reflexivity | right; reflexivity].
Defined.

(** ** One probe against a group *)

Lemma spriteCollide_each_spec probe (g : SpriteGroup) dokill :
  spriteCollide_each probe g dokill
  = (map (fun s => if dokill then kill s else s) (List.filter (hits probe) g),
     map (fun s => if hits probe s then if dokill then kill s else s else s)
         g).
Proof.
  induction g as [|s g IH]; simpl; [reflexivity|].
  rewrite IH. change (isAlive s && checkCollision (rect probe) (rect s))
    with (hits probe s).
  by destruct (hits probe s).
Qed.

Lemma spriteCollide_each_nokill probe (g : SpriteGroup) :
  (spriteCollide_each probe g false).2 = g.
Proof.
  rewrite spriteCollide_each_spec. simpl.
  induction g as [|s g IH]; simpl; [reflexivity|].
  rewrite IH. by destruct (hits probe s).
Qed.

Lemma spriteCollide_nokill probe (g : SpriteGroup) :
  (spriteCollide probe g false).2 = g.
Proof.
  unfold spriteCollide.
  destruct (isAlive probe); simpl; [apply spriteCollide_each_nokill | done].
Qed.


Lemma spriteCollide_miss probe (g : SpriteGroup) dokill :
  (forall b, In b g -> hits probe b = false) ->
  spriteCollide probe g dokill = ([], g).
Proof.
  intros Hmiss. unfold spriteCollide.
  destruct (isAlive probe); simpl; [|done].
  rewrite spriteCollide_each_spec. f_equal.
  - induction g as [|s g IH]; simpl; [reflexivity|].
    rewrite (Hmiss s) by (by left).
    apply IH. intros b Hb. apply Hmiss. by right.
  - rewrite <- (map_id g) at 2. apply map_ext_in.
    intros s Hs. by rewrite (Hmiss s Hs).
Qed.

(** ** The phases of a frame *)

Lemma playerShoot_frame now g :
  gameState (playerShoot now g) = gameState g
  /\ pressedKeys (playerShoot now g) = pressedKeys g
  /\ currentLevel (playerShoot now g) = currentLevel g
  /\ playerGroup (playerShoot now g) = playerGroup g
  /\ enemyBulletGroup (playerShoot now g) = enemyBulletGroup g
  /\ alienGroup (playerShoot now g) = alienGroup g
  /\ initialAlienCount (playerShoot now g) = initialAlienCount g
  /\ alienShootTimer (playerShoot now g) = alienShootTimer g
  /\ movingRight (playerShoot now g) = movingRight g.
Proof.
  unfold playerShoot.
  destruct (held "Space" (pressedKeys g)); [|done].
  destruct (Qltb SHOOT_DELAY (now - lastShotTime g)); [|done].
  by destruct (SpriteGroupSingle_sprite (playerGroup g)).
Qed.

Lemma updatePlaying_plays now g :
  held "KeyR" (pressedKeys g) = false ->
  held "KeyQ" (pressedKeys g) = false ->
  updatePlaying now g = settle (advance now (playerShoot now g)).
Proof.
  intros HR HQ. unfold updatePlaying.
  destruct (playerShoot_frame now g) as (_ & -> & _). by rewrite HR, HQ.
Qed.

Lemma updatePlaying_restart now g :
  held "KeyR" (pressedKeys g) = true ->
  updatePlaying now g
  = clearAlienShootTimer
      (set_gameState MENU
         (set_currentLevel 1%Z (consume "KeyR" (playerShoot now g)))).
Proof.
  intros HR. unfold updatePlaying.
  destruct (playerShoot_frame now g) as (_ & -> & _). by rewrite HR.
Qed.

Lemma updatePlaying_quit now g :
  held "KeyR" (pressedKeys g) = false ->
  held "KeyQ" (pressedKeys g) = true ->
  updatePlaying now g = clearAlienShootTimer (playerShoot now g).
Proof.
  intros HR HQ. unfold updatePlaying.
  destruct (playerShoot_frame now g) as (_ & -> & _). by rewrite HR, HQ.
Qed.


Lemma settle_alienGroup g : alienGroup (settle g) = alienGroup g.
Proof.
  unfold settle.
  destruct (SpriteGroupSingle_sprite (playerGroup g)) as [p|].
  - destruct (spriteCollide p (enemyBulletGroup g) true) as [hit ebs].
    destruct (0 <? Z.of_nat (length hit))%Z; [done|].
    pose proof (spriteCollide_nokill p
                  (alienGroup (set_enemyBulletGroup ebs g))) as Hn.
    destruct (spriteCollide p (alienGroup (set_enemyBulletGroup ebs g)) false)
      as [touched aliens].
    simpl in Hn. subst aliens.
    destruct (0 <? Z.of_nat (length touched))%Z; [done|].
    by destruct (SpriteGroup_length _ =? 0)%Z.
  - by destruct (SpriteGroup_length (alienGroup g) =? 0)%Z.
Qed.

Lemma settle_movingRight g : movingRight (settle g) = movingRight g.
Proof.
  unfold settle.
  destruct (SpriteGroupSingle_sprite (playerGroup g)) as [p|].
  - destruct (spriteCollide p (enemyBulletGroup g) true) as [hit ebs].
    destruct (0 <? Z.of_nat (length hit))%Z; [done|].
    destruct (spriteCollide p (alienGroup (set_enemyBulletGroup ebs g)) false)
      as [touched aliens].
    destruct (0 <? Z.of_nat (length touched))%Z; [done|].
    by destruct (SpriteGroup_length _ =? 0)%Z.
  - by destruct (SpriteGroup_length (alienGroup g) =? 0)%Z.
Qed.



(** ** The player is hit by an enemy bullet *)






(** ** Formation reversal *)

Lemma changeDirection_atEdge movingRight (aliens : SpriteGroup) :
  changeDirection movingRight aliens = true <-> atEdge movingRight aliens.
Proof.
  unfold atEdge. induction aliens as [|a aliens IH]; simpl.
  - split; [done | intros [(_ & ? & [] & _)|(_ & ? & [] & _)]].
  - destruct movingRight; simpl.
    + destruct (Qle_bool WIDTH (x (rect a) + width (rect a))) eqn:Ha.
      * split; [|done]. intros _. left. split; [done|].
        exists a. split; [by left | by apply Qle_bool_iff].
      * rewrite IH. split.
        -- intros [(_ & b & Hb & Hle)|(? & _)]; [|done].
           left. split; [done|]. exists b. split; [by right | done].
        -- intros [(_ & b & [<-|Hb] & Hle)|(? & _)]; [| |done].
           ++ apply Qle_bool_iff in Hle. congruence.
           ++ left. split; [done|]. by exists b.
    + destruct (Qle_bool (x (rect a)) 0) eqn:Ha.
      * split; [|done]. intros _. right. split; [done|].
        exists a. split; [by left | by apply Qle_bool_iff].
      * rewrite IH. split.
        -- intros [(? & _)|(_ & b & Hb & Hle)]; [done|].
           right. split; [done|]. exists b. split; [by right | done].
        -- intros [(? & _)|(_ & b & [<-|Hb] & Hle)]; [done| |].
           ++ apply Qle_bool_iff in Hle. congruence.
           ++ right. split; [done|]. by exists b.
Qed.

(** A collision pass changes neither the references nor the boxes. *)
Lemma same_or_killed_map {A} (f : Sprite -> A) (g g' : SpriteGroup) :
  (forall s, f (kill s) = f s) ->
  Forall2 same_or_killed g g' -> map f g' = map f g.
Proof.
  intros Hf H. induction H as [|a b l k Hab _ IH]; simpl; [done|].
  rewrite IH. by destruct Hab as [->| ->]; rewrite ?Hf.
Qed.

Lemma groupCollide_same_or_killed (g1 g2 : SpriteGroup) dokill1 dokill2 :
  Forall2 same_or_killed g1 (group1 (groupCollide g1 g2 dokill1 dokill2))
  /\ Forall2 same_or_killed g2 (group2 (groupCollide g1 g2 dokill1 dokill2)).
Proof.
  unfold groupCollide.
  apply (collideRun_same_or_killed dokill1 dokill2 _ (mkCollide g1 g2 ∅)).
Qed.

Lemma filter_isAlive_map (f : Sprite -> Sprite) (g : SpriteGroup) :
  (forall s, isAlive (f s) = isAlive s) ->
  List.filter isAlive (map f g) = map f (List.filter isAlive g).
Proof.
  intros Hf. induction g as [|s g IH]; simpl; [done|].
  rewrite Hf. destruct (isAlive s); simpl; by rewrite IH.
Qed.

(** The alien group after the moving phase of a frame. *)
Lemma advance_alienGroup now g :
  let h := reverseFormation (updateGroups now g) in
  Forall2 same_or_killed
    (SpriteGroup_update
       (Sprite_update (pressedKeys g) now
          (Some (movingRight h,
                 speedMultiplier (initialAlienCount g) (alienGroup h))))
       (alienGroup h))
    (alienGroup (advance now g)).
Proof.
  intros h.
  assert (Hr : pressedKeys h = pressedKeys g
               /\ initialAlienCount h = initialAlienCount g).
  { unfold h, reverseFormation.
    by destruct (changeDirection _ _). }
  destruct Hr as [Hk Hi].
  unfold advance, shootAliens. fold h. unfold moveAliens.
  cbn [alienGroup bulletGroup set_alienGroup set_bulletGroup].
  rewrite Hk, Hi.
  apply groupCollide_same_or_killed.
Qed.

Lemma reverseFormation_atEdge g :
  atEdge (movingRight g) (alienGroup g) ->
  movingRight (reverseFormation g) = negb (movingRight g)
  /\ alienGroup (reverseFormation g)
     = map (fun alien =>
              with_y (y (rect alien) + descentAmount (currentLevel g)) alien)
           (alienGroup g).
Proof.
  intros He. apply changeDirection_atEdge in He.
  unfold reverseFormation. by rewrite He.
Qed.

(** C5, as stated, fails in a frame that finds the restart or the quit
    key held: an alien at [x = 790] is past the right edge and the
    formation moves rightward, yet the frame leaves direction and heights
    as they were. *)
Lemma formation_not_reversed_on_quit_or_restart :
  let edge key :=
    set_pressedKeys (keydown key ∅)
      (set_alienGroup [new_Alien 1 0 790 30]
         (startGameLoop 0 (set_gameState PLAYING initialGame))) in
  (gameState (edge "KeyQ") = PLAYING
   /\ atEdge (movingRight (edge "KeyQ")) (alienGroup (edge "KeyQ"))
   /\ movingRight (gameLoop 16 (edge "KeyQ")) = movingRight (edge "KeyQ")
   /\ alienGroup (gameLoop 16 (edge "KeyQ")) = alienGroup (edge "KeyQ"))
  /\ (gameState (edge "KeyR") = PLAYING
      /\ atEdge (movingRight (edge "KeyR")) (alienGroup (edge "KeyR"))
      /\ movingRight (gameLoop 16 (edge "KeyR")) = movingRight (edge "KeyR")
      /\ alienGroup (gameLoop 16 (edge "KeyR")) = alienGroup (edge "KeyR")).
Proof.
  intros edge.
  split; (split; [reflexivity|]); (split; [|split; reflexivity]);
    left; (split; [reflexivity|]);
    exists (new_Alien 1 0 790 30); (split; [by left | done]).
Qed.

(** C5 (amended): in a [PLAYING] frame in which neither the restart key
    nor the quit key is held, if the formation moves rightward and some
    alien's right edge is at or beyond [WIDTH], or it moves leftward and
    some alien's left edge is at or below 0, then after the frame the
    direction is reversed and the aliens of the group are those that were
    alive, each [10 + level * 5] lower than before. *)
Theorem formation_reversal (now : Q) (g : Game) :
  gameState g = PLAYING ->
  held "KeyR" (pressedKeys g) = false ->
  held "KeyQ" (pressedKeys g) = false ->
  Forall (fun a => cls a = Alien) (alienGroup g) ->
  atEdge (movingRight g) (alienGroup g) ->
  let g' := gameLoop now g in
  descentAmount (currentLevel g) == 10 + inject_Z (currentLevel g) * 5
  /\ movingRight g' = negb (movingRight g)
  /\ map (fun a => (sid a, y (rect a))) (alienGroup g')
     = map (fun a => (sid a, y (rect a) + descentAmount (currentLevel g)))
           (List.filter isAlive (alienGroup g)).
Proof.
  intros Hst HR HQ Hcls Hedge g'.
  split.
  { unfold descentAmount. rewrite inject_Z_plus, inject_Z_mult. reflexivity. }
  assert (Hg' : g' = settle (advance now (playerShoot now g))).
  { unfold g', gameLoop. rewrite Hst. by apply updatePlaying_plays. }
  destruct (playerShoot_frame now g)
    as (_ & Hk & Hl & _ & _ & Ha & Hi & _ & Hm).
  set (g1 := playerShoot now g) in *.
  assert (Hedge1 : atEdge (movingRight (updateGroups now g1))
                          (alienGroup (updateGroups now g1))).
  { simpl. by rewrite Ha, Hm. }
  destruct (reverseFormation_atEdge _ Hedge1) as [Hmr Hal].
  split.
  - rewrite Hg', settle_movingRight. unfold advance, shootAliens, moveAliens.
    simpl. rewrite Hmr. simpl. by rewrite Hm.
  - rewrite Hg', settle_alienGroup.
    rewrite (same_or_killed_map (fun a => (sid a, y (rect a))) _ _
               (fun s => eq_refl) (advance_alienGroup now g1)).
    rewrite SpriteGroup_update_filter, Hal. simpl. rewrite Ha, Hl.
    rewrite filter_isAlive_map by done.
    rewrite !map_map. apply map_ext_in.
    intros a Hin. apply filter_In in Hin as [Hin _].
    rewrite List.Forall_forall in Hcls. specialize (Hcls a Hin).
    unfold Sprite_update. simpl. rewrite Hcls.
    by rewrite sid_Alien_update, y_Alien_update.
Qed.

(** C5 (amended) on the example of the specification: an alien at
    [x = 790], 30 wide, formation moving rightward, level 1. *)
Lemma formation_reversal_witness :
  let edge :=
    set_alienGroup [new_Alien 1 0 790 30]
      (startGameLoop 0 (set_gameState PLAYING initialGame)) in
  movingRight edge = true
  /\ movingRight (gameLoop 16 edge) = false
  /\ map (fun a => y (rect a)) (alienGroup (gameLoop 16 edge)) = [30 + 15].
Proof.
  intros edge.
  destruct (formation_reversal 16 edge) as (_ & Hm & Hy);
    [reflexivity | reflexivity | reflexivity
    | repeat constructor
    | left; split; [reflexivity|];
      exists (new_Alien 1 0 790 30); split; [by left | done] |].
  split; [reflexivity|]. split; [exact Hm|].
  apply (f_equal (map snd)) in Hy. rewrite !map_map in Hy. exact Hy.
Defined.

(** ** Size of a level and its completion *)

Lemma length_alienGrid id now rows :
  length (alienGrid id now rows) = (Z.to_nat rows * cols)%nat.
Proof.
  unfold alienGrid.
  assert (H : forall l : list nat,
             length (flat_map (fun row => alienRow (id + row * cols) now row) l)
             = (length l * cols)%nat).
  { induction l as [|row l IH]; [done|].
    cbn [flat_map]. rewrite length_app, IH. unfold alienRow.
    by rewrite length_map, length_seq. }
  by rewrite H, length_seq.
Qed.





(** ** The alive flag never comes back *)

Lemma evolves_refl g : evolves g g.
Proof. induction g; auto. Qed.

Lemma evolves_trans g1 g2 g3 :
  evolves g1 g2 -> evolves g2 g3 -> evolves g1 g3.
Proof.
  intros H12. revert g3.
  induction H12 as [|s s' l l' Hid Hcl Hal _ IH|s l l' _ IH]; intros g3 H23.
  - done.
  - inversion H23; subst; [|by auto].
    apply evolves_keep; [congruence | congruence | by auto | by auto].
  - auto.
Qed.

Lemma evolves_update keys now args (g : SpriteGroup) :
  evolves g (SpriteGroup_update (Sprite_update keys now args) g).
Proof.
  induction g as [|s g IH]; simpl; [done|].
  destruct (isAlive s) eqn:Hs; [|by auto].
  apply evolves_keep;
    [apply sid_Sprite_update | apply cls_Sprite_update | done | done].
Qed.

Lemma evolves_same_or_killed (g g' : SpriteGroup) :
  Forall2 same_or_killed g g' -> evolves g g'.
Proof.
  induction 1 as [|s s' l l' [->| ->] _ IH]; auto.
  apply evolves_keep; [done | done | discriminate | done].
Qed.

Lemma evolves_map (f : Sprite -> Sprite) (g : SpriteGroup) :
  (forall s, sid (f s) = sid s) -> (forall s, cls (f s) = cls s) ->
  (forall s, isAlive (f s) = isAlive s) ->
  evolves g (map f g).
Proof.
  intros Hid Hcl Hal. induction g as [|s g IH]; simpl; [done|].
  apply evolves_keep; [done | done | by rewrite Hal | done].
Qed.

Lemma evolves_sids (g g' : SpriteGroup) :
  evolves g g' -> map sid g' `sublist_of` map sid g.
Proof.
  induction 1 as [|s s' l l' Hid _ _ _ IH|s l l' _ IH]; simpl.
  - constructor.
  - rewrite Hid. by constructor.
  - by constructor.
Qed.

Lemma evolves_In (g g' : SpriteGroup) s' :
  evolves g g' -> In s' g' ->
  exists s, In s g /\ sid s = sid s'
            /\ (isAlive s' = true -> isAlive s = true).
Proof.
  induction 1 as [|s t l l' Hid _ Hal _ IH|s l l' _ IH]; simpl.
  - done.
  - intros [<-|Hin].
    + exists s. split; [by left | done].
    + destruct (IH Hin) as (s0 & ? & ? & ?). exists s0.
      split; [by right | done].
  - intros Hin. destruct (IH Hin) as (s0 & ? & ? & ?). exists s0.
    split; [by right | done].
Qed.

Lemma game_evolves_refl g : game_evolves g g.
Proof. split; auto using evolves_refl. Qed.

Lemma game_evolves_trans g1 g2 g3 :
  game_evolves g1 g2 -> game_evolves g2 g3 -> game_evolves g1 g3.
Proof.
  intros [] []. split; try by eapply evolves_trans. congruence.
Qed.

(** A state that differs in neither group nor counter. *)
Lemma game_evolves_same g g' :
  playerGroup g' = playerGroup g -> bulletGroup g' = bulletGroup g ->
  enemyBulletGroup g' = enemyBulletGroup g -> alienGroup g' = alienGroup g ->
  nextId g' = nextId g -> game_evolves g g'.
Proof.
  intros H1 H2 H3 H4 H5. split; rewrite ?H1, ?H2, ?H3, ?H4;
    auto using evolves_refl.
Qed.

Lemma updateGroups_evolves now g : game_evolves g (updateGroups now g).
Proof.
  split; simpl; auto using evolves_update, evolves_refl.
Qed.

Lemma reverseFormation_evolves g : game_evolves g (reverseFormation g).
Proof.
  unfold reverseFormation.
  destruct (changeDirection (movingRight g) (alienGroup g));
    [|apply game_evolves_refl].
  split; simpl; auto using evolves_refl. by apply evolves_map.
Qed.

Lemma moveAliens_evolves now g : game_evolves g (moveAliens now g).
Proof.
  split; simpl; auto using evolves_update, evolves_refl.
Qed.

Lemma shootAliens_evolves g : game_evolves g (shootAliens g).
Proof.
  destruct (groupCollide_same_or_killed (bulletGroup g) (alienGroup g)
              true true) as [H1 H2].
  split; simpl; auto using evolves_refl, evolves_same_or_killed.
Qed.

Lemma advance_evolves now g : game_evolves g (advance now g).
Proof.
  unfold advance.
  eapply game_evolves_trans; [apply updateGroups_evolves|].
  eapply game_evolves_trans; [apply reverseFormation_evolves|].
  eapply game_evolves_trans; [apply moveAliens_evolves|].
  apply shootAliens_evolves.
Qed.

Lemma spriteCollide_same_or_killed probe (g : SpriteGroup) dokill :
  Forall2 same_or_killed g (spriteCollide probe g dokill).2.
Proof.
  unfold spriteCollide.
  destruct (isAlive probe); simpl; [|apply Forall2_same_or_killed_refl].
  rewrite spriteCollide_each_spec. simpl.
  induction g as [|s g IH]; simpl; constructor; [|done].
  destruct (hits probe s); [|by left].
  destruct dokill; [by right | by left].
Qed.

Lemma settle_evolves g : game_evolves g (settle g).
Proof.
  unfold settle.
  destruct (SpriteGroupSingle_sprite (playerGroup g)) as [p|].
  - pose proof (spriteCollide_same_or_killed p (enemyBulletGroup g) true)
      as He.
    destruct (spriteCollide p (enemyBulletGroup g) true) as [hit ebs].
    simpl in He. apply evolves_same_or_killed in He.
    destruct (0 <? Z.of_nat (length hit))%Z;
      [split; simpl; auto using evolves_refl|].
    pose proof (spriteCollide_nokill p
                  (alienGroup (set_enemyBulletGroup ebs g))) as Hn.
    destruct (spriteCollide p (alienGroup (set_enemyBulletGroup ebs g)) false)
      as [touched aliens].
    simpl in Hn. subst aliens.
    destruct (0 <? Z.of_nat (length touched))%Z;
      [split; simpl; auto using evolves_refl|].
    destruct (SpriteGroup_length _ =? 0)%Z;
      split; simpl; auto using evolves_refl.
  - destruct (SpriteGroup_length (alienGroup g) =? 0)%Z;
      [split; simpl; auto using evolves_refl | apply game_evolves_refl].
Qed.

(** A frame in [PLAYING], once the player's shot has been fired. *)
Lemma updatePlaying_evolves now g :
  game_evolves (playerShoot now g) (updatePlaying now g).
Proof.
  unfold updatePlaying.
  destruct (held "KeyR" (pressedKeys (playerShoot now g)));
    [by apply game_evolves_same|].
  destruct (held "KeyQ" (pressedKeys (playerShoot now g)));
    [by apply game_evolves_same|].
  eapply game_evolves_trans; [apply advance_evolves | apply settle_evolves].
Qed.

Lemma descends_refl g : descends g g.
Proof.
  split; [done|]. intros s' Hs'. left. by exists s'.
Qed.

Lemma descends_trans g1 g2 g3 :
  descends g1 g2 -> descends g2 g3 -> descends g1 g3.
Proof.
  intros [Hn12 H12] [Hn23 H23]. split; [lia|].
  intros s3 Hs3. destruct (H23 s3 Hs3) as [(s2 & Hs2 & Hid & Hal)|Hnew].
  - destruct (H12 s2 Hs2) as [(s1 & Hs1 & Hid1 & Hal1)|Hnew].
    + left. exists s1. split; [done|]. split; [congruence | auto].
    + right. lia.
  - right. lia.
Qed.

Lemma sids_unique (l : list Sprite) s s0 :
  NoDup (map sid l) -> In s l -> In s0 l -> sid s = sid s0 -> s = s0.
Proof.
  induction l as [|a l IH]; simpl; [done|].
  rewrite NoDup_cons. intros [Hnotin Hnd] [->|Hs] [->|Hs0] Heq; auto.
  - exfalso. apply Hnotin. rewrite Heq. apply list_elem_of_In.
    by apply in_map.
  - exfalso. apply Hnotin. rewrite <- Heq. apply list_elem_of_In.
    by apply in_map.
Qed.

(** With unique references, a state that descends from [g] holds no
    living sprite that was dead in [g]. *)
Lemma descends_dead_stays g g' s s' :
  wf_ids g -> descends g g' ->
  In s (allSprites g) -> isAlive s = false ->
  In s' (allSprites g') -> sid s' = sid s -> isAlive s' = false.
Proof.
  intros [Hnd Hlt] [_ Hd] Hs Hdead Hs' Hid.
  destruct (Hd s' Hs') as [(s0 & Hs0 & Hid0 & Hal)|Hnew].
  - assert (s0 = s) as ->
      by (apply (sids_unique (allSprites g)); [exact Hnd | done | done | congruence]).
    destruct (isAlive s'); [|done]. rewrite Hal in Hdead; done.
  - rewrite List.Forall_forall in Hlt.
    specialize (Hlt (sid s) (in_map sid _ _ Hs)). lia.
Qed.

Lemma game_evolves_descends g g' : game_evolves g g' -> descends g g'.
Proof.
  intros [Hp Hb He Ha Hn]. split; [lia|].
  intros s' Hs'. left. unfold allSprites in *.
  rewrite !in_app_iff in Hs'.
  destruct Hs' as [H|[H|[H|H]]];
    [destruct (evolves_In _ _ _ Hp H) as (s & ? & ?)
    |destruct (evolves_In _ _ _ Hb H) as (s & ? & ?)
    |destruct (evolves_In _ _ _ He H) as (s & ? & ?)
    |destruct (evolves_In _ _ _ Ha H) as (s & ? & ?)];
    exists s; rewrite !in_app_iff; auto.
Qed.

Lemma game_evolves_wf g g' : game_evolves g g' -> wf_ids g -> wf_ids g'.
Proof.
  intros [Hp Hb He Ha Hn] [Hnd Hlt].
  assert (Hsub : sids g' `sublist_of` sids g).
  { unfold sids, allSprites. rewrite !map_app.
    repeat apply sublist_app; by apply evolves_sids. }
  split; [by eapply sublist_NoDup|].
  rewrite Hn. rewrite Forall_forall in *. intros i Hi.
  apply Hlt. by eapply elem_of_sublist.
Qed.

Lemma spawned_sids g g' : spawned g g' -> sids g' ≡ₚ nextId g :: sids g.
Proof.
  intros [b Hid _ _ Hp Hb He Ha _|b Hid _ _ Hp Hb He Ha _];
    unfold sids, allSprites; rewrite Hp, Hb, He, Ha, !map_app; simpl;
    rewrite Hid.
  - rewrite <- !app_assoc. simpl.
    rewrite (app_assoc (map sid (playerGroup g))).
    by rewrite <- Permutation_middle, <- app_assoc.
  - rewrite <- !app_assoc. simpl.
    rewrite 2!app_assoc.
    by rewrite <- Permutation_middle, <- !app_assoc.
Qed.

Lemma spawned_nextId g g' : spawned g g' -> nextId g' = S (nextId g).
Proof. by intros [?|?]. Qed.

Lemma spawned_wf g g' : spawned g g' -> wf_ids g -> wf_ids g'.
Proof.
  intros Hsp [Hnd Hlt]. unfold wf_ids.
  rewrite (spawned_sids g g' Hsp), (spawned_nextId g g' Hsp).
  rewrite Forall_forall in Hlt. split.
  - apply NoDup_cons. split; [|done].
    intros Hin. specialize (Hlt _ Hin). lia.
  - apply Forall_cons. split; [lia|].
    rewrite Forall_forall. intros i Hi. specialize (Hlt i Hi). lia.
Qed.

Lemma spawned_descends g g' : spawned g g' -> descends g g'.
Proof.
  intros Hsp. split; [rewrite (spawned_nextId g g' Hsp); lia|].
  intros s' Hs'. unfold allSprites in *.
  assert (Hold : forall l : SpriteGroup,
             In s' l ->
             In s' (playerGroup g) \/ In s' (bulletGroup g)
             \/ In s' (enemyBulletGroup g) \/ In s' (alienGroup g) ->
             (exists s,
                 In s (playerGroup g ++ bulletGroup g
                       ++ enemyBulletGroup g ++ alienGroup g)
                 /\ sid s = sid s'
                 /\ (isAlive s' = true -> isAlive s = true))
             \/ (nextId g <= sid s')%nat).
  { intros l _ H. left. exists s'. rewrite !in_app_iff. auto. }
  destruct Hsp as [b Hid _ _ Hp Hb He Ha _|b Hid _ _ Hp Hb He Ha _];
    rewrite Hp, Hb, He, Ha in Hs'; rewrite !in_app_iff in Hs'; simpl in Hs'.
  - destruct Hs' as [H|[[H|[<-|[]]]|[H|H]]];
      try (apply (Hold _ H); by auto). right. lia.
  - destruct Hs' as [H|[H|[[H|[<-|[]]]|H]]];
      try (apply (Hold _ H); by auto). right. lia.
Qed.

Lemma moves_descends g g' : moves g g' -> descends g g'.
Proof.
  intros [H|gm Hs H]; [by apply game_evolves_descends|].
  eapply descends_trans;
    [by apply spawned_descends | by apply game_evolves_descends].
Qed.

Lemma moves_wf g g' : moves g g' -> wf_ids g -> wf_ids g'.
Proof.
  intros [H|gm Hs H] Hwf; [by eapply game_evolves_wf|].
  eapply game_evolves_wf; [done|]. by eapply spawned_wf.
Qed.

Lemma playerShoot_moves now g :
  game_evolves g (playerShoot now g) \/ spawned g (playerShoot now g).
Proof.
  unfold playerShoot.
  destruct (held "Space" (pressedKeys g)); [|left; apply game_evolves_refl].
  destruct (Qltb SHOOT_DELAY (now - lastShotTime g));
    [|left; apply game_evolves_refl].
  destruct (SpriteGroupSingle_sprite (playerGroup g)) as [p|];
    [|left; apply game_evolves_refl].
  right.
  by apply (spawned_bullet _ _
              (new_Bullet (nextId g) (x (rect p) + width (rect p) / 2)
                          (y (rect p)))).
Qed.

Lemma alienShoot_moves rnd g :
  game_evolves g (alienShoot rnd g) \/ spawned g (alienShoot rnd g).
Proof.
  unfold alienShoot.
  destruct (0 <? SpriteGroup_length (alienGroup g))%Z;
    [|left; apply game_evolves_refl].
  destruct (alienGroup g !! _) as [shooter|];
    [|left; apply game_evolves_refl].
  right.
  by apply (spawned_enemyBullet _ _
              (new_EnemyBullet (nextId g)
                 (x (rect shooter) + width (rect shooter) / 2)
                 (y (rect shooter) + height (rect shooter)))).
Qed.

Lemma updatePlaying_moves now g : moves g (updatePlaying now g).
Proof.
  destruct (playerShoot_moves now g) as [H|H].
  - apply moves_evolves. eapply game_evolves_trans;
      [exact H | apply updatePlaying_evolves].
  - eapply moves_spawned; [exact H | apply updatePlaying_evolves].
Qed.

Lemma sessionStep_moves e g g' : sessionStep e g = Some g' -> moves g g'.
Proof.
  destruct e as [code|code|now|rnd]; simpl.
  - intros [= <-]. apply moves_evolves. by apply game_evolves_same.
  - intros [= <-]. apply moves_evolves. by apply game_evolves_same.
  - destruct (gameState g) eqn:Hst; try done.
    intros [= <-]. unfold gameLoop. rewrite Hst. apply updatePlaying_moves.
  - destruct (alienShootTimer g); [|done].
    destruct (Qle_bool 0 rnd && Qltb rnd 1); [|done].
    intros [= <-]. destruct (alienShoot_moves rnd g) as [H|H].
    + by apply moves_evolves.
    + eapply moves_spawned; [exact H | apply game_evolves_refl].
Qed.

Lemma sessionRun_descends es g g' :
  sessionRun es g = Some g' -> descends g g'.
Proof.
  revert g. induction es as [|e es IH]; intros g; simpl.
  - intros [= <-]. apply descends_refl.
  - destruct (sessionStep e g) as [gm|] eqn:He; [|done].
    intros Hrun. eapply descends_trans; [|by apply IH].
    by apply moves_descends, sessionStep_moves with e.
Qed.

(** Every state of a run has unique references below [nextId]. *)

Lemma wf_ids_same g g' :
  allSprites g' = allSprites g -> nextId g' = nextId g ->
  wf_ids g -> wf_ids g'.
Proof. unfold wf_ids, sids. by intros -> ->. Qed.

Lemma map_add_seq (a b n : nat) :
  map (fun c => (a + c)%nat) (seq b n) = seq (a + b) n.
Proof.
  revert b. induction n as [|n IH]; intros b; simpl; [done|].
  f_equal. rewrite IH. f_equal. lia.
Qed.

Lemma sids_alienGrid id0 now rows :
  map sid (alienGrid id0 now rows) = seq id0 (Z.to_nat rows * cols).
Proof.
  unfold alienGrid. generalize (Z.to_nat rows). intros n.
  induction n as [|n IH]; [done|].
  rewrite seq_S, flat_map_app, map_app, IH. cbn [flat_map].
  rewrite app_nil_r. unfold alienRow. rewrite map_map.
  rewrite (map_ext _ (fun c => (id0 + n * cols + c)%nat))
    by (intros c; reflexivity).
  rewrite map_add_seq, Nat.add_0_r.
  replace (S n * cols)%nat with (n * cols + cols)%nat by lia.
  by rewrite seq_app.
Qed.

Lemma startGameLoop_wf now g : wf_ids (startGameLoop now g).
Proof.
  unfold wf_ids, sids, allSprites, startGameLoop. simpl.
  rewrite sids_alienGrid, length_alienGrid.
  change (nextId g :: seq (S (nextId g)) (Z.to_nat (3 + (currentLevel g - 1)) * cols))
    with (seq (nextId g) (S (Z.to_nat (3 + (currentLevel g - 1)) * cols))).
  split; [apply NoDup_seq|].
  apply Forall_forall. intros i Hi. apply elem_of_seq in Hi. lia.
Qed.

Lemma initialGame_wf : wf_ids initialGame.
Proof. split; [constructor | constructor]. Qed.

Lemma gameLoop_wf now g : wf_ids g -> wf_ids (gameLoop now g).
Proof.
  intros Hwf. unfold gameLoop. destruct (gameState g).
  - unfold updateMenu.
    destruct (held "Enter" (pressedKeys g)).
    + destruct (held "KeyI" _);
        [eapply wf_ids_same; [| |apply startGameLoop_wf]; done
        |apply startGameLoop_wf].
    + destruct (held "KeyI" _); [by eapply wf_ids_same | done].
  - unfold updateInstructions.
    destruct (_ || _); [by eapply wf_ids_same | done].
  - by eapply moves_wf; [apply updatePlaying_moves|].
  - unfold updateLevelComplete.
    destruct (_ || _); [|done]. cbv zeta.
    destruct (3 <? _)%Z; [by eapply wf_ids_same | apply startGameLoop_wf].
  - unfold updateGameOver.
    destruct (held "KeyR" _); [by eapply wf_ids_same|].
    destruct (held "KeyQ" _); [by eapply wf_ids_same | done].
  - unfold updateVictory.
    destruct (held "KeyR" _); [by eapply wf_ids_same|].
    destruct (held "KeyQ" _); [by eapply wf_ids_same | done].
Qed.

Lemma step_wf e g g' : step e g = Some g' -> wf_ids g -> wf_ids g'.
Proof.
  destruct e as [code|code|now|rnd]; simpl.
  - intros [= <-]. by apply wf_ids_same.
  - intros [= <-]. by apply wf_ids_same.
  - intros [= <-]. apply gameLoop_wf.
  - intros H. apply moves_wf, (sessionStep_moves (Tick rnd)). exact H.
Qed.

Lemma run_wf es g g' : run es g = Some g' -> wf_ids g -> wf_ids g'.
Proof.
  revert g. induction es as [|e es IH]; intros g; simpl.
  - by intros [= <-].
  - destruct (step e g) as [gm|] eqn:He; [|done].
    intros Hrun Hwf. apply (IH gm Hrun). by apply (step_wf e g).
Qed.

Lemma player_reachable_Player p :
  player_reachable p -> cls p = Player /\ isAlive p = true.
Proof.
  induction 1 as [id|keys p _ [Hc Ha]]; [done|].
  split; [|by rewrite isAlive_Player_update].
  unfold Player_update. by case_tests.
Qed.

Lemma evolves_classes c (l l' : SpriteGroup) :
  evolves l l' ->
  Forall (fun s => cls s = c) l -> Forall (fun s => cls s = c) l'.
Proof.
  induction 1 as [|s s' l l' _ Hcl _ _ IH|s l l' _ IH]; intros Hl;
    inversion Hl; subst; auto.
Qed.

Lemma SpriteGroup_update_players keys now (l : SpriteGroup) :
  Forall player_reachable l ->
  Forall player_reachable
         (SpriteGroup_update (Sprite_update keys now None) l).
Proof.
  induction 1 as [|p l Hp _ IH]; simpl; [constructor|].
  destruct (isAlive p); [|done]. constructor; [|done].
  unfold Sprite_update.
  destruct (player_reachable_Player p Hp) as [-> _].
  by apply reach_update.
Qed.

Lemma settle_playerGroup g : playerGroup (settle g) = playerGroup g.
Proof.
  unfold settle.
  destruct (SpriteGroupSingle_sprite (playerGroup g)) as [p|].
  - destruct (spriteCollide p (enemyBulletGroup g) true) as [hit ebs].
    destruct (0 <? Z.of_nat (length hit))%Z; [done|].
    destruct (spriteCollide p (alienGroup (set_enemyBulletGroup ebs g)) false)
      as [touched aliens].
    destruct (0 <? Z.of_nat (length touched))%Z; [done|].
    by destruct (SpriteGroup_length _ =? 0)%Z.
  - by destruct (SpriteGroup_length (alienGroup g) =? 0)%Z.
Qed.

Lemma advance_playerGroup now g :
  playerGroup (advance now g)
  = SpriteGroup_update (Sprite_update (pressedKeys g) now None)
                       (playerGroup g).
Proof.
  unfold advance, shootAliens, moveAliens, reverseFormation.
  by destruct (changeDirection _ _).
Qed.

Lemma game_evolves_classes g g' :
  game_evolves g g' ->
  Forall player_reachable (playerGroup g') ->
  wf_classes g -> wf_classes g'.
Proof.
  intros [_ Hb He Ha _] Hp (_ & Cb & Ce & Ca).
  split; [done|]. split; [|split]; by eapply evolves_classes.
Qed.

Lemma spawned_classes g g' : spawned g g' -> wf_classes g -> wf_classes g'.
Proof.
  intros [b _ Hc _ Hp Hb He Ha _|b _ Hc _ Hp Hb He Ha _] (Cp & Cb & Ce & Ca);
    unfold wf_classes; rewrite Hp, Hb, He, Ha;
    repeat split; try done; apply Forall_app; split; try done;
    by constructor.
Qed.

Lemma playerShoot_classes now g :
  wf_classes g -> wf_classes (playerShoot now g).
Proof.
  intros Hwf. destruct (playerShoot_frame now g) as (_ & _ & _ & Hp & _).
  destruct (playerShoot_moves now g) as [H|H].
  - apply (game_evolves_classes g); [done | | done].
    rewrite Hp. by destruct Hwf.
  - by apply (spawned_classes g).
Qed.

Lemma updatePlaying_classes now g :
  wf_classes g -> wf_classes (updatePlaying now g).
Proof.
  intros Hwf. apply (playerShoot_classes now) in Hwf.
  apply (game_evolves_classes (playerShoot now g));
    [apply updatePlaying_evolves | | done].
  destruct Hwf as [Hp _]. unfold updatePlaying.
  destruct (held "KeyR" _); [done|]. destruct (held "KeyQ" _); [done|].
  rewrite settle_playerGroup, advance_playerGroup.
  by apply SpriteGroup_update_players.
Qed.

Lemma startGameLoop_classes now g : wf_classes (startGameLoop now g).
Proof.
  unfold wf_classes, startGameLoop. simpl.
  split; [repeat constructor|]. do 2 (split; [constructor|]).
  apply List.Forall_forall. intros a Ha. unfold alienGrid in Ha.
  apply in_flat_map in Ha as (row & _ & Ha). unfold alienRow in Ha.
  by apply in_map_iff in Ha as (col & <- & _).
Qed.

Lemma gameLoop_classes now g : wf_classes g -> wf_classes (gameLoop now g).
Proof.
  intros Hwf. unfold gameLoop. destruct (gameState g).
  - unfold updateMenu.
    destruct (held "Enter" (pressedKeys g)).
    + destruct (held "KeyI" _); apply startGameLoop_classes.
    + by destruct (held "KeyI" _).
  - unfold updateInstructions. by destruct (_ || _).
  - by apply updatePlaying_classes.
  - unfold updateLevelComplete.
    destruct (_ || _); [|done]. cbv zeta.
    destruct (3 <? _)%Z; [done | apply startGameLoop_classes].
  - unfold updateGameOver.
    destruct (held "KeyR" _); [done|]. by destruct (held "KeyQ" _).
  - unfold updateVictory.
    destruct (held "KeyR" _); [done|]. by destruct (held "KeyQ" _).
Qed.

Lemma step_classes e g g' :
  step e g = Some g' -> wf_classes g -> wf_classes g'.
Proof.
  destruct e as [code|code|now|rnd]; simpl.
  - by intros [= <-].
  - by intros [= <-].
  - intros [= <-]. apply gameLoop_classes.
  - destruct (alienShootTimer g); [|done].
    destruct (Qle_bool 0 rnd && Qltb rnd 1); [|done].
    intros [= <-] Hwf. destruct (alienShoot_moves rnd g) as [H|H].
    + apply (game_evolves_classes g); [done | | done].
      destruct H as [Hp _ _ _ _]. destruct Hwf as [Cp _].
      unfold alienShoot. destruct (0 <? _)%Z; [|done].
      by destruct (alienGroup g !! _).
    + by apply (spawned_classes g).
Qed.

Lemma run_classes es g g' :
  run es g = Some g' -> wf_classes g -> wf_classes g'.
Proof.
  revert g. induction es as [|e es IH]; intros g; simpl.
  - by intros [= <-].
  - destruct (step e g) as [gm|] eqn:He; [|done].
    intros Hrun Hwf. apply (IH gm Hrun). by apply (step_classes e g).
Qed.

Lemma initialGame_classes : wf_classes initialGame.
Proof. repeat split; constructor. Qed.

(** In every state of a run the player is alive and on the screen. *)
Lemma run_player_on_screen es g p :
  run es initialGame = Some g -> In p (playerGroup g) ->
  isAlive p = true
  /\ 0 <= x (rect p) /\ x (rect p) + width (rect p) <= WIDTH.
Proof.
  intros Hrun Hin.
  destruct (run_classes es initialGame g Hrun initialGame_classes)
    as [Hp _].
  rewrite List.Forall_forall in Hp. specialize (Hp p Hin).
  split; [by apply player_reachable_Player|].
  destruct (player_reachable_on_grid p Hp) as (k & Hk & Hx & Hw & _).
  assert (inject_Z 0 <= inject_Z k) as H0 by (rewrite <- Zle_Qle; lia).
  assert (inject_Z k <= inject_Z 250) as H1 by (rewrite <- Zle_Qle; lia).
  change (inject_Z 0) with 0 in H0. change (inject_Z 250) with 250 in H1.
  unfold WIDTH. rewrite Hx, Hw. split; lra.
Qed.

Lemma shotGame_reached : run shotRun initialGame = Some shotGame.
Proof. vm_compute. reflexivity. Qed.

(** C10: a sprite is alive when constructed; [kill] clears the flag;
    [setRect] leaves it alone, an [update] leaves it alone or ends in
    [kill], and a collision pass leaves each sprite as it is or kills it;
    and in any state a run of the game reaches, a sprite that is dead is
    dead in every later state of the same level session that still holds
    it. *)
Theorem isAlive_monotone :
  (forall id, isAlive (new_Player id) = true)
  /\ (forall id px py, isAlive (new_Bullet id px py) = true)
  /\ (forall id now px py, isAlive (new_Alien id now px py) = true)
  /\ (forall id px py, isAlive (new_EnemyBullet id px py) = true)
  /\ (forall s, isAlive (kill s) = false)
  /\ (forall posType px py w h s,
        isAlive (setRect posType px py w h s) = isAlive s)
  /\ (forall keys now args s,
        isAlive (Sprite_update keys now args s) = isAlive s
        \/ exists s0, isAlive s0 = isAlive s
                      /\ Sprite_update keys now args s = kill s0)
  /\ (forall g1 g2 dokill1 dokill2,
        Forall2 same_or_killed g1
                (group1 (groupCollide g1 g2 dokill1 dokill2))
        /\ Forall2 same_or_killed g2
                   (group2 (groupCollide g1 g2 dokill1 dokill2)))
  /\ (forall probe g dokill,
        Forall2 same_or_killed g (spriteCollide probe g dokill).2)
  /\ (forall history es g g' s s',
        run history initialGame = Some g ->
        sessionRun es g = Some g' ->
        In s (allSprites g) -> isAlive s = false ->
        In s' (allSprites g') -> sid s' = sid s ->
        isAlive s' = false).
Proof.
  do 5 (split; [done|]).
  split; [by intros []|].
  split.
  { intros keys now args s.
    unfold Sprite_update, Bullet_update, EnemyBullet_update.
    destruct (cls s).
    - left. apply isAlive_Player_update.
    - case_tests;
        [right; eexists; split; [|reflexivity]; reflexivity | by left].
    - left. destruct args as [[mr m]|]; [apply isAlive_Alien_update | done].
    - case_tests;
        [right; eexists; split; [|reflexivity]; reflexivity | by left]. }
  split; [intros; apply groupCollide_same_or_killed|].
  split; [intros; apply spriteCollide_same_or_killed|].
  intros history es g g' s s' Hreach Hrun.
  apply descends_dead_stays.
  - exact (run_wf history initialGame g Hreach initialGame_wf).
  - by apply sessionRun_descends with es.
Qed.

(** C10 in [shotGame], where the alien with reference 26 is dead: the
    quit key is held during the next frame, so no group is pruned and the
    alien is still there, and still dead. *)
Lemma isAlive_monotone_witness :
  exists g' s s',
    sessionRun [KeyDown "KeyQ"; Frame 600] shotGame = Some g'
    /\ In s (alienGroup shotGame) /\ In s' (alienGroup g')
    /\ sid s = 26%nat /\ sid s' = 26%nat
    /\ isAlive s = false /\ isAlive s' = false.
Proof.
  pose (g' := default shotGame
                (sessionRun [KeyDown "KeyQ"; Frame 600] shotGame)).
  pose (dead := fun g : Game =>
          default (new_Player 0)
            (head (List.filter (fun a => negb (isAlive a)) (alienGroup g)))).
  assert (Hs : In (dead shotGame) (alienGroup shotGame))
    by (vm_compute; tauto).
  assert (Hs' : In (dead g') (alienGroup g')) by (vm_compute; tauto).
  exists g', (dead shotGame), (dead g').
  split; [vm_compute; reflexivity|].
  do 2 (split; [assumption|]). do 3 (split; [reflexivity|]).
  destruct isAlive_monotone as (_ & _ & _ & _ & _ & _ & _ & _ & _ & H).
  apply (H shotRun [KeyDown "KeyQ"; Frame 600] shotGame g'
           (dead shotGame) (dead g'));
    [exact shotGame_reached | vm_compute; reflexivity
    | unfold allSprites; rewrite !in_app_iff; auto | reflexivity
    | unfold allSprites; rewrite !in_app_iff; auto | reflexivity].
Defined.

(** * Further properties of the code *)

(** ** Box intersection *)

(** X1: [checkCollision] does not depend on the order of its two
    boxes. *)
Theorem checkCollision_sym (rect1 rect2 : Rect) :
  checkCollision rect1 rect2 = checkCollision rect2 rect1.
Proof.
  unfold checkCollision.
  destruct (Qltb (x rect1) (x rect2 + width rect2)),
    (Qltb (x rect2) (x rect1 + width rect1)),
    (Qltb (y rect1) (y rect2 + height rect2)),
    (Qltb (y rect2) (y rect1 + height rect1)); reflexivity.
Qed.

(** ** More on collisions between two groups *)









Lemma livingCount_insert_kill (g : SpriteGroup) i s :
  g !! i = Some s -> isAlive s = true ->
  S (livingCount (<[i := kill s]> g)) = livingCount g.
Proof.
  unfold livingCount. revert i.
  induction g as [|a g IH]; intros [|i] Hi Ha; simplify_eq/=.
  - by rewrite Ha.
  - destruct (isAlive a); simpl; by rewrite (IH i).
Qed.

Lemma collidePair_pairs st ij :
  (livingCount (group1 (collidePair true true st ij))
   + livingCount (group2 st)
   = livingCount (group2 (collidePair true true st ij))
     + livingCount (group1 st))%nat.
Proof.
  unfold collidePair.
  destruct (group1 st !! ij.1) as [s1|] eqn:H1; [|lia].
  destruct (group2 st !! ij.2) as [s2|] eqn:H2; [|lia].
  destruct (isAlive s1) eqn:Ha1; [|simpl; lia].
  destruct (isAlive s2) eqn:Ha2; [|simpl; lia].
  destruct (checkCollision (rect s1) (rect s2)); [|simpl; lia].
  cbn [andb group1 group2].
  pose proof (livingCount_insert_kill _ _ _ H1 Ha1).
  pose proof (livingCount_insert_kill _ _ _ H2 Ha2). lia.
Qed.

Lemma collideRun_pairs visits st :
  (livingCount (group1 (collideRun true true st visits))
   + livingCount (group2 st)
   = livingCount (group2 (collideRun true true st visits))
     + livingCount (group1 st))%nat.
Proof.
  revert st. induction visits as [|ij visits IH]; intros st; simpl; [lia|].
  pose proof (IH (collidePair true true st ij)).
  pose proof (collidePair_pairs st ij).
  unfold collideRun in *. lia.
Qed.

Lemma livingCount_same_or_killed (g g' : SpriteGroup) :
  Forall2 same_or_killed g g' -> (livingCount g' <= livingCount g)%nat.
Proof.
  unfold livingCount.
  induction 1 as [|s s' l l' [->| ->] _ IH]; simpl; [lia| |];
    destruct (isAlive s); simpl; lia.
Qed.

(** X4: with both kill flags set, [groupCollide] kills in pairs: as many
    sprites of the first group die during the call as sprites of the
    second, and no sprite comes back to life. *)
Theorem groupCollide_kills_in_pairs (g1 g2 : SpriteGroup) :
  let st := groupCollide g1 g2 true true in
  (livingCount g1 - livingCount (group1 st)
   = livingCount g2 - livingCount (group2 st))%nat
  /\ (livingCount (group1 st) <= livingCount g1)%nat
  /\ (livingCount (group2 st) <= livingCount g2)%nat.
Proof.
  intros st.
  assert (Hp : (livingCount (group1 st) + livingCount g2
                = livingCount (group2 st) + livingCount g1)%nat)
    by apply (collideRun_pairs (collideOrder (length g1) (length g2))
                (mkCollide g1 g2 ∅)).
  destruct (groupCollide_same_or_killed g1 g2 true true) as [H1 H2].
  apply livingCount_same_or_killed in H1, H2. fold st in H1, H2.
  clearbody st. lia.
Qed.

Lemma collideOrder_nil_r (n1 : nat) : collideOrder n1 0 = [].
Proof.
  unfold collideOrder. generalize (seq 0 n1). intros l.
  by induction l.
Qed.

Lemma collidePair_nokill st ij :
  group1 (collidePair false false st ij) = group1 st
  /\ group2 (collidePair false false st ij) = group2 st.
Proof.
  unfold collidePair.
  destruct (group1 st !! ij.1); [|done].
  destruct (group2 st !! ij.2); [|done].
  by destruct (_ && _).
Qed.

Lemma collideRun_nokill visits st :
  group1 (collideRun false false st visits) = group1 st
  /\ group2 (collideRun false false st visits) = group2 st.
Proof.
  revert st. induction visits as [|ij visits IH]; intros st; simpl; [done|].
  destruct (IH (collidePair false false st ij)) as [-> ->].
  apply collidePair_nokill.
Qed.

(** X5: [groupCollide] changes no sprite when neither kill flag is set,
    and when one of the groups is empty it also records no collision. *)
Theorem groupCollide_read_only (g1 g2 : SpriteGroup) :
  (group1 (groupCollide g1 g2 false false) = g1
   /\ group2 (groupCollide g1 g2 false false) = g2)
  /\ (forall dokill1 dokill2,
        g1 = [] \/ g2 = [] ->
        groupCollide g1 g2 dokill1 dokill2 = mkCollide g1 g2 ∅).
Proof.
  split.
  - unfold groupCollide.
    apply (collideRun_nokill _ (mkCollide g1 g2 ∅)).
  - intros dokill1 dokill2 [-> | ->]; unfold groupCollide; simpl;
      [done | by rewrite collideOrder_nil_r].
Qed.

(** X5 on a bullet over an alien, without kill flags, and on an empty
    bullet group. *)
Lemma groupCollide_read_only_witness :
  let b := new_Bullet 1 100 60 in
  let a := new_Alien 3 0 90 40 in
  collisions (groupCollide [b] [a] false false) = {[ 1%nat := [3%nat] ]}
  /\ group2 (groupCollide [b] [a] false false) = [a]
  /\ groupCollide [] [a] true true = mkCollide [] [a] ∅.
Proof.
  intros b a. destruct (groupCollide_read_only [b] [a]) as [[_ H2] _].
  destruct (groupCollide_read_only [] [a]) as [_ He].
  split; [reflexivity|]. split; [exact H2|].
  apply He. by left.
Defined.

(** ** More on one probe against a group *)




(** ** Lifetime of bullets *)

Lemma Bullet_update_fields s :
  speed (Bullet_update s) = speed s
  /\ height (rect (Bullet_update s)) = height (rect s)
  /\ y (rect (Bullet_update s)) = y (rect s) - speed s.
Proof. unfold Bullet_update. by case_tests. Qed.

Lemma EnemyBullet_update_fields s :
  speed (EnemyBullet_update s) = speed s
  /\ y (rect (EnemyBullet_update s)) = y (rect s) + speed s.
Proof. unfold EnemyBullet_update. by case_tests. Qed.

Lemma inject_Z_S (n : nat) :
  inject_Z (Z.of_nat (S n)) == inject_Z (Z.of_nat n) + 1.
Proof.
  rewrite Nat2Z.inj_succ, <- Z.add_1_r, inject_Z_plus. reflexivity.
Qed.

Lemma Bullet_iter_fields n s :
  speed (Nat.iter n Bullet_update s) = speed s
  /\ height (rect (Nat.iter n Bullet_update s)) = height (rect s)
  /\ y (rect (Nat.iter n Bullet_update s))
     == y (rect s) - inject_Z (Z.of_nat n) * speed s.
Proof.
  induction n as [|n (Hs & Hh & Hy)].
  - repeat split. simpl. change (inject_Z (Z.of_nat 0)) with 0. lra.
  - rewrite Nat.iter_succ.
    destruct (Bullet_update_fields (Nat.iter n Bullet_update s))
      as (-> & -> & ->).
    repeat split; [done | done |].
    rewrite Hy, Hs, inject_Z_S. lra.
Qed.

Lemma EnemyBullet_iter_fields n s :
  speed (Nat.iter n EnemyBullet_update s) = speed s
  /\ y (rect (Nat.iter n EnemyBullet_update s))
     == y (rect s) + inject_Z (Z.of_nat n) * speed s.
Proof.
  induction n as [|n (Hs & Hy)].
  - repeat split. simpl. change (inject_Z (Z.of_nat 0)) with 0. lra.
  - rewrite Nat.iter_succ.
    destruct (EnemyBullet_update_fields (Nat.iter n EnemyBullet_update s))
      as (-> & ->).
    split; [done|]. rewrite Hy, Hs, inject_Z_S. lra.
Qed.

Lemma inject_Z_nat_le (k n : nat) :
  (k <= n)%nat -> inject_Z (Z.of_nat k) <= inject_Z (Z.of_nat n).
Proof. intros H. rewrite <- Zle_Qle. lia. Qed.

(** X7: a player bullet is dead after its [n]-th update, [n >= 1], as
    soon as [n] steps take its lower edge above the top of the screen, and
    a living one is still alive after [n] updates while they do not; an
    enemy bullet is dead after its [n]-th update as soon as [n] steps take
    its upper edge below the bottom of the screen, and a living one is
    still alive while they do not.  The speed is not negative. *)
Theorem bullets_leave_the_screen (s : Sprite) (n : nat) :
  0 <= speed s ->
  let steps := inject_Z (Z.of_nat n) in
  ((1 <= n)%nat ->
   y (rect s) + height (rect s) - steps * speed s < 0 ->
   isAlive (Nat.iter n Bullet_update s) = false)
  /\ (isAlive s = true ->
      0 <= y (rect s) + height (rect s) - steps * speed s ->
      isAlive (Nat.iter n Bullet_update s) = true)
  /\ ((1 <= n)%nat ->
      HEIGHT < y (rect s) + steps * speed s ->
      isAlive (Nat.iter n EnemyBullet_update s) = false)
  /\ (isAlive s = true ->
      y (rect s) + steps * speed s <= HEIGHT ->
      isAlive (Nat.iter n EnemyBullet_update s) = true).
Proof.
  intros Hsp steps. unfold steps. clear steps. repeat split.
  - intros Hn Hout. destruct n as [|n]; [lia|].
    rewrite Nat.iter_succ.
    destruct (Bullet_iter_fields n s) as (Hs & Hh & Hy).
    unfold Bullet_update at 1. cbv zeta.
    match goal with
    | |- context [Qltb ?a 0] => assert (Hlt : Qltb a 0 = true)
    end.
    { apply Qltb_lt. simpl. rewrite Hy, Hs, Hh.
      rewrite inject_Z_S in Hout. lra. }
    by rewrite Hlt.
  - intros Ha Hin. induction n as [|n IH]; [done|].
    rewrite Nat.iter_succ.
    destruct (Bullet_iter_fields n s) as (Hs & Hh & Hy).
    rewrite inject_Z_S in Hin.
    assert (IHa : isAlive (Nat.iter n Bullet_update s) = true)
      by (apply IH; lra).
    unfold Bullet_update at 1. cbv zeta.
    match goal with
    | |- context [Qltb ?a 0] => assert (Hge : Qltb a 0 = false)
    end.
    { apply Qltb_ge. simpl. rewrite Hy, Hs, Hh. lra. }
    by rewrite Hge.
  - intros Hn Hout. destruct n as [|n]; [lia|].
    rewrite Nat.iter_succ.
    destruct (EnemyBullet_iter_fields n s) as (Hs & Hy).
    unfold EnemyBullet_update at 1. cbv zeta.
    match goal with
    | |- context [Qltb HEIGHT ?a] => assert (Hlt : Qltb HEIGHT a = true)
    end.
    { apply Qltb_lt. simpl. rewrite Hy, Hs.
      rewrite inject_Z_S in Hout. lra. }
    by rewrite Hlt.
  - intros Ha Hin. induction n as [|n IH]; [done|].
    rewrite Nat.iter_succ.
    destruct (EnemyBullet_iter_fields n s) as (Hs & Hy).
    rewrite inject_Z_S in Hin.
    assert (IHa : isAlive (Nat.iter n EnemyBullet_update s) = true)
      by (apply IH; lra).
    unfold EnemyBullet_update at 1. cbv zeta.
    match goal with
    | |- context [Qltb HEIGHT ?a] => assert (Hge : Qltb HEIGHT a = false)
    end.
    { apply Qltb_ge. simpl. rewrite Hy, Hs. lra. }
    by rewrite Hge.
Qed.

(** X7 for a bullet fired from the player's starting position: alive
    after 75 updates, dead after 76. *)
Lemma bullets_leave_the_screen_witness :
  let b := new_Bullet 31 400 530 in
  isAlive (Nat.iter 75 Bullet_update b) = true
  /\ isAlive (Nat.iter 76 Bullet_update b) = false.
Proof.
  intros b. split.
  - apply (bullets_leave_the_screen b 75); [done | reflexivity | done].
  - apply (bullets_leave_the_screen b 76); [done | lia | reflexivity].
Defined.

(** ** Alien animation *)

Lemma Alien_update_animation mr m now a :
  image a = alien_images (image_index a) -> (image_index a < 2)%nat ->
  image (Alien_update mr m now a)
    = alien_images (image_index (Alien_update mr m now a))
  /\ (image_index (Alien_update mr m now a) < 2)%nat.
Proof.
  intros Hi Hlt. unfold Alien_update. cbv zeta.
  destruct (Qle_bool 500 _).
  - cbn [image image_index]. split; [done|].
    apply Nat.mod_upper_bound. lia.
  - by destruct mr.
Qed.

Lemma Alien_update_box mr m now a :
  width (rect (Alien_update mr m now a)) = width (rect a)
  /\ height (rect (Alien_update mr m now a)) = height (rect a)
  /\ y (rect (Alien_update mr m now a)) = y (rect a).
Proof. unfold Alien_update. by case_tests. Qed.

Lemma Alien_updates_invariant steps a :
  image a = alien_images (image_index a) -> (image_index a < 2)%nat ->
  let a' := Alien_updates steps a in
  image a' = alien_images (image_index a') /\ (image_index a' < 2)%nat
  /\ width (rect a') = width (rect a) /\ height (rect a') = height (rect a)
  /\ y (rect a') = y (rect a).
Proof.
  cbv zeta. unfold Alien_updates.
  revert a. induction steps as [|[[mr m] now] steps IH]; intros a Hi Hlt.
  - done.
  - cbn [foldl fst snd].
    destruct (Alien_update_animation mr m now a Hi Hlt) as [Hi' Hlt'].
    destruct (Alien_update_box mr m now a) as (Hw & Hh & Hy).
    destruct (IH _ Hi' Hlt') as (? & ? & Hw' & Hh' & Hy').
    rewrite Hw', Hh', Hy', Hw, Hh, Hy. done.
Qed.

(** X8: however an alien is updated after its construction, its image is
    the frame its index names, the index is 0 or 1, its box keeps its
    size of 30 by 20 and its height on the screen is the one it was
    given.  An update either leaves frame, index and delay as they are, or
    shows the other frame and restarts the delay at the clock of the
    update.  It shows the other frame whenever 500 ms or more have elapsed
    on the clock since the last change, and it leaves the frame alone
    whenever the time elapsed is short of 500 ms by a microsecond or more
    (the machine rounds the difference of the two readings, by far less
    than that). *)
Theorem Alien_animation_cycle
    (id : nat) (t px py : Q) (steps : list (bool * Q * Q)) :
  let a := Alien_updates steps (new_Alien id t px py) in
  (image a = alien_images (image_index a)
   /\ (image_index a < 2)%nat
   /\ width (rect a) = 30 /\ height (rect a) = 20
   /\ y (rect a) = py)
  /\ (forall mr m now,
        (image (Alien_update mr m now a) = image a
         /\ image_index (Alien_update mr m now a) = image_index a
         /\ last_animation_time (Alien_update mr m now a)
            = last_animation_time a)
        \/ (image_index (Alien_update mr m now a) = (1 - image_index a)%nat
            /\ image (Alien_update mr m now a) <> image a
            /\ last_animation_time (Alien_update mr m now a) = now))
  /\ (forall mr m now,
        500 <= now - last_animation_time a ->
        image_index (Alien_update mr m now a) = (1 - image_index a)%nat
        /\ image (Alien_update mr m now a) <> image a
        /\ last_animation_time (Alien_update mr m now a) = now)
  /\ (forall mr m now,
        now - last_animation_time a <= 500 - (1 # 1000) ->
        image (Alien_update mr m now a) = image a
        /\ image_index (Alien_update mr m now a) = image_index a
        /\ last_animation_time (Alien_update mr m now a)
           = last_animation_time a).
Proof.
  intros a.
  destruct (Alien_updates_invariant steps (new_Alien id t px py))
    as (Hi & Hlt & Hw & Hh & Hy); [done | simpl; lia |].
  fold a in Hi, Hlt, Hw, Hh, Hy. clearbody a.
  assert (Hdue : forall mr m now,
             Qle_bool 500 (now - last_animation_time a) = true ->
             image_index (Alien_update mr m now a) = (1 - image_index a)%nat
             /\ image (Alien_update mr m now a) <> image a
             /\ last_animation_time (Alien_update mr m now a) = now).
  { intros mr m now Hd. unfold Alien_update. cbv zeta.
    replace (last_animation_time (if mr then _ else _))
      with (last_animation_time a) by (by destruct mr).
    rewrite Hd. cbn [image image_index last_animation_time].
    replace (image_index (if mr then _ else _))
      with (image_index a) by (by destruct mr).
    rewrite Hi.
    destruct (image_index a) as [|[|k]]; [done | done | lia]. }
  assert (Hearly : forall mr m now,
             Qle_bool 500 (now - last_animation_time a) = false ->
             image (Alien_update mr m now a) = image a
             /\ image_index (Alien_update mr m now a) = image_index a
             /\ last_animation_time (Alien_update mr m now a)
                = last_animation_time a).
  { intros mr m now Hd. unfold Alien_update. cbv zeta.
    replace (last_animation_time (if mr then _ else _))
      with (last_animation_time a) by (by destruct mr).
    rewrite Hd. by destruct mr. }
  split; [by rewrite Hw, Hh, Hy | split; [|split]].
  - intros mr m now.
    destruct (Qle_bool 500 (now - last_animation_time a)) eqn:E;
      [right; by apply Hdue | left; by apply Hearly].
  - intros mr m now Hd. apply Hdue. by apply Qle_bool_iff.
  - intros mr m now Hd. apply Hearly.
    destruct (Qle_bool 500 _) eqn:E; [|done].
    apply Qle_bool_iff in E. lra.
Qed.

(** Why the margin: on the machine the difference of two clock readings is
    rounded.  For the readings 0.7 and 500.7 the time elapsed is less than
    500 and the difference computed is 500; for 100.1 and 600.1 it is more
    than 500 and the difference computed is 500 again. *)
Remark clock_difference_rounding :
  let elapsed t0 t1 := binary64_to_Q t1 - binary64_to_Q t0 in
  let computed t0 t1 := binary64_to_Q (SFsub 53 1024 t1 t0) in
  (elapsed (binary64_of_ratio 7 10) (binary64_of_ratio 5007 10) < 500
   /\ computed (binary64_of_ratio 7 10) (binary64_of_ratio 5007 10) == 500)
  /\ (500 < elapsed (binary64_of_ratio 1001 10) (binary64_of_ratio 6001 10)
      /\ computed (binary64_of_ratio 1001 10) (binary64_of_ratio 6001 10)
         == 500).
Proof. repeat split. Qed.

(** ** The state machine *)

Lemma advance_frame now g :
  gameState (advance now g) = gameState g
  /\ pressedKeys (advance now g) = pressedKeys g
  /\ currentLevel (advance now g) = currentLevel g
  /\ initialAlienCount (advance now g) = initialAlienCount g
  /\ alienShootTimer (advance now g) = alienShootTimer g
  /\ lastShotTime (advance now g) = lastShotTime g
  /\ nextId (advance now g) = nextId g.
Proof.
  unfold advance, shootAliens, moveAliens, reverseFormation.
  by destruct (changeDirection _ _).
Qed.

Lemma settle_frame g :
  pressedKeys (settle g) = pressedKeys g
  /\ currentLevel (settle g) = currentLevel g
  /\ initialAlienCount (settle g) = initialAlienCount g
  /\ lastShotTime (settle g) = lastShotTime g
  /\ nextId (settle g) = nextId g
  /\ bulletGroup (settle g) = bulletGroup g
  /\ ((gameState (settle g) = gameState g
       /\ alienShootTimer (settle g) = alienShootTimer g)
      \/ ((gameState (settle g) = GAME_OVER
           \/ gameState (settle g) = LEVEL_COMPLETE)
          /\ alienShootTimer (settle g) = None)).
Proof.
  unfold settle.
  destruct (SpriteGroupSingle_sprite (playerGroup g)) as [p|].
  - destruct (spriteCollide p (enemyBulletGroup g) true) as [hit ebs].
    destruct (0 <? Z.of_nat (length hit))%Z; [simpl; tauto|].
    destruct (spriteCollide p (alienGroup (set_enemyBulletGroup ebs g)) false)
      as [touched aliens].
    destruct (0 <? Z.of_nat (length touched))%Z; [simpl; tauto|].
    destruct (SpriteGroup_length _ =? 0)%Z; simpl; tauto.
  - destruct (SpriteGroup_length (alienGroup g) =? 0)%Z; simpl; tauto.
Qed.

Lemma evolves_length (l l' : SpriteGroup) :
  evolves l l' -> (length l' <= length l)%nat.
Proof. induction 1; simpl; lia. Qed.

Lemma SpriteGroup_update_players_length keys now (l : SpriteGroup) :
  Forall player_reachable l ->
  length (SpriteGroup_update (Sprite_update keys now None) l) = length l.
Proof.
  intros Hl. rewrite SpriteGroup_update_filter, length_map.
  induction Hl as [|p l Hp _ IH]; [done|].
  simpl. destruct (player_reachable_Player p Hp) as [_ ->]. simpl.
  by rewrite IH.
Qed.

(** The fields of the state after a frame of play, case by case. *)
Lemma updatePlaying_frame now g :
  let g' := updatePlaying now g in
  initialAlienCount g' = initialAlienCount g
  /\ (length (alienGroup g') <= length (alienGroup g))%nat
  /\ ((held "KeyR" (pressedKeys g) = true
       /\ gameState g' = MENU /\ currentLevel g' = 1%Z
       /\ alienShootTimer g' = None
       /\ held "KeyR" (pressedKeys g') = false
       /\ playerGroup g' = playerGroup g)
      \/ (held "KeyR" (pressedKeys g) = false
          /\ currentLevel g' = currentLevel g
          /\ pressedKeys g' = pressedKeys g
          /\ ((held "KeyQ" (pressedKeys g) = true
               /\ gameState g' = gameState g
               /\ alienShootTimer g' = None
               /\ playerGroup g' = playerGroup g)
              \/ (held "KeyQ" (pressedKeys g) = false
                  /\ playerGroup g'
                     = SpriteGroup_update
                         (Sprite_update (pressedKeys g) now None)
                         (playerGroup g)
                  /\ ((gameState g' = gameState g
                       /\ alienShootTimer g' = alienShootTimer g)
                      \/ ((gameState g' = GAME_OVER
                           \/ gameState g' = LEVEL_COMPLETE)
                          /\ alienShootTimer g' = None)))))).
Proof.
  intros g'.
  destruct (playerShoot_frame now g)
    as (Hs & Hk & Hl & Hp & _ & Ha & Hi & Ht & _).
  pose proof (evolves_length _ _ (ge_alien _ _ (updatePlaying_evolves now g)))
    as Hlen.
  assert (Hini : initialAlienCount g' = initialAlienCount g).
  { unfold g', updatePlaying. cbv zeta.
    destruct (held "KeyR" _); [exact Hi|].
    destruct (held "KeyQ" _); [exact Hi|].
    destruct (settle_frame (advance now (playerShoot now g)))
      as (_ & _ & -> & _).
    destruct (advance_frame now (playerShoot now g)) as (_ & _ & _ & -> & _).
    exact Hi. }
  rewrite Ha in Hlen. split; [exact Hini|]. split; [exact Hlen|].
  destruct (held "KeyR" (pressedKeys g)) eqn:HR.
  - left. unfold g'. rewrite (updatePlaying_restart now g HR). simpl.
    rewrite held_keyup. by rewrite Hp.
  - right. destruct (held "KeyQ" (pressedKeys g)) eqn:HQ.
    + unfold g'. rewrite (updatePlaying_quit now g HR HQ). simpl.
      rewrite Hl, Hk, Hs, Hp. tauto.
    + unfold g'. rewrite (updatePlaying_plays now g HR HQ).
      destruct (settle_frame (advance now (playerShoot now g)))
        as (-> & -> & _ & _ & _ & _ & Hout).
      destruct (advance_frame now (playerShoot now g))
        as (Hs' & -> & -> & _ & Ht' & _).
      rewrite settle_playerGroup, advance_playerGroup, Hk, Hp, Hl.
      rewrite Hs', Ht', Hs, Ht in Hout. tauto.
Qed.

Lemma alienShootInterval_levels level :
  (1 <= level <= 3)%Z ->
  alienShootInterval level = 600%Z \/ alienShootInterval level = 500%Z
  \/ alienShootInterval level = 400%Z.
Proof. unfold alienShootInterval. lia. Qed.

Lemma startGameLoop_level_invariant now g :
  (1 <= currentLevel g <= 3)%Z -> gameState g = PLAYING ->
  level_invariant (startGameLoop now g).
Proof.
  intros Hl Hs.
  assert (Hn : SpriteGroup_length
                 (alienGrid (S (nextId g)) now (3 + (currentLevel g - 1)))
               = ((currentLevel g + 2) * 10)%Z).
  { unfold SpriteGroup_length. rewrite length_alienGrid. unfold cols. lia. }
  split; unfold startGameLoop; cbv zeta; cbn [currentLevel gameState
    initialAlienCount alienShootTimer alienGroup playerGroup].
  - lia.
  - rewrite Hs. split; [done | lia].
  - intros _. exact Hn.
  - rewrite Hn. lia.
  - intros period [= <-]. split; [done | lia].
  - rewrite Hs. intros [|[|]]; done.
  - lia.
  - simpl. lia.
  - done.
Qed.

Lemma level_invariant_keys keys g :
  level_invariant g -> level_invariant (set_pressedKeys keys g).
Proof. intros [? ? ? ? ? ? ? ? ?]. by split. Qed.

Lemma level_below_victory g :
  level_invariant g -> gameState g <> VICTORY -> (1 <= currentLevel g <= 3)%Z.
Proof.
  intros [Hl Hv _ _ _ _ _ _ _] Hs.
  assert (currentLevel g <> 4%Z) by (intros H4; by apply Hv in H4).
  lia.
Qed.

Lemma level_invariant_state st g :
  st = MENU \/ st = INSTRUCTIONS ->
  gameState g <> VICTORY ->
  level_invariant g -> level_invariant (set_gameState st g).
Proof.
  intros Hst Hs Hinv. pose proof (level_below_victory g Hinv Hs) as Hlvl.
  destruct Hinv as [H1 H2 H3 H4 H5 H6 H7 H8 H9].
  split; game_fields; try done.
  - split; [by destruct Hst as [-> | ->] | lia].
  - by destruct Hst as [-> | ->]; intros [|[|]].
  - by destruct Hst as [-> | ->]; intros [|[|]].
  - by destruct Hst as [-> | ->].
Qed.

Lemma updateMenu_level_invariant now g :
  gameState g = MENU -> level_invariant g ->
  level_invariant (updateMenu now g).
Proof.
  intros Hs Hinv. unfold updateMenu.
  assert (Hlvl : (1 <= currentLevel g <= 3)%Z)
    by (apply level_below_victory; [done | congruence]).
  destruct (held "Enter" (pressedKeys g)).
  - pose proof (startGameLoop_level_invariant now
                  (set_gameState PLAYING (consume "Enter" g)) Hlvl eq_refl)
      as Hst.
    destruct (held "KeyI" _); [|exact Hst].
    apply level_invariant_state; [tauto | done |].
    by apply level_invariant_keys.
  - destruct (held "KeyI" _); [|done].
    apply level_invariant_state; [tauto | game_fields; congruence |].
    by apply level_invariant_keys.
Qed.

Lemma updateInstructions_level_invariant g :
  gameState g = INSTRUCTIONS -> level_invariant g ->
  level_invariant (updateInstructions g).
Proof.
  intros Hs Hinv. unfold updateInstructions.
  destruct (_ || _); [|done].
  apply level_invariant_state; [tauto | game_fields; congruence |].
  by do 2 apply level_invariant_keys.
Qed.

Lemma updateLevelComplete_level_invariant now g :
  gameState g = LEVEL_COMPLETE -> level_invariant g ->
  level_invariant (updateLevelComplete now g).
Proof.
  intros Hs Hinv. unfold updateLevelComplete.
  destruct (_ || _); [|done]. cbv zeta.
  assert (Hlvl : (1 <= currentLevel g <= 3)%Z)
    by (apply level_below_victory; [done | congruence]).
  destruct (3 <? _)%Z eqn:E.
  - apply Z.ltb_lt in E. game_fields.
    destruct Hinv as [H1 H2 H3 H4 H5 H6 H7 H8 H9].
    assert (Ht : alienShootTimer g = None) by (apply H6; tauto).
    split; game_fields; try done.
    + lia.
    + split; [lia | done].
    + by intros [|[|]].
    + by rewrite Ht.
  - apply Z.ltb_ge in E. game_fields.
    apply startGameLoop_level_invariant; [game_fields; lia | done].
Qed.

Lemma updateGameOver_level_invariant g :
  gameState g = GAME_OVER \/ gameState g = VICTORY -> level_invariant g ->
  level_invariant (updateGameOver g).
Proof.
  intros Hs [H1 H2 H3 H4 H5 H6 H7 H8 H9]. unfold updateGameOver.
  assert (Ht : alienShootTimer g = None) by (apply H6; tauto).
  destruct (held "KeyR" _).
  - split; game_fields; try done; try (by intros [|[|]]);
      try (by rewrite Ht).
  - destruct (held "KeyQ" _); [|by split].
    split; game_fields; done.
Qed.

Lemma updatePlaying_level_invariant now g :
  gameState g = PLAYING -> wf_classes g -> level_invariant g ->
  level_invariant (updatePlaying now g).
Proof.
  intros Hs Hcl Hinv.
  assert (Hlvl : (1 <= currentLevel g <= 3)%Z)
    by (apply level_below_victory; [done | congruence]).
  destruct Hinv as [H1 H2 H3 H4 H5 H6 H7 H8 H9].
  destruct (updatePlaying_frame now g) as (Hi & Hlen & Hcases).
  assert (Hal : (SpriteGroup_length (alienGroup (updatePlaying now g))
                 <= initialAlienCount (updatePlaying now g))%Z).
  { rewrite Hi. unfold SpriteGroup_length in *. lia. }
  specialize (H9 Hs). specialize (H3 (or_introl Hs)).
  destruct Hcases as [(HR & Hst & Hl & Ht & _ & Hp)
                     |(HR & Hl & Hk & [(HQ & Hst & Ht & Hp)
                                      |(HQ & Hp & Hout)])].
  - split; rewrite ?Hst, ?Hl, ?Ht, ?Hi, ?Hp; try done.
    + by intros [|[|]].
    + lia.
  - split; rewrite ?Hst, ?Hl, ?Ht, ?Hi, ?Hp; try done. lia.
  - assert (Hpl : length (playerGroup (updatePlaying now g)) = 1%nat).
    { rewrite Hp, SpriteGroup_update_players_length; [done|].
      by destruct Hcl. }
    assert (Hne : gameState (updatePlaying now g) <> VICTORY).
    { destruct Hout as [[-> _]|[[->| ->] _]]; congruence. }
    split; rewrite ?Hl, ?Hi; try done.
    + split; [done|]. intros E. lia.
    + destruct Hout as [[_ ->]|[_ ->]]; [done|]. intros period Hper. done.
    + intros Hend. destruct Hout as [[Hst _]|[_ ->]]; [|done].
      rewrite Hst, Hs in Hend. by destruct Hend as [|[|]].
    + lia.
    + lia.
Qed.

Lemma gameLoop_level_invariant now g :
  wf_classes g -> level_invariant g -> level_invariant (gameLoop now g).
Proof.
  intros Hcl Hinv. unfold gameLoop. destruct (gameState g) eqn:Hs.
  - by apply updateMenu_level_invariant.
  - by apply updateInstructions_level_invariant.
  - by apply updatePlaying_level_invariant.
  - by apply updateLevelComplete_level_invariant.
  - apply updateGameOver_level_invariant; tauto.
  - apply (updateGameOver_level_invariant g); tauto.
Qed.

Lemma alienShoot_level_invariant rnd g :
  level_invariant g -> level_invariant (alienShoot rnd g).
Proof.
  intros Hinv. unfold alienShoot.
  destruct (0 <? _)%Z; [|done]. cbv zeta.
  destruct (alienGroup g !! _); [|done].
  destruct Hinv as [? ? ? ? ? ? ? ? ?]. by split.
Qed.

Lemma step_level_invariant e g g' :
  step e g = Some g' -> wf_classes g -> level_invariant g ->
  level_invariant g'.
Proof.
  destruct e as [code|code|now|rnd]; simpl.
  - intros [= <-] _. apply level_invariant_keys.
  - intros [= <-] _. apply level_invariant_keys.
  - intros [= <-]. apply gameLoop_level_invariant.
  - destruct (alienShootTimer g); [|done].
    destruct (_ && _); [|done].
    intros [= <-] _. apply alienShoot_level_invariant.
Qed.

Lemma initialGame_level_invariant : level_invariant initialGame.
Proof. split; simpl; try done; try lia; try tauto; by intros [|[|]]. Qed.

Lemma run_level_invariant es g g' :
  run es g = Some g' -> wf_classes g -> level_invariant g ->
  level_invariant g'.
Proof.
  revert g. induction es as [|e es IH]; intros g; simpl.
  - by intros [= <-].
  - destruct (step e g) as [gm|] eqn:He; [|done].
    intros Hrun Hcl Hinv. apply (IH gm Hrun).
    + by apply (step_classes e g).
    + by apply (step_level_invariant e g).
Qed.

Lemma run_invariant es g :
  run es initialGame = Some g -> wf_classes g /\ level_invariant g.
Proof.
  intros Hrun. split.
  - exact (run_classes es initialGame g Hrun initialGame_classes).
  - exact (run_level_invariant es initialGame g Hrun initialGame_classes
             initialGame_level_invariant).
Qed.

(** X9: in every state a run of the game reaches from the initial state,
    the level is 1, 2, 3 or 4, and it is 4 exactly on the victory screen;
    while a level is played and on the two screens that end it, the
    recorded initial count is 10 aliens for each of the level's
    [level + 2] rows; that count is always 0 (no level started yet), 30,
    40 or 50; and the alien array never holds more members than it. *)
Theorem run_level_bounds (es : list Event) (g : Game) :
  run es initialGame = Some g ->
  (1 <= currentLevel g <= 4)%Z
  /\ (gameState g = VICTORY <-> currentLevel g = 4%Z)
  /\ (gameState g = PLAYING \/ gameState g = LEVEL_COMPLETE
      \/ gameState g = GAME_OVER ->
      initialAlienCount g = ((currentLevel g + 2) * 10)%Z)
  /\ (initialAlienCount g = 0%Z \/ initialAlienCount g = 30%Z
      \/ initialAlienCount g = 40%Z \/ initialAlienCount g = 50%Z)
  /\ (SpriteGroup_length (alienGroup g) <= initialAlienCount g)%Z.
Proof.
  intros Hrun. destruct (run_invariant es g Hrun) as [_ []]. done.
Qed.

(** X9 on the state after [shotRun]: level 1 is being played, with 30
    aliens at the start. *)
Lemma run_level_bounds_witness :
  run shotRun initialGame = Some shotGame
  /\ gameState shotGame = PLAYING
  /\ initialAlienCount shotGame = ((currentLevel shotGame + 2) * 10)%Z
  /\ initialAlienCount shotGame = 30%Z.
Proof.
  split; [exact shotGame_reached|]. split; [reflexivity|].
  destruct (run_level_bounds shotRun shotGame shotGame_reached)
    as (_ & _ & Hc & _).
  split; [apply Hc; left; reflexivity | reflexivity].
Defined.

(** X10: in every state a run reaches, a registered interval timer has the
    period of the current level, which is 600, 500 or 400 ms, and the
    state is the menu, the instructions or play; on the level-complete,
    game-over and victory screens no timer is registered, so the callback
    that makes an alien fire cannot run there. *)
Theorem run_timer_registered (es : list Event) (g : Game) :
  run es initialGame = Some g ->
  (forall period, alienShootTimer g = Some period ->
     period = alienShootInterval (currentLevel g)
     /\ (period = 600 \/ period = 500 \/ period = 400)%Z
     /\ (gameState g = MENU \/ gameState g = INSTRUCTIONS
         \/ gameState g = PLAYING))
  /\ (gameState g = LEVEL_COMPLETE \/ gameState g = GAME_OVER
      \/ gameState g = VICTORY ->
      alienShootTimer g = None /\ forall rnd, step (Tick rnd) g = None).
Proof.
  intros Hrun.
  destruct (run_invariant es g Hrun) as [_ [H1 H2 H3 H4 H5 H6 H7 H8 H9]].
  split.
  - intros period Hp. destruct (H5 period Hp) as [-> Hl].
    split; [done|]. split; [apply alienShootInterval_levels; lia|].
    destruct (gameState g); try tauto; rewrite H6 in Hp by tauto; done.
  - intros Hend. rewrite (H6 Hend). split; [done|].
    intros rnd. simpl. by rewrite (H6 Hend).
Qed.

(** X10 on the state after [shotRun]: the timer of level 1 runs. *)
Lemma run_timer_registered_witness :
  run shotRun initialGame = Some shotGame
  /\ alienShootTimer shotGame = Some 600%Z
  /\ 600%Z = alienShootInterval (currentLevel shotGame).
Proof.
  split; [exact shotGame_reached|]. split; [reflexivity|].
  destruct (run_timer_registered shotRun shotGame shotGame_reached)
    as [Ht _].
  destruct (Ht 600%Z) as [He _]; [reflexivity | exact He].
Defined.

Lemma speedMultiplier_range (initial : Z) (aliens : SpriteGroup) :
  (SpriteGroup_length aliens <= initial)%Z ->
  1 <= speedMultiplier initial aliens /\ speedMultiplier initial aliens < 2.
Proof.
  intros Hle. unfold speedMultiplier.
  destruct (0 <? SpriteGroup_length aliens)%Z eqn:E; [|lra].
  apply Z.ltb_lt in E.
  set (n := SpriteGroup_length aliens) in *.
  assert (Hi : 0 < inject_Z initial).
  { change 0 with (inject_Z 0). rewrite <- Zlt_Qlt. lia. }
  assert (H0 : 0 <= inject_Z (initial - n) / inject_Z initial).
  { apply Qle_shift_div_l; [exact Hi|]. rewrite Qmult_0_l.
    change 0 with (inject_Z 0). rewrite <- Zle_Qle. lia. }
  assert (H1 : inject_Z (initial - n) / inject_Z initial < 1).
  { apply Qlt_shift_div_r; [exact Hi|]. rewrite Qmult_1_l.
    rewrite <- Zlt_Qlt. lia. }
  split; lra.
Qed.

(** X11: in every state a run reaches, the speed multiplier computed from
    the recorded initial count and the alien array is at least 1 and less
    than 2, so the horizontal step of an alien in a frame, 0.5 times the
    multiplier, is at least half a pixel and less than one. *)
Theorem run_speedMultiplier_range (es : list Event) (g : Game) :
  run es initialGame = Some g ->
  let m := speedMultiplier (initialAlienCount g) (alienGroup g) in
  (1 <= m /\ m < 2) /\ (0.5 <= 0.5 * m /\ 0.5 * m < 1).
Proof.
  intros Hrun m.
  destruct (run_invariant es g Hrun) as [_ [_ _ _ _ _ _ H7 _ _]].
  destruct (speedMultiplier_range _ _ H7) as [Hlo Hhi]. fold m in Hlo, Hhi.
  split; [done|]. split; lra.
Qed.

(** X11 on the state after [shotRun]. *)
Lemma run_speedMultiplier_range_witness :
  run shotRun initialGame = Some shotGame
  /\ (1 <= speedMultiplier (initialAlienCount shotGame) (alienGroup shotGame)
      /\ speedMultiplier (initialAlienCount shotGame) (alienGroup shotGame)
         < 2).
Proof.
  split; [exact shotGame_reached|].
  exact (proj1 (run_speedMultiplier_range shotRun shotGame shotGame_reached)).
Defined.

Lemma player_reachable_height p :
  player_reachable p ->
  y (rect p) == HEIGHT - 10 - 60 /\ height (rect p) == 60.
Proof.
  induction 1 as [id|keys p _ [Hy Hh]].
  - simpl. unfold HEIGHT. split; lra.
  - unfold Player_update. by case_tests.
Qed.

(** X12: in every state of play a run reaches, the player group holds
    exactly one sprite; it is a [Player], alive, its box is 60 high with
    its bottom edge 10 above the bottom of the screen, and it lies within
    the width of the screen. *)
Theorem run_one_player (es : list Event) (g : Game) :
  run es initialGame = Some g ->
  gameState g = PLAYING ->
  exists p,
    playerGroup g = [p]
    /\ SpriteGroupSingle_sprite (playerGroup g) = Some p
    /\ cls p = Player /\ isAlive p = true
    /\ 0 <= x (rect p) /\ x (rect p) + width (rect p) <= WIDTH
    /\ y (rect p) + height (rect p) == HEIGHT - 10
    /\ height (rect p) == 60.
Proof.
  intros Hrun Hs.
  destruct (run_invariant es g Hrun) as [[Hpl _] [_ _ _ _ _ _ _ _ H9]].
  specialize (H9 Hs).
  destruct (playerGroup g) as [|p [|q l]] eqn:Hg; try done.
  exists p. split; [done|]. split; [done|].
  apply Forall_cons in Hpl as [Hp _].
  destruct (player_reachable_Player p Hp) as [Hc Ha].
  destruct (player_reachable_height p Hp) as [Hy Hh].
  destruct (run_player_on_screen es g p Hrun) as (_ & Hx0 & Hx1).
  { rewrite Hg. by left. }
  repeat split; try done. rewrite Hy, Hh. lra.
Qed.

(** X12 on the state after [shotRun]. *)
Lemma run_one_player_witness :
  run shotRun initialGame = Some shotGame
  /\ gameState shotGame = PLAYING
  /\ exists p, playerGroup shotGame = [p] /\ isAlive p = true.
Proof.
  split; [exact shotGame_reached|]. split; [reflexivity|].
  destruct (run_one_player shotRun shotGame shotGame_reached eq_refl)
    as (p & Hg & _ & _ & Ha & _).
  exists p. split; [exact Hg | exact Ha].
Defined.

(** X13: a frame of play leaves the state at [PLAYING] or moves it to
    [MENU], [GAME_OVER] or [LEVEL_COMPLETE]; whenever it leaves [PLAYING]
    the interval timer is cleared; it goes to [MENU] exactly when the
    restart key is held, and then the level is 1 and the press is
    consumed; otherwise the level and the keyboard table are unchanged;
    the recorded initial count is never changed; and with the quit key
    held and not the restart key, the state stays [PLAYING] with the timer
    cleared. *)
Theorem updatePlaying_exits (now : Q) (g : Game) :
  gameState g = PLAYING ->
  let g' := gameLoop now g in
  (gameState g' = PLAYING \/ gameState g' = MENU
   \/ gameState g' = GAME_OVER \/ gameState g' = LEVEL_COMPLETE)
  /\ (gameState g' <> PLAYING -> alienShootTimer g' = None)
  /\ (gameState g' = MENU <-> held "KeyR" (pressedKeys g) = true)
  /\ (gameState g' = MENU ->
      currentLevel g' = 1%Z /\ held "KeyR" (pressedKeys g') = false)
  /\ (gameState g' <> MENU ->
      currentLevel g' = currentLevel g /\ pressedKeys g' = pressedKeys g)
  /\ initialAlienCount g' = initialAlienCount g
  /\ (held "KeyR" (pressedKeys g) = false ->
      held "KeyQ" (pressedKeys g) = true ->
      gameState g' = PLAYING /\ alienShootTimer g' = None).
Proof.
  intros Hs g'.
  assert (Hg' : g' = updatePlaying now g)
    by (unfold g', gameLoop; by rewrite Hs).
  clearbody g'. subst g'.
  destruct (updatePlaying_frame now g) as (Hi & _ & Hcases).
  set (g' := updatePlaying now g) in *. clearbody g'.
  destruct Hcases as [(HR & Hst & Hl & Ht & Hk & _)
                     |(HR & Hl & Hk & [(HQ & Hst & Ht & _)
                                      |(HQ & _ & Hout)])].
  - rewrite Hst, HR. repeat split; try done; tauto.
  - rewrite Hst, Hs, HR. repeat split; try done; tauto.
  - rewrite HR, HQ.
    destruct Hout as [[Hst Ht]|[Hst Ht]].
    + rewrite Hst, Hs. repeat split; try done; tauto.
    + destruct Hst as [Hst|Hst]; rewrite Hst; repeat split; try done; tauto.
Qed.

(** X13 on the first frame of level 1 with the restart key held. *)
Lemma updatePlaying_exits_witness :
  let g := set_pressedKeys (keydown "KeyR" ∅) freshLevel1 in
  gameState g = PLAYING
  /\ gameState (gameLoop 16 g) = MENU
  /\ alienShootTimer g = Some 600%Z
  /\ alienShootTimer (gameLoop 16 g) = None.
Proof.
  intros g. split; [reflexivity|].
  destruct (updatePlaying_exits 16 g eq_refl) as (_ & Ht & Hm & _).
  assert (Hst : gameState (gameLoop 16 g) = MENU)
    by (apply Hm; reflexivity).
  split; [exact Hst|]. split; [reflexivity|].
  apply Ht. rewrite Hst. discriminate.
Defined.

(** ** The timer callback *)

Lemma shooterIndex_range rnd g :
  0 <= rnd -> rnd < 1 -> alienGroup g <> [] ->
  (shooterIndex rnd g < length (alienGroup g))%nat.
Proof.
  intros H0 H1 Hne. unfold shooterIndex, SpriteGroup_length.
  set (n := Z.of_nat (length (alienGroup g))).
  assert (Hn : (0 < n)%Z).
  { unfold n. destruct (alienGroup g); [done | simpl; lia]. }
  assert (HnQ : 0 < inject_Z n).
  { change 0 with (inject_Z 0). by rewrite <- Zlt_Qlt. }
  assert (Hlo : (0 <= Qfloor (rnd * inject_Z n))%Z).
  { change 0%Z with (Qfloor 0). apply Qfloor_resp_le.
    apply Qmult_le_0_compat; lra. }
  assert (Hhi : (Qfloor (rnd * inject_Z n) < n)%Z).
  { rewrite Zlt_Qlt. eapply Qle_lt_trans; [apply Qfloor_le|].
    rewrite <- (Qmult_1_l (inject_Z n)) at 2.
    by apply Qmult_lt_compat_r. }
  unfold n in *. lia.
Qed.

Lemma shooterIndex_floor rnd g :
  0 <= rnd ->
  let p := rnd * inject_Z (SpriteGroup_length (alienGroup g)) in
  inject_Z (Z.of_nat (shooterIndex rnd g)) <= p
  /\ p < inject_Z (Z.of_nat (shooterIndex rnd g)) + 1.
Proof.
  intros H0 p. unfold shooterIndex. fold p.
  assert (Hp : 0 <= p).
  { unfold p, SpriteGroup_length. apply Qmult_le_0_compat; [exact H0|].
    change 0 with (inject_Z 0). rewrite <- Zle_Qle. lia. }
  assert (Hf : (0 <= Qfloor p)%Z).
  { change 0%Z with (Qfloor 0). by apply Qfloor_resp_le. }
  rewrite Z2Nat.id by exact Hf.
  split; [apply Qfloor_le|].
  change 1 with (inject_Z 1). rewrite <- inject_Z_plus. apply Qlt_floor.
Qed.

(** X14: when the interval timer fires with a non-empty alien array and
    [Math.random()] returns a value in [[0, 1)], a member of the array is
    the shooter, whether its alive flag is set or not: its index is within
    the array and is the integer part of the draw times the length, up to
    the rounding of that product.  One enemy bullet, alive, 5 by 15 and of
    speed 3, is appended to the enemy bullets, its top edge at the
    shooter's bottom edge and the middle of that edge at the middle of the
    shooter's, to within a millionth of a pixel (the machine rounds the
    two sums).  Nothing else changes but the counter of references.  With
    an empty array the callback changes nothing. *)
Theorem alienShoot_fires (rnd : Q) (g : Game) :
  0 <= rnd -> rnd < 1 ->
  (alienGroup g = [] -> alienShoot rnd g = g)
  /\ (alienGroup g <> [] ->
      exists (i : nat) (shooter b : Sprite),
        (i < length (alienGroup g))%nat
        /\ alienGroup g !! i = Some shooter
        /\ inject_Z (Z.of_nat i)
           <= rnd * inject_Z (SpriteGroup_length (alienGroup g))
              + (1 # 1000000)
        /\ rnd * inject_Z (SpriteGroup_length (alienGroup g)) - (1 # 1000000)
           < inject_Z (Z.of_nat i) + 1
        /\ enemyBulletGroup (alienShoot rnd g) = enemyBulletGroup g ++ [b]
        /\ sid b = nextId g /\ cls b = EnemyBullet /\ isAlive b = true
        /\ speed b = 3 /\ width (rect b) = 5 /\ height (rect b) = 15
        /\ x (rect shooter) + width (rect shooter) / 2 - (1 # 1000000)
           <= x (rect b) + width (rect b) / 2
        /\ x (rect b) + width (rect b) / 2
           <= x (rect shooter) + width (rect shooter) / 2 + (1 # 1000000)
        /\ y (rect b) == y (rect shooter) + height (rect shooter)
        /\ alienGroup (alienShoot rnd g) = alienGroup g
        /\ playerGroup (alienShoot rnd g) = playerGroup g
        /\ bulletGroup (alienShoot rnd g) = bulletGroup g
        /\ gameState (alienShoot rnd g) = gameState g
        /\ nextId (alienShoot rnd g) = S (nextId g)).
Proof.
  intros H0 H1. split.
  - intros He. unfold alienShoot. by rewrite He.
  - intros Hne.
    pose proof (shooterIndex_range rnd g H0 H1 Hne) as Hi.
    destruct (shooterIndex_floor rnd g H0) as [Hlo Hhi].
    destruct (lookup_lt_is_Some_2 _ _ Hi) as [shooter Hsh].
    exists (shooterIndex rnd g), shooter.
    eexists (new_EnemyBullet (nextId g) _ _).
    split; [exact Hi|]. split; [exact Hsh|].
    split; [lra|]. split; [lra|].
    unfold alienShoot.
    replace (0 <? SpriteGroup_length (alienGroup g))%Z with true.
    2:{ symmetry. apply Z.ltb_lt. unfold SpriteGroup_length.
        destruct (alienGroup g); [done | simpl; lia]. }
    cbv zeta. fold (shooterIndex rnd g). rewrite Hsh.
    split; [reflexivity|]. simpl.
    repeat split; try reflexivity; try field; lra.
Qed.

(** X14 for the first level and a draw of 27/32. *)
Lemma alienShoot_fires_witness :
  length (alienGroup freshLevel1) = 30%nat
  /\ length (enemyBulletGroup (alienShoot (27 # 32) freshLevel1)) = 1%nat
  /\ nextId (alienShoot (27 # 32) freshLevel1) = S (nextId freshLevel1).
Proof.
  split; [reflexivity|].
  destruct (alienShoot_fires (27 # 32) freshLevel1) as [_ H];
    [done | done |].
  destruct H as (i & shooter & b & _ & _ & _ & _ & Hb & _ & _ & _ & _ & _
                 & _ & _ & _ & _ & _ & _ & _ & _ & Hn); [done|].
  split; [by rewrite Hb | exact Hn].
Defined.

(** Why the index is given up to rounding: for the draw nearest to 16/30
    and 30 aliens, the product is less than 16 and the product the machine
    computes is 16. *)
Remark random_product_rounding :
  let rnd := binary64_of_ratio 16 30 in
  Qfloor (binary64_to_Q rnd * 30) = 15%Z
  /\ binary64_to_Q (SFmul 53 1024 rnd (binary64_of_Z 30)) == 16.
Proof. repeat split. Qed.

(** X15: every member of the alien array can be the shooter: for each
    index of the array there is a value of [Math.random()] in [[0, 1)]
    for which the callback computes that index, also when the member
    there has been killed and not yet swept. *)
Theorem alienShoot_any_member (g : Game) (i : nat) (shooter : Sprite) :
  alienGroup g !! i = Some shooter ->
  exists rnd, 0 <= rnd /\ rnd < 1 /\ shooterIndex rnd g = i.
Proof.
  intros Hsh. apply lookup_lt_Some in Hsh.
  set (n := Z.of_nat (length (alienGroup g))).
  assert (Hn : (0 < n)%Z) by (unfold n; lia).
  assert (HnQ : 0 < inject_Z n).
  { change 0 with (inject_Z 0). by rewrite <- Zlt_Qlt. }
  exists (inject_Z (Z.of_nat i) / inject_Z n).
  split; [|split].
  - apply Qle_shift_div_l; [exact HnQ|]. rewrite Qmult_0_l.
    change 0 with (inject_Z 0). rewrite <- Zle_Qle. lia.
  - apply Qlt_shift_div_r; [exact HnQ|]. rewrite Qmult_1_l.
    rewrite <- Zlt_Qlt. unfold n. lia.
  - unfold shooterIndex, SpriteGroup_length. fold n.
    assert (He : inject_Z (Z.of_nat i) / inject_Z n * inject_Z n
                 == inject_Z (Z.of_nat i)) by (field; lra).
    rewrite He, Qfloor_Z. lia.
Qed.

(** X15 on the state after [shotRun], where the alien of index 25 is
    dead and still in the array. *)
Lemma alienShoot_any_member_witness :
  exists shooter rnd,
    alienGroup shotGame !! 25%nat = Some shooter
    /\ isAlive shooter = false
    /\ 0 <= rnd /\ rnd < 1 /\ shooterIndex rnd shotGame = 25%nat.
Proof.
  pose (shooter := default (new_Player 0) (alienGroup shotGame !! 25%nat)).
  assert (Hsh : alienGroup shotGame !! 25%nat = Some shooter)
    by (vm_compute; reflexivity).
  destruct (alienShoot_any_member shotGame 25 shooter Hsh)
    as (rnd & H0 & H1 & Hi).
  exists shooter, rnd. split; [exact Hsh|].
  split; [vm_compute; reflexivity|]. done.
Defined.

(** ** The moves of the player *)

Lemma Player_update_step keys p :
  speed p == 3 -> width (rect p) == 50 ->
  0 <= x (rect p) -> x (rect p) <= 750 ->
  let lt := held "ArrowLeft" keys in
  let rt := held "ArrowRight" keys in
  let x' := x (rect (Player_update keys p)) in
  (lt = false -> rt = false -> x' == x (rect p))
  /\ (lt = true -> rt = false ->
      (0 < x (rect p) -> x' == x (rect p) - 3)
      /\ (x (rect p) == 0 -> x' == 0))
  /\ (lt = false -> rt = true ->
      (x (rect p) < 750 -> x' == x (rect p) + 3)
      /\ (x (rect p) == 750 -> x' == 750))
  /\ (lt = true -> rt = true ->
      (0 < x (rect p) -> x' == x (rect p))
      /\ (x (rect p) == 0 -> x' == 3)).
Proof.
  intros Hs Hw H0 H1. cbv zeta. unfold Player_update, WIDTH.
  destruct (held "ArrowLeft" keys), (held "ArrowRight" keys); cbn [andb].
  all: repeat split; try done; intros Hx.
  all: repeat match goal with
         | |- context [Qltb ?a ?b] =>
             let E := fresh "E" in
             destruct (Qltb a b) eqn:E;
             [apply Qltb_lt in E | apply Qltb_ge in E]
         end; simpl in *; lra.
Qed.

(** X16: what one update does to a player in a position it can reach.
    With no arrow key held it stays; with the left one only it moves 3
    to the left, and stays when it is at the left edge; with the right one
    only it moves 3 to the right, and stays at the right edge
    ([x = 750]); with both held it moves left and back and stays, except
    at the left edge, where only the move to the right is made.  Its
    height on the screen, its size and its alive flag never change. *)
Theorem Player_update_moves (keys : Keys) (p : Sprite) :
  player_reachable p ->
  let lt := held "ArrowLeft" keys in
  let rt := held "ArrowRight" keys in
  let p' := Player_update keys p in
  (lt = false -> rt = false -> x (rect p') == x (rect p))
  /\ (lt = true -> rt = false ->
      (0 < x (rect p) -> x (rect p') == x (rect p) - 3)
      /\ (x (rect p) == 0 -> x (rect p') == 0))
  /\ (lt = false -> rt = true ->
      (x (rect p) < 750 -> x (rect p') == x (rect p) + 3)
      /\ (x (rect p) == 750 -> x (rect p') == 750))
  /\ (lt = true -> rt = true ->
      (0 < x (rect p) -> x (rect p') == x (rect p))
      /\ (x (rect p) == 0 -> x (rect p') == 3))
  /\ y (rect p') = y (rect p) /\ width (rect p') = width (rect p)
  /\ height (rect p') = height (rect p) /\ isAlive p' = isAlive p.
Proof.
  intros Hp. cbv zeta.
  destruct (player_reachable_on_grid p Hp) as (k & Hk & Hx & Hw & Hs).
  assert (inject_Z 0 <= inject_Z k) as H0 by (rewrite <- Zle_Qle; lia).
  assert (inject_Z k <= inject_Z 250) as H1 by (rewrite <- Zle_Qle; lia).
  change (inject_Z 0) with 0 in H0.
  change (inject_Z 250) with 250 in H1.
  destruct (Player_update_step keys p Hs Hw) as (Hn & Hl & Hr & Hb);
    [lra | lra |].
  do 4 (split; [assumption|]).
  unfold Player_update. by case_tests.
Qed.

(** X16 at the left edge, with both arrow keys held. *)
Lemma Player_update_moves_witness :
  let keys : Keys := keydown "ArrowRight" (keydown "ArrowLeft" ∅) in
  let p := Nat.iter 125 (Player_update (keydown "ArrowLeft" ∅)) (new_Player 0) in
  x (rect p) == 0 /\ x (rect (Player_update keys p)) == 3.
Proof.
  intros keys p.
  assert (Hx : x (rect p) == 0) by (vm_compute; reflexivity).
  split; [exact Hx|].
  assert (Hp : player_reachable p).
  { unfold p. generalize 125%nat. intros n.
    induction n as [|n IH]; [apply reach_new | apply reach_update, IH]. }
  destruct (Player_update_moves keys p Hp) as (_ & _ & _ & Hb & _).
  apply Hb; [reflexivity | reflexivity | exact Hx].
Defined.

(** ** The march of the formation *)

Lemma x_Alien_update mr m now s :
  x (rect (Alien_update mr m now s))
  = if mr then x (rect s) + 0.5 * m else x (rect s) - 0.5 * m.
Proof. unfold Alien_update. by case_tests. Qed.

Lemma speedMultiplier_length initial (g g' : SpriteGroup) :
  length g = length g' ->
  speedMultiplier initial g = speedMultiplier initial g'.
Proof. intros H. unfold speedMultiplier, SpriteGroup_length. by rewrite H. Qed.

Lemma reverseFormation_keeps_course g :
  ~ atEdge (movingRight g) (alienGroup g) -> reverseFormation g = g.
Proof.
  intros Hn. unfold reverseFormation.
  destruct (changeDirection _ _) eqn:E; [|done].
  by apply changeDirection_atEdge in E.
Qed.

Lemma reverseFormation_columns g :
  map (fun a => (sid a, cls a, isAlive a, x (rect a)))
      (alienGroup (reverseFormation g))
  = map (fun a => (sid a, cls a, isAlive a, x (rect a))) (alienGroup g).
Proof.
  unfold reverseFormation. destruct (changeDirection _ _); [|done].
  simpl. by rewrite map_map.
Qed.

(** The living aliens of an array after one [update]. *)
Lemma alien_update_columns keys now mr m (g h : SpriteGroup) :
  Forall (fun a => cls a = Alien) g ->
  map (fun a => (sid a, cls a, isAlive a, x (rect a))) h
  = map (fun a => (sid a, cls a, isAlive a, x (rect a))) g ->
  map (fun a => (sid a, x (rect a)))
      (SpriteGroup_update (Sprite_update keys now (Some (mr, m))) h)
  = map (fun a =>
           (sid a, if mr then x (rect a) + 0.5 * m else x (rect a) - 0.5 * m))
        (List.filter isAlive g).
Proof.
  intros Hcls. rewrite SpriteGroup_update_filter. revert h.
  induction Hcls as [|a g Ha _ IH]; intros [|b h] Hmap; try done.
  simpl in Hmap. injection Hmap as Hs Hc Hal Hx Hrest.
  simpl. rewrite Hal. destruct (isAlive a); simpl; [|by apply IH].
  rewrite (IH h Hrest). f_equal.
  unfold Sprite_update. rewrite Hc, Ha.
  by rewrite sid_Alien_update, x_Alien_update, Hs, Hx.
Qed.

Lemma map_eq_Forall2 {A B C : Type} (f : B -> C) (h : A -> C)
    (l : list A) (l' : list B) :
  map f l' = map h l -> Forall2 (fun a a' => f a' = h a) l l'.
Proof.
  revert l'. induction l as [|a l IH]; intros [|b l'] H; try done.
  injection H as Hab Hrest. constructor; [exact Hab | by apply IH].
Qed.

(** The frame in this model, where the sums are exact. *)
Lemma formation_march_exact (now : Q) (g : Game) :
  gameState g = PLAYING ->
  held "KeyR" (pressedKeys g) = false ->
  held "KeyQ" (pressedKeys g) = false ->
  Forall (fun a => cls a = Alien) (alienGroup g) ->
  let g' := gameLoop now g in
  let m := speedMultiplier (initialAlienCount g) (alienGroup g) in
  map (fun a => (sid a, x (rect a))) (alienGroup g')
  = map (fun a =>
           (sid a,
            if movingRight g' then x (rect a) + 0.5 * m
            else x (rect a) - 0.5 * m))
        (List.filter isAlive (alienGroup g))
  /\ (~ atEdge (movingRight g) (alienGroup g) ->
      movingRight g' = movingRight g
      /\ map (fun a => (sid a, y (rect a))) (alienGroup g')
         = map (fun a => (sid a, y (rect a)))
               (List.filter isAlive (alienGroup g)))
  /\ (atEdge (movingRight g) (alienGroup g) ->
      movingRight g' = negb (movingRight g)
      /\ map (fun a => (sid a, y (rect a))) (alienGroup g')
         = map (fun a =>
                  (sid a, y (rect a) + descentAmount (currentLevel g)))
               (List.filter isAlive (alienGroup g))).
Proof.
  intros Hst HR HQ Hcls g' m.
  assert (Hg' : g' = settle (advance now (playerShoot now g))).
  { unfold g', gameLoop. rewrite Hst. by apply updatePlaying_plays. }
  destruct (playerShoot_frame now g)
    as (_ & Hk & Hl & _ & _ & Ha & Hi & _ & Hm).
  clearbody g'. subst g'. unfold m. clear m.
  set (g1 := playerShoot now g) in *. clearbody g1.
  pose proof (advance_alienGroup now g1) as Hadv. cbv zeta in Hadv.
  pose proof (reverseFormation_columns (updateGroups now g1)) as Hcol.
  set (h := reverseFormation (updateGroups now g1)) in *.
  assert (Hmr : movingRight (settle (advance now g1)) = movingRight h).
  { rewrite settle_movingRight. unfold advance, shootAliens, moveAliens.
    reflexivity. }
  change (alienGroup (updateGroups now g1)) with (alienGroup g1) in Hcol.
  rewrite Ha in Hcol.
  assert (Hlen : length (alienGroup h) = length (alienGroup g)).
  { apply (f_equal length) in Hcol. by rewrite !length_map in Hcol. }
  split; [|split].
  - rewrite settle_alienGroup, Hmr.
    rewrite (same_or_killed_map (fun a => (sid a, x (rect a))) _ _
               (fun s => eq_refl) Hadv).
    rewrite Hi, (speedMultiplier_length _ _ _ Hlen).
    by apply alien_update_columns.
  - intros Hn.
    assert (Hh : h = updateGroups now g1).
    { apply reverseFormation_keeps_course. simpl. by rewrite Ha, Hm. }
    split.
    + rewrite Hmr, Hh. simpl. exact Hm.
    + rewrite settle_alienGroup.
      rewrite (same_or_killed_map (fun a => (sid a, y (rect a))) _ _
                 (fun s => eq_refl) Hadv).
      rewrite Hh. simpl. rewrite Ha.
      rewrite SpriteGroup_update_filter, map_map. apply map_ext_in.
      intros a Hin. apply filter_In in Hin as [Hin _].
      rewrite List.Forall_forall in Hcls. specialize (Hcls a Hin).
      unfold Sprite_update. rewrite Hcls.
      by rewrite sid_Alien_update, y_Alien_update.
  - intros Hedge.
    assert (Hedge1 : atEdge (movingRight (updateGroups now g1))
                            (alienGroup (updateGroups now g1))).
    { simpl. by rewrite Ha, Hm. }
    destruct (reverseFormation_atEdge _ Hedge1) as [Hrev Hal].
    fold h in Hrev, Hal.
    split.
    + rewrite Hmr, Hrev. simpl. by rewrite Hm.
    + rewrite settle_alienGroup.
      rewrite (same_or_killed_map (fun a => (sid a, y (rect a))) _ _
                 (fun s => eq_refl) Hadv).
      rewrite SpriteGroup_update_filter, Hal. simpl. rewrite Ha, Hl.
      rewrite filter_isAlive_map by done.
      rewrite !map_map. apply map_ext_in.
      intros a Hin. apply filter_In in Hin as [Hin _].
      rewrite List.Forall_forall in Hcls. specialize (Hcls a Hin).
      unfold Sprite_update. simpl. rewrite Hcls.
      by rewrite sid_Alien_update, y_Alien_update.
Qed.

(** X17: in a [PLAYING] frame with neither the restart nor the quit key
    held, and with no more aliens in the array than the session started
    with, the aliens of the group afterwards are those that were alive
    before, in their order.  Each has moved sideways, to the right or to
    the left according to the direction the frame ends with, by 0.5 times
    the speed multiplier, to within a millionth of a pixel (the machine
    rounds the multiplier and the sum); the multiplier is the one of the
    array as the frame finds it, killed aliens not yet swept included.
    Either the direction is kept and no alien changes its height, or the
    direction is reversed and every alien is [10 + level * 5] lower; the
    first is the case when no alien of the array is on the edge the
    formation moves towards. *)
Theorem formation_march (now : Q) (g : Game) :
  gameState g = PLAYING ->
  held "KeyR" (pressedKeys g) = false ->
  held "KeyQ" (pressedKeys g) = false ->
  Forall (fun a => cls a = Alien) (alienGroup g) ->
  (SpriteGroup_length (alienGroup g) <= initialAlienCount g)%Z ->
  let g' := gameLoop now g in
  let m := speedMultiplier (initialAlienCount g) (alienGroup g) in
  let survivors := List.filter isAlive (alienGroup g) in
  map sid (alienGroup g') = map sid survivors
  /\ Forall2
       (fun a a' =>
          let target :=
            if movingRight g' then x (rect a) + 0.5 * m
            else x (rect a) - 0.5 * m in
          target - (1 # 1000000) <= x (rect a')
          /\ x (rect a') <= target + (1 # 1000000))
       survivors (alienGroup g')
  /\ ((movingRight g' = movingRight g
       /\ map (fun a => (sid a, y (rect a))) (alienGroup g')
          = map (fun a => (sid a, y (rect a))) survivors)
      \/ (movingRight g' = negb (movingRight g)
          /\ map (fun a => (sid a, y (rect a))) (alienGroup g')
             = map (fun a =>
                      (sid a, y (rect a) + descentAmount (currentLevel g)))
                   survivors))
  /\ (~ atEdge (movingRight g) (alienGroup g) ->
      movingRight g' = movingRight g
      /\ map (fun a => (sid a, y (rect a))) (alienGroup g')
         = map (fun a => (sid a, y (rect a))) survivors).
Proof.
  intros Hst HR HQ Hcls _ g' m survivors.
  destruct (formation_march_exact now g Hst HR HQ Hcls) as (Hx & Hkeep & Hrev).
  fold g' m survivors in Hx, Hkeep, Hrev. clearbody g' m survivors.
  split; [|split; [|split]].
  - apply (f_equal (map fst)) in Hx. by rewrite !map_map in Hx.
  - apply map_eq_Forall2 in Hx.
    eapply Forall2_impl; [exact Hx|].
    intros a a' [= _ He]. cbv zeta. rewrite He. split; lra.
  - destruct (changeDirection (movingRight g) (alienGroup g)) eqn:E.
    + right. by apply Hrev, changeDirection_atEdge.
    + left. apply Hkeep. intros Hedge.
      apply changeDirection_atEdge in Hedge. congruence.
  - exact Hkeep.
Qed.

(** X17 on the first frame of level 1: nothing is on an edge, the thirty
    aliens stay in their rows and the formation keeps moving rightward. *)
Lemma formation_march_witness :
  movingRight (gameLoop 16 freshLevel1) = true
  /\ speedMultiplier 30 (alienGroup freshLevel1) == 1
  /\ length (List.filter isAlive (alienGroup freshLevel1)) = 30%nat
  /\ map sid (alienGroup (gameLoop 16 freshLevel1))
     = map sid (List.filter isAlive (alienGroup freshLevel1))
  /\ map (fun a => (sid a, y (rect a))) (alienGroup (gameLoop 16 freshLevel1))
     = map (fun a => (sid a, y (rect a)))
           (List.filter isAlive (alienGroup freshLevel1)).
Proof.
  destruct (formation_march 16 freshLevel1) as (Hs & _ & _ & Hy);
    [reflexivity | reflexivity | reflexivity
    | apply List.Forall_forall; intros a Ha;
      apply in_flat_map in Ha as (row & _ & Ha);
      apply in_map_iff in Ha as (col & <- & _); reflexivity
    | vm_compute; discriminate |].
  destruct Hy as [Hm Hy].
  { intros H. apply changeDirection_atEdge in H. vm_compute in H.
    discriminate H. }
  split; [exact Hm|]. split; [reflexivity|]. split; [reflexivity|].
  split; [exact Hs | exact Hy].
Defined.

(** ** An alien reaches the player *)





(** ** The player's fire *)

(** X19: the shooting step of a frame of play.  It either changes nothing
    or appends one bullet to the player's bullets: alive, 5 by 15, of
    speed 7, the middle of its bottom edge at the middle of the player's
    top edge, and records the clock of the frame as the time of the shot.
    It fires only with the fire key held and more than 500 ms on the clock
    since the last shot: with the key up, or 500 ms or less elapsed, it
    changes nothing.  With the key held and a player in the group it does
    fire once the time elapsed exceeds 500 ms by a microsecond (the
    machine rounds the difference of the two readings, by far less than
    that). *)
Theorem playerShoot_fires (now : Q) (g : Game) (player : Sprite) :
  SpriteGroupSingle_sprite (playerGroup g) = Some player ->
  (playerShoot now g = g
   \/ (held "Space" (pressedKeys g) = true
       /\ SHOOT_DELAY < now - lastShotTime g
       /\ exists b,
            bulletGroup (playerShoot now g) = bulletGroup g ++ [b]
            /\ sid b = nextId g /\ cls b = Bullet /\ isAlive b = true
            /\ speed b = 7 /\ width (rect b) = 5 /\ height (rect b) = 15
            /\ x (rect b) + width (rect b) / 2
               == x (rect player) + width (rect player) / 2
            /\ y (rect b) + height (rect b) == y (rect player)
            /\ lastShotTime (playerShoot now g) = now
            /\ nextId (playerShoot now g) = S (nextId g)
            /\ playerGroup (playerShoot now g) = playerGroup g
            /\ enemyBulletGroup (playerShoot now g) = enemyBulletGroup g
            /\ alienGroup (playerShoot now g) = alienGroup g))
  /\ (held "Space" (pressedKeys g) = false
      \/ now - lastShotTime g <= SHOOT_DELAY ->
      playerShoot now g = g)
  /\ (held "Space" (pressedKeys g) = true ->
      SHOOT_DELAY + (1 # 1000) <= now - lastShotTime g ->
      length (bulletGroup (playerShoot now g))
      = S (length (bulletGroup g))).
Proof.
  intros Hp. unfold playerShoot. rewrite Hp. split; [|split].
  - destruct (held "Space" (pressedKeys g)); [|by left].
    destruct (Qltb SHOOT_DELAY (now - lastShotTime g)) eqn:Hd; [|by left].
    right. apply Qltb_lt in Hd. split; [done|]. split; [exact Hd|].
    eexists (new_Bullet (nextId g) _ _). split; [reflexivity|].
    simpl. repeat split; try reflexivity; field.
  - intros [-> | Hd]; [done|].
    apply Qltb_ge in Hd. rewrite Hd. by destruct (held _ _).
  - intros -> Hd.
    assert (Hlt : Qltb SHOOT_DELAY (now - lastShotTime g) = true)
      by (apply Qltb_lt; lra).
    rewrite Hlt. cbn [bulletGroup set_lastShotTime set_nextId set_bulletGroup].
    unfold SpriteGroup_add. rewrite length_app. simpl. lia.
Qed.

(** X19 on the first level, 600 ms after its start. *)
Lemma playerShoot_fires_witness :
  let g := set_pressedKeys (keydown "Space" ∅) freshLevel1 in
  length (bulletGroup g) = 0%nat
  /\ length (bulletGroup (playerShoot 600 g)) = 1%nat.
Proof.
  intros g. split; [reflexivity|].
  destruct (playerShoot_fires 600 g (new_Player 0)) as (_ & _ & Hf);
    [reflexivity|].
  assert (Hk : held "Space" (pressedKeys g) = true) by reflexivity.
  assert (Hd : SHOOT_DELAY + (1 # 1000) <= 600 - lastShotTime g)
    by (vm_compute; discriminate).
  exact (Hf Hk Hd).
Defined.

(** What an event of a level session adds to the two kinds of bullets, to
    the counter of references and to the time of the last shot: a player
    bullet is added by a frame only, and only with more than 500 ms on its
    clock since the last shot. *)
Lemma sessionStep_added e g g' :
  sessionStep e g = Some g' ->
  (nextId g' = nextId g + bulletsAdded [e] g + enemyBulletsAdded [e] g)%nat
  /\ ((bulletsAdded [e] g = 0%nat /\ lastShotTime g' = lastShotTime g)
      \/ (exists now,
            e = Frame now /\ bulletsAdded [e] g = 1%nat
            /\ lastShotTime g' = now
            /\ SHOOT_DELAY < now - lastShotTime g)).
Proof.
  intros He. cbn [bulletsAdded enemyBulletsAdded]. rewrite He.
  rewrite !Nat.add_0_r.
  destruct e as [code|code|now|rnd]; simpl in He.
  - injection He as <-. split; [simpl; lia | by left].
  - injection He as <-. split; [simpl; lia | by left].
  - destruct (gameState g) eqn:Hst; try done.
    injection He as <-. unfold gameLoop. rewrite Hst.
    assert (Hfr : nextId (updatePlaying now g) = nextId (playerShoot now g)
                  /\ lastShotTime (updatePlaying now g)
                     = lastShotTime (playerShoot now g)).
    { unfold updatePlaying. cbv zeta.
      destruct (held "KeyR" _); [done|].
      destruct (held "KeyQ" _); [done|].
      destruct (settle_frame (advance now (playerShoot now g)))
        as (_ & _ & _ & -> & -> & _).
      by destruct (advance_frame now (playerShoot now g))
        as (_ & _ & _ & _ & _ & -> & ->). }
    destruct Hfr as [-> ->]. generalize (updatePlaying now g). intros _.
    unfold playerShoot.
    destruct (held "Space" _); [|split; [lia | left; split; [lia | done]]].
    destruct (Qltb _ _) eqn:E;
      [|split; [lia | left; split; [lia | done]]].
    destruct (SpriteGroupSingle_sprite _);
      [|split; [lia | left; split; [lia | done]]].
    apply Qltb_lt in E.
    cbn [bulletGroup nextId lastShotTime set_lastShotTime set_nextId
         set_bulletGroup].
    unfold SpriteGroup_add. rewrite length_app. simpl.
    split; [lia|]. right. exists now. repeat split; [lia | exact E].
  - destruct (alienShootTimer g); [|done].
    destruct (_ && _); [|done]. injection He as <-.
    unfold alienShoot. destruct (0 <? _)%Z; [|split; [lia | by left]].
    cbv zeta. destruct (alienGroup g !! _);
      [|split; [lia | by left]].
    cbn [enemyBulletGroup nextId lastShotTime set_nextId
         set_enemyBulletGroup].
    unfold SpriteGroup_add. rewrite length_app. simpl.
    split; [lia | by left].
Qed.

Lemma bulletsAdded_cons e es g gm :
  sessionStep e g = Some gm ->
  bulletsAdded (e :: es) g = (bulletsAdded [e] g + bulletsAdded es gm)%nat
  /\ enemyBulletsAdded (e :: es) g
     = (enemyBulletsAdded [e] g + enemyBulletsAdded es gm)%nat.
Proof.
  intros He. cbn [bulletsAdded enemyBulletsAdded]. rewrite He. lia.
Qed.

(** After a shot, events whose frames come at most 500 ms after it add no
    player bullet. *)
Lemma sessionRun_reloading es : forall g g',
  Forall (fun now => now - lastShotTime g <= SHOOT_DELAY) (frameTimes es) ->
  sessionRun es g = Some g' ->
  bulletsAdded es g = 0%nat.
Proof.
  induction es as [|e es IH]; intros g g' Hall Hrun; [done|].
  simpl in Hrun. destruct (sessionStep e g) as [gm|] eqn:He; [|done].
  destruct (bulletsAdded_cons e es g gm He) as [-> _].
  destruct (sessionStep_added e g gm He)
    as [_ [[-> Ht]|(now & -> & _ & _ & Hd)]].
  - apply (IH gm g'); [|exact Hrun].
    rewrite Ht. unfold frameTimes in *. simpl in Hall.
    apply Forall_app in Hall. tauto.
  - simpl in Hall. apply Forall_cons in Hall as [Hnow _]. lra.
Qed.

(** X20: in a stretch of a level session (frames of play, key presses and
    releases, firings of the alien timer) in which the clock readings of
    the frames all lie in one interval of 500 ms, the shooting steps add
    at most one player bullet, however long the fire key is held and
    however often it is pressed; and every sprite constructed during the
    stretch is one of the player bullets and enemy bullets so added. *)
Theorem fire_cooldown (start : Q) (es : list Event) (g g' : Game) :
  Forall (fun now => start <= now /\ now <= start + SHOOT_DELAY)
         (frameTimes es) ->
  sessionRun es g = Some g' ->
  (bulletsAdded es g <= 1)%nat
  /\ (nextId g' = nextId g + bulletsAdded es g + enemyBulletsAdded es g)%nat.
Proof.
  revert g. induction es as [|e es IH]; intros g Hall Hrun.
  - injection Hrun as <-. simpl. lia.
  - simpl in Hrun. destruct (sessionStep e g) as [gm|] eqn:He; [|done].
    destruct (bulletsAdded_cons e es g gm He) as [-> ->].
    assert (Hrest : Forall (fun now => start <= now
                                       /\ now <= start + SHOOT_DELAY)
                           (frameTimes es)).
    { unfold frameTimes in *. simpl in Hall.
      apply Forall_app in Hall. tauto. }
    destruct (IH gm Hrest Hrun) as [IH1 IH2].
    destruct (sessionStep_added e g gm He)
      as [Hn [[Hz Ht]|(now & -> & H1 & Ht & _)]].
    + split; lia.
    + assert (Hre : Forall (fun t => t - lastShotTime gm <= SHOOT_DELAY)
                           (frameTimes es)).
      { rewrite Ht. simpl in Hall. apply Forall_cons in Hall as [Hnow _].
        eapply List.Forall_impl; [|exact Hrest].
        intros t [Hlo Hhi]. simpl in *. lra. }
      pose proof (sessionRun_reloading es gm g' Hre Hrun) as H0.
      split; lia.
Qed.

(** X20 on the first level: the fire key is held for 31 frames from 600 ms
    to 1100 ms after the start, the alien timer fires once in between, and
    one bullet is fired by the player. *)
Lemma fire_cooldown_witness :
  let g :=
    startGameLoop 0
      (set_pressedKeys (keydown "Space" ∅)
         (set_gameState PLAYING initialGame)) in
  let frames k0 n :=
    map (fun k => Frame (600 + inject_Z (Z.of_nat k) * (50 # 3))) (seq k0 n) in
  let es := frames 0%nat 10%nat ++ [Tick (27 # 32)] ++ frames 10%nat 21%nat in
  exists g',
    sessionRun es g = Some g'
    /\ bulletsAdded es g = 1%nat
    /\ enemyBulletsAdded es g = 1%nat
    /\ nextId g' = (nextId g + 2)%nat.
Proof.
  intros g frames es.
  pose (g' := default g (sessionRun es g)).
  assert (Hrun : sessionRun es g = Some g') by (vm_compute; reflexivity).
  assert (Hfr : forall k0 n,
             (k0 + n <= 31)%nat ->
             Forall (fun now => 600 <= now /\ now <= 600 + SHOOT_DELAY)
                    (frameTimes (frames k0 n))).
  { intros k0 n Hk. unfold frames, frameTimes.
    rewrite flat_map_concat_map, map_map, <- flat_map_concat_map.
    apply List.Forall_forall. intros t Ht.
    apply in_flat_map in Ht as (k & Hin & [<-|[]]). apply in_seq in Hin.
    assert (inject_Z 0 <= inject_Z (Z.of_nat k)) as H0
      by (rewrite <- Zle_Qle; lia).
    assert (inject_Z (Z.of_nat k) <= inject_Z 30) as H1
      by (rewrite <- Zle_Qle; lia).
    change (inject_Z 0) with 0 in H0. change (inject_Z 30) with 30 in H1.
    unfold SHOOT_DELAY. split; lra. }
  assert (Hall : Forall (fun now => 600 <= now /\ now <= 600 + SHOOT_DELAY)
                        (frameTimes es)).
  { unfold es, frameTimes. rewrite !flat_map_app.
    apply Forall_app. split; [apply Hfr; lia|].
    apply Forall_app. split; [constructor | apply Hfr; lia]. }
  destruct (fire_cooldown 600 es g g' Hall Hrun) as [_ Hid].
  assert (Hb : bulletsAdded es g = 1%nat) by (vm_compute; reflexivity).
  assert (He : enemyBulletsAdded es g = 1%nat) by (vm_compute; reflexivity).
  exists g'. split; [exact Hrun|]. split; [exact Hb|]. split; [exact He|].
  rewrite Hid, Hb, He, <- Nat.add_assoc. reflexivity.
Defined.

(** ** A new level session *)

(** The members of the grid, by row and column. *)
Lemma alienGrid_member id0 now rows a :
  In a (alienGrid id0 now rows) <->
  exists row col,
    (row < Z.to_nat rows)%nat /\ (col < cols)%nat
    /\ a = new_Alien (id0 + row * cols + col) now
             (inject_Z (Z.of_nat col) * 60 + 50)
             (inject_Z (Z.of_nat row) * 50 + 30).
Proof.
  unfold alienGrid, alienRow. rewrite in_flat_map. split.
  - intros (row & Hrow & Ha). apply in_map_iff in Ha as (col & <- & Hcol).
    apply in_seq in Hrow, Hcol. exists row, col. repeat split; [lia | lia].
  - intros (row & col & Hrow & Hcol & ->). exists row.
    split; [apply in_seq; lia|]. apply in_map_iff. exists col.
    split; [done | apply in_seq; lia].
Qed.

Lemma startGameLoop_fresh now g s :
  In s (allSprites (startGameLoop now g)) ->
  isAlive s = true /\ (nextId g <= sid s)%nat.
Proof.
  unfold allSprites, startGameLoop. cbn [playerGroup bulletGroup
    enemyBulletGroup alienGroup SpriteGroupSingle_add app].
  intros [<-|Ha]; [simpl; split; [done | lia]|].
  apply alienGrid_member in Ha as (row & col & _ & _ & ->).
  simpl. split; [done | lia].
Qed.

(** What [startGameLoop] builds, whatever the session before it. *)
Lemma startGameLoop_session now g :
  let g' := startGameLoop now g in
  (exists p,
      playerGroup g' = [p] /\ cls p = Player /\ isAlive p = true
      /\ sid p = nextId g
      /\ x (rect p) == 375 /\ y (rect p) == 530
      /\ width (rect p) = 50 /\ height (rect p) = 60)
  /\ bulletGroup g' = [] /\ enemyBulletGroup g' = []
  /\ length (alienGroup g') = (Z.to_nat (3 + (currentLevel g - 1)) * 10)%nat
  /\ Forall (fun a => cls a = Alien /\ isAlive a = true) (alienGroup g')
  /\ Forall (fun s => (nextId g <= sid s)%nat) (allSprites g')
  /\ initialAlienCount g' = SpriteGroup_length (alienGroup g')
  /\ alienShootTimer g' = Some (alienShootInterval (currentLevel g))
  /\ movingRight g' = true /\ lastShotTime g' = now.
Proof.
  cbv zeta. split; [|split; [done|split; [done|split; [|split; [|split]]]]].
  - exists (new_Player (nextId g)). unfold startGameLoop. simpl.
    repeat split; reflexivity.
  - unfold startGameLoop. cbn [alienGroup]. apply length_alienGrid.
  - apply List.Forall_forall. intros a Ha.
    unfold startGameLoop in Ha. cbn [alienGroup] in Ha.
    by apply alienGrid_member in Ha as (row & col & _ & _ & ->).
  - apply List.Forall_forall. intros s Hs.
    by destruct (startGameLoop_fresh now g s Hs).
  - done.
Qed.

(** C9: in [LEVEL_COMPLETE], a frame that finds the confirm key (Enter)
    held consumes the press and adds one to the level.  If the new level
    is at most 3 the state becomes [PLAYING] and a new level session is
    created for the new level: one new player, alive, at its starting
    place; no bullet of either side; [10 * (new level + 2)] new aliens,
    all alive, their number recorded as the initial count; the timer
    registered with the period of the new level; the formation moving
    rightward; the clock of the last shot set to the frame's; every sprite
    a new object.  If the new level exceeds 3 the state becomes
    [VICTORY] and nothing else changes. *)
Theorem updateLevelComplete_confirm (now : Q) (g : Game) :
  gameState g = LEVEL_COMPLETE ->
  held "Enter" (pressedKeys g) = true ->
  let g' := gameLoop now g in
  let next :=
    set_currentLevel (currentLevel g + 1)%Z
                     (consume "Escape" (consume "Enter" g)) in
  currentLevel g' = (currentLevel g + 1)%Z
  /\ held "Enter" (pressedKeys g') = false
  /\ ((currentLevel g + 1 <= 3)%Z ->
      gameState g' = PLAYING
      /\ g' = startGameLoop now (set_gameState PLAYING next)
      /\ (exists p,
             playerGroup g' = [p] /\ cls p = Player /\ isAlive p = true
             /\ sid p = nextId g
             /\ x (rect p) == 375 /\ y (rect p) == 530
             /\ width (rect p) = 50 /\ height (rect p) = 60)
      /\ bulletGroup g' = [] /\ enemyBulletGroup g' = []
      /\ length (alienGroup g') = (Z.to_nat (currentLevel g + 3) * 10)%nat
      /\ Forall (fun a => cls a = Alien /\ isAlive a = true) (alienGroup g')
      /\ Forall (fun s => (nextId g <= sid s)%nat) (allSprites g')
      /\ initialAlienCount g' = SpriteGroup_length (alienGroup g')
      /\ alienShootTimer g'
         = Some (Z.max (600 - currentLevel g * 100) 300)
      /\ movingRight g' = true /\ lastShotTime g' = now)
  /\ ((3 < currentLevel g + 1)%Z ->
      gameState g' = VICTORY /\ g' = set_gameState VICTORY next).
Proof.
  intros Hst Henter g' next.
  assert (Hkeys : held "Enter" (pressedKeys next) = false).
  { simpl. rewrite held_keyup_ne by discriminate. apply held_keyup. }
  assert (Hg' : g' = if (3 <? currentLevel g + 1)%Z
                     then set_gameState VICTORY next
                     else startGameLoop now (set_gameState PLAYING next)).
  { unfold g', gameLoop. rewrite Hst. unfold updateLevelComplete.
    rewrite Henter. reflexivity. }
  clearbody g'. subst g'.
  destruct (3 <? currentLevel g + 1)%Z eqn:Hlvl.
  - apply Z.ltb_lt in Hlvl.
    split; [done|]. split; [exact Hkeys|]. split; [lia | done].
  - apply Z.ltb_ge in Hlvl.
    split; [done|]. split; [exact Hkeys|]. split; [|lia].
    intros _.
    destruct (startGameLoop_session now (set_gameState PLAYING next))
      as (Hp & Hb & He & Hn & Ha & Hf & Hi & Ht & Hm & Hs).
    split; [done|]. split; [done|]. split; [exact Hp|].
    split; [exact Hb|]. split; [exact He|].
    split.
    { rewrite Hn. cbn [currentLevel set_gameState next set_currentLevel].
      do 2 f_equal. lia. }
    split; [exact Ha|]. split; [exact Hf|]. split; [exact Hi|].
    split; [|by split].
    rewrite Ht. cbn [currentLevel set_gameState next set_currentLevel].
    unfold alienShootInterval. do 2 f_equal. lia.
Qed.

(** C9 when level 1 has just been cleared, and when level 3 has. *)
Lemma updateLevelComplete_confirm_witness :
  let cleared lvl :=
    set_pressedKeys (keydown "Enter" ∅)
      (set_gameState LEVEL_COMPLETE (set_currentLevel lvl initialGame)) in
  (gameState (gameLoop 0 (cleared 1%Z)) = PLAYING
   /\ currentLevel (gameLoop 0 (cleared 1%Z)) = 2%Z
   /\ length (alienGroup (gameLoop 0 (cleared 1%Z))) = 40%nat
   /\ alienShootTimer (gameLoop 0 (cleared 1%Z)) = Some 500%Z)
  /\ (gameState (gameLoop 0 (cleared 3%Z)) = VICTORY
      /\ currentLevel (gameLoop 0 (cleared 3%Z)) = 4%Z).
Proof.
  intros cleared. split.
  - destruct (updateLevelComplete_confirm 0 (cleared 1%Z))
      as (Hl & _ & Hp & _); [reflexivity | reflexivity |].
    destruct Hp as (Hs & _ & _ & _ & _ & Hn & _ & _ & _ & Ht & _);
      [simpl; lia|].
    split; [exact Hs|]. split; [exact Hl|]. split; [exact Hn | exact Ht].
  - destruct (updateLevelComplete_confirm 0 (cleared 3%Z))
      as (Hl & _ & _ & Hv); [reflexivity | reflexivity |].
    split; [apply Hv; simpl; lia | exact Hl].
Defined.

(** X21: a level session is built from nothing.  When a frame finds the
    confirm key held in the menu, or on the level-complete screen of level
    1 or 2, every sprite of the four groups afterwards is alive and has a
    reference that no sprite of the groups had before; there is one
    player, no bullet of either side, the formation moves rightward, the
    clock of the last shot is the frame's, the timer is registered with
    the period of the level, and the press is consumed.  The state is
    [PLAYING], unless in the menu the instructions key is held too: then
    the session is created all the same and the state is
    [INSTRUCTIONS]. *)
Theorem new_session_is_fresh (now : Q) (g : Game) :
  wf_ids g ->
  held "Enter" (pressedKeys g) = true ->
  gameState g = MENU
  \/ (gameState g = LEVEL_COMPLETE /\ (currentLevel g < 3)%Z) ->
  let g' := gameLoop now g in
  (forall s', In s' (allSprites g') ->
     isAlive s' = true /\ forall s, In s (allSprites g) -> sid s <> sid s')
  /\ length (playerGroup g') = 1%nat
  /\ bulletGroup g' = [] /\ enemyBulletGroup g' = []
  /\ movingRight g' = true /\ lastShotTime g' = now
  /\ alienShootTimer g' = Some (alienShootInterval (currentLevel g'))
  /\ held "Enter" (pressedKeys g') = false
  /\ (gameState g = MENU -> currentLevel g' = currentLevel g)
  /\ (gameState g = LEVEL_COMPLETE ->
      currentLevel g' = (currentLevel g + 1)%Z /\ gameState g' = PLAYING)
  /\ (gameState g = MENU -> held "KeyI" (pressedKeys g) = false ->
      gameState g' = PLAYING)
  /\ (gameState g = MENU -> held "KeyI" (pressedKeys g) = true ->
      gameState g' = INSTRUCTIONS).
Proof.
  intros [_ Hlt] Henter Hst g'.
  assert (Hnew : exists g0,
             (playerGroup g' = playerGroup (startGameLoop now g0)
              /\ bulletGroup g' = [] /\ enemyBulletGroup g' = []
              /\ alienGroup g' = alienGroup (startGameLoop now g0))
             /\ nextId g0 = nextId g
             /\ movingRight g' = true /\ lastShotTime g' = now
             /\ alienShootTimer g'
                = Some (alienShootInterval (currentLevel g'))
             /\ held "Enter" (pressedKeys g') = false
             /\ (gameState g = MENU -> currentLevel g' = currentLevel g)
             /\ (gameState g = LEVEL_COMPLETE ->
                 currentLevel g' = (currentLevel g + 1)%Z
                 /\ gameState g' = PLAYING)
             /\ (gameState g = MENU -> held "KeyI" (pressedKeys g) = false ->
                 gameState g' = PLAYING)
             /\ (gameState g = MENU -> held "KeyI" (pressedKeys g) = true ->
                 gameState g' = INSTRUCTIONS)).
  { unfold g', gameLoop. destruct Hst as [Hm|[Hc Hl]].
    - rewrite Hm. unfold updateMenu. rewrite Henter.
      exists (set_gameState PLAYING (consume "Enter" g)).
      assert (Hi : held "KeyI"
                     (pressedKeys
                        (startGameLoop now
                           (set_gameState PLAYING (consume "Enter" g))))
                   = held "KeyI" (pressedKeys g)).
      { simpl. by rewrite held_keyup_ne. }
      rewrite Hi. destruct (held "KeyI" (pressedKeys g)).
      + simpl. rewrite held_keyup_ne by done. rewrite held_keyup.
        by repeat split.
      + simpl. rewrite held_keyup. by repeat split.
    - rewrite Hc. unfold updateLevelComplete. rewrite Henter. cbn [orb].
      cbv zeta.
      replace (3 <? _)%Z with false by (symmetry; apply Z.ltb_ge; simpl; lia).
      exists (set_gameState PLAYING
                (set_currentLevel (currentLevel g + 1)
                   (consume "Escape" (consume "Enter" g)))).
      simpl. rewrite held_keyup_ne by done. rewrite held_keyup.
      by repeat split. }
  clearbody g'.
  destruct Hnew as (g0 & (Hp & Hb & He & Ha) & Hid & Hrest).
  split.
  - intros s' Hin.
    assert (Hin0 : In s' (allSprites (startGameLoop now g0))).
    { unfold allSprites in *. rewrite Hp, Hb, He, Ha in Hin.
      unfold startGameLoop at 2 3. exact Hin. }
    destruct (startGameLoop_fresh now g0 s' Hin0) as [Halive Hge].
    split; [exact Halive|]. intros s Hs Heq.
    rewrite List.Forall_forall in Hlt.
    specialize (Hlt (sid s) (in_map sid _ _ Hs)). lia.
  - rewrite Hp, Hb, He. do 3 (split; [done|]). exact Hrest.
Qed.

(** X21 on the first frame of the game with the confirm key held. *)
Lemma new_session_is_fresh_witness :
  let g := set_pressedKeys (keydown "Enter" ∅) initialGame in
  gameState g = MENU
  /\ gameState (gameLoop 0 g) = PLAYING
  /\ length (playerGroup (gameLoop 0 g)) = 1%nat
  /\ bulletGroup (gameLoop 0 g) = []
  /\ alienShootTimer (gameLoop 0 g) = Some 600%Z.
Proof.
  intros g. split; [reflexivity|].
  destruct (new_session_is_fresh 0 g initialGame_wf eq_refl
              (or_introl eq_refl))
    as (_ & Hp & Hb & _ & _ & _ & Ht & _ & _ & _ & Hs & _).
  split; [apply Hs; reflexivity|]. split; [exact Hp|]. split; [exact Hb|].
  rewrite Ht. reflexivity.
Defined.

Lemma inject_nat_bounds (k n : nat) :
  (k < n)%nat ->
  0 <= inject_Z (Z.of_nat k)
  /\ inject_Z (Z.of_nat k) + 1 <= inject_Z (Z.of_nat n).
Proof.
  intros H. split.
  - change 0 with (inject_Z 0). rewrite <- Zle_Qle. lia.
  - change 1 with (inject_Z 1). rewrite <- inject_Z_plus, <- Zle_Qle. lia.
Qed.

(** X22: the layout of a new level, for the three levels of the game.
    Every alien is alive, shows its first frame, is 30 by 20 and lies in
    the part of the screen between [x = 50] and [x = 620] and between
    [y = 30] and [y = 250]; no two aliens overlap; no alien overlaps the
    player; and no alien is on the edge the formation starts towards. *)
Theorem startGameLoop_layout (now : Q) (g : Game) :
  (1 <= currentLevel g <= 3)%Z ->
  let g' := startGameLoop now g in
  (forall a, In a (alienGroup g') ->
     cls a = Alien /\ isAlive a = true /\ image a = alien_images 0
     /\ width (rect a) = 30 /\ height (rect a) = 20
     /\ 50 <= x (rect a) /\ x (rect a) + width (rect a) <= 620
     /\ 30 <= y (rect a) /\ y (rect a) + height (rect a) <= 250)
  /\ (forall a b, In a (alienGroup g') -> In b (alienGroup g') ->
        checkCollision (rect a) (rect b) = true -> a = b)
  /\ (forall p a, In p (playerGroup g') -> In a (alienGroup g') ->
        checkCollision (rect p) (rect a) = false)
  /\ ~ atEdge (movingRight g') (alienGroup g').
Proof.
  intros Hl g'.
  assert (Hbox : forall a, In a (alienGroup g') ->
            cls a = Alien /\ isAlive a = true /\ image a = alien_images 0
            /\ width (rect a) = 30 /\ height (rect a) = 20
            /\ 50 <= x (rect a) /\ x (rect a) + width (rect a) <= 620
            /\ 30 <= y (rect a) /\ y (rect a) + height (rect a) <= 250).
  { intros a Ha. apply alienGrid_member in Ha as (row & col & Hr & Hc & ->).
    destruct (inject_nat_bounds col cols Hc) as [Hc0 Hc1].
    destruct (inject_nat_bounds row 5 ltac:(lia)) as [Hr0 Hr1].
    change (inject_Z (Z.of_nat cols)) with 10 in Hc1.
    change (inject_Z (Z.of_nat 5)) with 5 in Hr1.
    simpl. repeat split; try reflexivity; lra. }
  split; [exact Hbox|]. split; [|split].
  - intros a b Ha Hb Hhit.
    apply alienGrid_member in Ha as (r & c & _ & _ & ->).
    apply alienGrid_member in Hb as (r' & c' & _ & _ & ->).
    unfold checkCollision in Hhit. simpl in Hhit.
    apply andb_prop in Hhit as [Hhit H4]. apply andb_prop in Hhit as [Hhit H3].
    apply andb_prop in Hhit as [H1 H2].
    apply Qltb_lt in H1, H2, H3, H4.
    assert (Hc : c = c').
    { destruct (lt_eq_lt_dec c c') as [[Hlt|He]|Hlt]; [|exact He|];
        destruct (inject_nat_bounds _ _ Hlt) as [_ Hq]; lra. }
    assert (Hr : r = r').
    { destruct (lt_eq_lt_dec r r') as [[Hlt|He]|Hlt]; [|exact He|];
        destruct (inject_nat_bounds _ _ Hlt) as [_ Hq]; lra. }
    by subst.
  - intros p a [<-|[]] Ha.
    destruct (Hbox a Ha) as (_ & _ & _ & _ & _ & _ & _ & _ & Hy).
    unfold checkCollision.
    replace (Qltb (y (rect (new_Player (nextId g))))
                  (y (rect a) + height (rect a))) with false.
    + by rewrite andb_false_r.
    + symmetry. apply Qltb_ge. simpl. unfold HEIGHT. lra.
  - intros [[_ (a & Ha & He)]|[Hf _]]; [|done].
    destruct (Hbox a Ha) as (_ & _ & _ & _ & _ & _ & Hx & _).
    unfold WIDTH in He. lra.
Qed.

(** X22 on the first level. *)
Lemma startGameLoop_layout_witness :
  length (alienGroup freshLevel1) = 30%nat
  /\ Forall (fun a => isAlive a = true /\ x (rect a) + width (rect a) <= 620)
            (alienGroup freshLevel1).
Proof.
  split; [reflexivity|].
  destruct (startGameLoop_layout 0 (set_gameState PLAYING initialGame))
    as [Hbox _]; [simpl; lia|].
  apply List.Forall_forall. intros a Ha.
  destruct (Hbox a Ha) as (_ & Halive & _ & _ & _ & _ & Hx & _).
  split; [exact Halive | exact Hx].
Defined.

(** ** The arrows of the state machine *)

Lemma settle_gameState g :
  gameState (settle g) = gameState g \/ gameState (settle g) = GAME_OVER
  \/ gameState (settle g) = LEVEL_COMPLETE.
Proof.
  destruct (settle_frame g) as (_ & _ & _ & _ & _ & _ & [[-> _]|[[->| ->] _]]);
    tauto.
Qed.

(** X23: the state machine.  A frame takes the state along one of these
    arrows and no other: from the menu to play or to the instructions;
    from the instructions to the menu; from play to the menu, to game
    over or to level complete; from level complete to play or to victory;
    from game over and from victory to the menu; or it stays where it is.
    Each arrow is taken by the frame at clock 16 from the state
    [arrowState] gives for it.  And outside of play, a frame
    that finds no key held changes nothing at all. *)
Theorem gameLoop_transitions (now : Q) (g : Game) :
  transition (gameState g) (gameState (gameLoop now g)) = true
  /\ (forall s s', transition s s' = true ->
        gameState (arrowState s s') = s
        /\ gameState (gameLoop 16 (arrowState s s')) = s')
  /\ (gameState g <> PLAYING ->
      (forall code, held code (pressedKeys g) = false) ->
      gameLoop now g = g).
Proof.
  split; [|split].
  - unfold gameLoop. destruct (gameState g) eqn:Hs.
    + unfold updateMenu. destruct (held "Enter" _);
        destruct (held "KeyI" _); simpl; by rewrite ?Hs.
    + unfold updateInstructions. destruct (_ || _); simpl; by rewrite ?Hs.
    + destruct (playerShoot_frame now g) as (Hp & _).
      unfold updatePlaying. cbv zeta.
      destruct (held "KeyR" _); [done|].
      destruct (held "KeyQ" _); [simpl; by rewrite Hp, Hs|].
      destruct (advance_frame now (playerShoot now g)) as (Ha & _).
      destruct (settle_gameState (advance now (playerShoot now g)))
        as [-> |[-> | ->]]; [|done|done].
      by rewrite Ha, Hp, Hs.
    + unfold updateLevelComplete. destruct (_ || _); [|by rewrite Hs].
      cbv zeta. by destruct (3 <? _)%Z.
    + unfold updateGameOver. destruct (held "KeyR" _); [done|].
      destruct (held "KeyQ" _); simpl; by rewrite Hs.
    + unfold updateVictory. destruct (held "KeyR" _); [done|].
      destruct (held "KeyQ" _); simpl; by rewrite Hs.
  - intros s s' Ht.
    destruct s, s'; try discriminate Ht; clear Ht;
      (split; [reflexivity | vm_compute; reflexivity]).
  - intros Hs Hk. unfold gameLoop. destruct (gameState g); [| | done | | |].
    + unfold updateMenu. by rewrite !Hk.
    + unfold updateInstructions. by rewrite !Hk.
    + unfold updateLevelComplete. by rewrite !Hk.
    + unfold updateGameOver. by rewrite !Hk.
    + unfold updateVictory. by rewrite !Hk.
Qed.

(** ** The keyboard table *)

Lemma held_keydown (a b : string) (keys : Keys) :
  held a (keydown b keys) = if String.eqb a b then true else held a keys.
Proof.
  unfold held, keydown. destruct (String.eqb_spec a b) as [->|Hne].
  - by rewrite lookup_insert_eq.
  - by rewrite lookup_insert_ne.
Qed.

Lemma held_keyup_eqb (a b : string) (keys : Keys) :
  held a (keyup b keys) = if String.eqb a b then false else held a keys.
Proof.
  destruct (String.eqb_spec a b) as [->|Hne].
  - apply held_keyup.
  - by apply held_keyup_ne.
Qed.

Lemma consumed_refl keys : consumed keys keys.
Proof. by intros code. Qed.

Lemma consumed_trans k1 k2 k3 :
  consumed k1 k2 -> consumed k2 k3 -> consumed k1 k3.
Proof.
  intros H12 H23 code. destruct (H12 code) as [Ha Hb].
  destruct (H23 code) as [Hc Hd]. split; [auto|].
  intros Hn. by rewrite Hd, Hb.
Qed.

Lemma consumed_keyup code keys :
  In code consumedKeys -> consumed keys (keyup code keys).
Proof.
  intros Hin c. rewrite held_keyup_eqb.
  destruct (String.eqb_spec c code) as [->|Hne]; [|done].
  split; [done | by intros []].
Qed.

Lemma gameLoop_consumed now g :
  consumed (pressedKeys g) (pressedKeys (gameLoop now g)).
Proof.
  assert (He : In "Enter" consumedKeys) by (simpl; tauto).
  assert (Hi : In "KeyI" consumedKeys) by (simpl; tauto).
  assert (Hx : In "Escape" consumedKeys) by (simpl; tauto).
  assert (Hr : In "KeyR" consumedKeys) by (simpl; tauto).
  unfold gameLoop. destruct (gameState g).
  - unfold updateMenu. destruct (held "Enter" _).
    + destruct (held "KeyI" _); simpl.
      * eapply consumed_trans; by apply consumed_keyup.
      * by apply consumed_keyup.
    + destruct (held "KeyI" _); simpl;
        [by apply consumed_keyup | apply consumed_refl].
  - unfold updateInstructions. destruct (_ || _); simpl.
    + eapply consumed_trans; by apply consumed_keyup.
    + apply consumed_refl.
  - destruct (updatePlaying_frame now g) as (_ & _ & Hcases).
    destruct (playerShoot_frame now g) as (_ & Hk & _).
    unfold updatePlaying in *. cbv zeta in *. rewrite Hk in *.
    destruct (held "KeyR" (pressedKeys g)).
    + simpl. rewrite Hk. by apply consumed_keyup.
    + destruct Hcases as [(? & _)|(_ & _ & -> & _)]; [done|].
      apply consumed_refl.
  - unfold updateLevelComplete. destruct (_ || _); [|apply consumed_refl].
    cbv zeta. destruct (3 <? _)%Z; simpl;
      eapply consumed_trans; by apply consumed_keyup.
  - unfold updateGameOver. destruct (held "KeyR" _); simpl.
    + by apply consumed_keyup.
    + destruct (held "KeyQ" _); apply consumed_refl.
  - unfold updateVictory. destruct (held "KeyR" _); simpl.
    + by apply consumed_keyup.
    + destruct (held "KeyQ" _); apply consumed_refl.
Qed.

(** X24: what an event does to the keyboard table.  A key going down is
    held afterwards and a key going up is not, and neither changes any
    other key; a firing of the alien timer leaves the table alone; and a
    frame never makes a key held, and leaves every key as it is apart
    from the confirm, instructions, cancel and restart keys, whose press
    it may consume: the arrow keys, the fire key and the quit key stay
    held until they go up. *)
Theorem step_keys (e : Event) (g g' : Game) (code : string) :
  step e g = Some g' ->
  match e with
  | KeyDown c =>
      held code (pressedKeys g')
      = if String.eqb code c then true else held code (pressedKeys g)
  | KeyUp c =>
      held code (pressedKeys g')
      = if String.eqb code c then false else held code (pressedKeys g)
  | Tick _ => pressedKeys g' = pressedKeys g
  | Frame _ =>
      (held code (pressedKeys g') = true -> held code (pressedKeys g) = true)
      /\ (code <> "Enter" -> code <> "KeyI" -> code <> "Escape" ->
          code <> "KeyR" ->
          held code (pressedKeys g') = held code (pressedKeys g))
  end.
Proof.
  destruct e as [c|c|now|rnd]; simpl.
  - intros [= <-]. apply held_keydown.
  - intros [= <-]. apply held_keyup_eqb.
  - intros [= <-]. destruct (gameLoop_consumed now g code) as [Ha Hb].
    split; [exact Ha|]. intros H1 H2 H3 H4. apply Hb.
    simpl. intros [|[|[|[|[]]]]]; congruence.
  - destruct (alienShootTimer g); [|done].
    destruct (_ && _); [|done]. intros [= <-].
    unfold alienShoot. destruct (0 <? _)%Z; [|done]. cbv zeta.
    by destruct (alienGroup g !! _).
Qed.

(** X24 on the first frame of the game, with the confirm key and the
    quit key held: the first press is consumed, the second is not. *)
Lemma step_keys_witness :
  let g := set_pressedKeys (keydown "KeyQ" (keydown "Enter" ∅)) initialGame in
  step (Frame 0) g = Some (gameLoop 0 g)
  /\ held "Enter" (pressedKeys (gameLoop 0 g)) = false
  /\ held "KeyQ" (pressedKeys (gameLoop 0 g)) = held "KeyQ" (pressedKeys g)
  /\ held "KeyQ" (pressedKeys g) = true.
Proof.
  intros g. split; [reflexivity|]. split; [reflexivity|].
  split; [|reflexivity].
  apply (step_keys (Frame 0) g (gameLoop 0 g) "KeyQ" eq_refl);
    discriminate.
Defined.

(** ** Placing a sprite *)

(** X25: [setRect] with its defaults.  With no image and a dimension
    missing it only warns and the sprite is unchanged.  Otherwise the box
    takes the dimensions passed, the image's for those not passed, and is
    placed by its anchor: the middle of the bottom edge for
    ['midbottom'], the middle of the top edge for ['midtop'], the top left
    corner for every other string.  With both dimensions passed the image
    plays no part and the result is that of [setRect] as the constructors
    of the game call it.  Only the box changes. *)
Theorem setRect_js_anchor
    (imageSize : option (Q * Q)) (posType : string) (px py : Q)
    (w h : option Q) (s : Sprite) :
  let s' := setRect_js imageSize posType px py w h s in
  (imageSize = None -> w = None \/ h = None -> s' = s)
  /\ (forall iw ih, imageSize = Some (iw, ih) ->
        width (rect s') = default iw w /\ height (rect s') = default ih h)
  /\ (forall w0 h0, w = Some w0 -> h = Some h0 ->
        width (rect s') = w0 /\ height (rect s') = h0
        /\ forall p, posType = posType_name p ->
             s' = setRect p px py w0 h0 s)
  /\ (imageSize <> None \/ (w <> None /\ h <> None) ->
      (posType = "midbottom" ->
       x (rect s') + width (rect s') / 2 == px
       /\ y (rect s') + height (rect s') == py)
      /\ (posType = "midtop" ->
          x (rect s') + width (rect s') / 2 == px /\ y (rect s') = py)
      /\ (posType <> "midbottom" -> posType <> "midtop" ->
          x (rect s') = px /\ y (rect s') = py))
  /\ sid s' = sid s /\ cls s' = cls s /\ isAlive s' = isAlive s
  /\ image s' = image s /\ speed s' = speed s.
Proof.
  cbv zeta. unfold setRect_js. split; [|split; [|split; [|split]]].
  - intros -> [-> | ->]; [done | by destruct w].
  - intros iw ih ->.
    destruct (String.eqb posType "midbottom"); [done|].
    by destruct (String.eqb posType "midtop").
  - intros w0 h0 -> ->.
    assert (Hd : match imageSize with
                 | Some (iw, ih) => Some (default iw (Some w0),
                                          default ih (Some h0))
                 | None => Some (w0, h0)
                 end = Some (w0, h0)) by (by destruct imageSize as [[? ?]|]).
    rewrite Hd.
    split; [|split].
    + destruct (String.eqb posType "midbottom"); [done|].
      by destruct (String.eqb posType "midtop").
    + destruct (String.eqb posType "midbottom"); [done|].
      by destruct (String.eqb posType "midtop").
    + by intros [| |] ->.
  - intros Hdims.
    assert (Hd : exists w' h',
               match imageSize with
               | Some (iw, ih) => Some (default iw w, default ih h)
               | None => match w, h with
                         | Some w', Some h' => Some (w', h')
                         | _, _ => None
                         end
               end = Some (w', h')).
    { destruct imageSize as [[iw ih]|]; [by eexists _, _|].
      destruct Hdims as [|[Hw Hh]]; [done|].
      destruct w as [w0|], h as [h0|]; try done. by eexists _, _. }
    destruct Hd as (w' & h' & ->).
    split; [|split].
    + intros ->. simpl. split; field.
    + intros ->. simpl. split; [field | done].
    + intros H1 H2.
      apply String.eqb_neq in H1, H2. by rewrite H1, H2.
  - destruct (match imageSize with Some _ => _ | None => _ end) as [[? ?]|];
      [|done].
    destruct (String.eqb posType "midbottom"); [done|].
    by destruct (String.eqb posType "midtop").
Qed.

(** ** Play goes on *)

(** No check of [settle] fires. *)
Lemma settle_quiet (m : Game) :
  (forall player s,
      SpriteGroupSingle_sprite (playerGroup m) = Some player ->
      In s (enemyBulletGroup m ++ alienGroup m) -> hits player s = false) ->
  alienGroup m <> [] ->
  settle m = m.
Proof.
  intros Hmiss Hne. unfold settle.
  assert (Hlen : (SpriteGroup_length (alienGroup m) =? 0)%Z = false).
  { apply Z.eqb_neq. unfold SpriteGroup_length.
    destruct (alienGroup m); [done | simpl; lia]. }
  destruct (SpriteGroupSingle_sprite (playerGroup m)) as [player|] eqn:Hp.
  - rewrite (spriteCollide_miss player (enemyBulletGroup m) true)
      by (intros b Hb; apply (Hmiss player b eq_refl), in_or_app; tauto).
    cbn [length Z.of_nat Z.ltb Z.compare].
    change (alienGroup (set_enemyBulletGroup (enemyBulletGroup m) m))
      with (alienGroup m).
    rewrite (spriteCollide_miss player (alienGroup m) false)
      by (intros a Ha; apply (Hmiss player a eq_refl), in_or_app; tauto).
    cbn [length Z.of_nat Z.ltb Z.compare].
    change (alienGroup
              (set_alienGroup (alienGroup m)
                 (set_enemyBulletGroup (enemyBulletGroup m) m)))
      with (alienGroup m).
    rewrite Hlen. by destruct m.
  - rewrite Hlen. done.
Qed.

(** X26: in a [PLAYING] frame in which neither the restart key nor the
    quit key is held, if at the collision step the player overlaps no
    living enemy bullet and no living alien, and the alien array is not
    empty, then none of the three checks fires: the frame ends in the
    state the moving phase produced, still [PLAYING] and with the timer
    as it was. *)
Theorem play_goes_on (now : Q) (g : Game) :
  gameState g = PLAYING ->
  held "KeyR" (pressedKeys g) = false ->
  held "KeyQ" (pressedKeys g) = false ->
  let moved := advance now (playerShoot now g) in
  (forall player s,
      SpriteGroupSingle_sprite (playerGroup moved) = Some player ->
      In s (enemyBulletGroup moved ++ alienGroup moved) ->
      hits player s = false) ->
  alienGroup moved <> [] ->
  gameLoop now g = moved
  /\ gameState (gameLoop now g) = PLAYING
  /\ alienShootTimer (gameLoop now g) = alienShootTimer g.
Proof.
  intros Hst HR HQ moved Hmiss Hne.
  assert (Hg' : gameLoop now g = settle moved).
  { unfold gameLoop. rewrite Hst. by apply updatePlaying_plays. }
  rewrite Hg', (settle_quiet moved Hmiss Hne).
  destruct (advance_frame now (playerShoot now g)) as (Hs & _ & _ & _ & Ht & _).
  destruct (playerShoot_frame now g) as (Hs' & _ & _ & _ & _ & _ & _ & Ht' & _).
  split; [done|]. unfold moved. by rewrite Hs, Ht, Hs', Ht'.
Qed.

(** X26 on the first frame of level 1. *)
Lemma play_goes_on_witness :
  gameState freshLevel1 = PLAYING
  /\ gameState (gameLoop 16 freshLevel1) = PLAYING
  /\ alienShootTimer (gameLoop 16 freshLevel1) = Some 600%Z.
Proof.
  split; [reflexivity|].
  destruct (play_goes_on 16 freshLevel1) as (_ & Hs & Ht);
    [reflexivity | reflexivity | reflexivity | | discriminate |].
  - intros player s Hp Hin.
    injection Hp as <-. revert s Hin. apply List.Forall_forall.
    vm_compute. repeat constructor.
  - split; [exact Hs|]. rewrite Ht. reflexivity.
Defined.
